(** * FTRepo: identity resolution and de-duplication, verified

    A shallow embedding of the decision logic of the FTRepo scraper
    (scraper.py), its duplicate cleaner (clean_duplicates.py) and its
    AltStore converter (convert_to_altstore.py), followed by the
    properties of that logic.

    Conventions of the embedding.
    - A Python [str] is a [string]; a character is a code point below 256
      (the Latin-1 range), so [str.isspace], [str.isdigit], [str.lower]
      and the regular-expression classes are the restrictions of the
      Unicode ones to that range.
    - Code that can raise returns an [outcome]; [try ... except:] is
      [try_except].
    - A Python [dict] whose iteration order is observable is an ordered
      association list ([odict]); Python sets are [gset]s.
    - The collaborators reached over the network (the inference service,
      the release storage, the App Store lookup) are parameters. *)

From Stdlib Require Import ZArith Ascii String List Lia Bool.
From stdpp Require Import base option list strings gmap.

Local Open Scope Z_scope.

(** ** Python primitives *)

Module Py.

(** *** Exceptions *)

Inductive exn : Type :=
| IndexError
| ValueError
| RuntimeError
| OverflowError
| OSError.

Inductive outcome (A : Type) : Type :=
| Returns (a : A)
| Raises (e : exn).
Arguments Returns {A} a.
Arguments Raises {A} e.

Definition bind {A B : Type} (m : outcome A) (k : A → outcome B) : outcome B :=
  match m with
  | Returns a => k a
  | Raises e => Raises e
  end.

(** [try: body / except: handler] with a bare [except]. *)
Definition try_except {A : Type} (body handler : outcome A) : outcome A :=
  match body with
  | Returns a => Returns a
  | Raises _ => handler
  end.

(** *** Character classes (code points 0..255) *)

Definition code (c : ascii) : N := N_of_ascii c.

Definition between (lo hi : N) (c : ascii) : bool :=
  ((lo <=? code c) && (code c <=? hi))%N.

(** [str.isspace], also the class [\s] of [re] on [str] patterns. *)
Definition isspace (c : ascii) : bool :=
  between 9 13 c || between 28 32 c || (code c =? 133)%N || (code c =? 160)%N.

(** The decimal digits [0-9], the ones [int] converts. *)
Definition isdecimal_char (c : ascii) : bool := between 48 57 c.

(** [str.isdigit] on one character: the decimal digits and the
    superscripts one, two and three. *)
Definition isdigit_char (c : ascii) : bool :=
  isdecimal_char c || (code c =? 178)%N || (code c =? 179)%N || (code c =? 185)%N.

(** [\w] of [re]: alphanumeric characters and the underscore. *)
Definition isword (c : ascii) : bool :=
  between 48 57 c || between 65 90 c || (code c =? 95)%N || between 97 122 c
  || (code c =? 170)%N || between 178 179 c || (code c =? 181)%N
  || between 185 186 c || between 188 190 c
  || between 192 214 c || between 216 246 c || between 248 255 c.

(** [str.lower] on one character. *)
Definition lower_char (c : ascii) : ascii :=
  if between 65 90 c || (between 192 222 c && negb (code c =? 215)%N)
  then ascii_of_N (code c + 32) else c.

(** *** Strings *)

Fixpoint forallb_str (p : ascii → bool) (s : string) : bool :=
  match s with
  | EmptyString => true
  | String c s' => p c && forallb_str p s'
  end.

Fixpoint map_str (f : ascii → ascii) (s : string) : string :=
  match s with
  | EmptyString => EmptyString
  | String c s' => String (f c) (map_str f s')
  end.

Definition nonempty (s : string) : bool :=
  match s with EmptyString => false | String _ _ => true end.

(** Truth value of an optional string: [None] and [""] are false. *)
Definition truthy (o : option string) : bool :=
  match o with
  | Some s => nonempty s
  | None => false
  end.

(** [a or b] on optional strings. *)
Definition py_or (a b : option string) : option string :=
  if truthy a then a else b.

Definition lower (s : string) : string := map_str lower_char s.

(** [s.isdigit()]: at least one character and all of them digits. *)
Definition isdigit (s : string) : bool := nonempty s && forallb_str isdigit_char s.

(** [s1 > s2] on [str]: lexicographic on code points. *)
Definition str_gt (s1 s2 : string) : bool :=
  match String.compare s1 s2 with
  | Gt => true
  | _ => false
  end.

(** Splitting at every character of a class, empty pieces kept:
    [re.split] with a one-character class, and [str.split(sep)]. *)
Fixpoint split_on (sep : ascii → bool) (s : string) : list string :=
  match s with
  | EmptyString => [EmptyString]
  | String c s' =>
      if sep c then EmptyString :: split_on sep s'
      else match split_on sep s' with
           | w :: ws => String c w :: ws
           | [] => [String c EmptyString]
           end
  end.

(** [s.split()]: the maximal runs of non-whitespace characters. *)
Fixpoint split (s : string) : list string :=
  match s with
  | EmptyString => []
  | String c s' =>
      if isspace c then split s'
      else match s' with
           | EmptyString => [String c EmptyString]
           | String c' _ =>
               if isspace c' then String c EmptyString :: split s'
               else match split s' with
                    | w :: ws => String c w :: ws
                    | [] => [String c EmptyString]
                    end
           end
  end.

(** [l[0]] *)
Definition first {A : Type} (l : list A) : outcome A :=
  match l with
  | x :: _ => Returns x
  | [] => Raises IndexError
  end.

(** [l[-1]] of a non-empty list, with a default for the empty one. *)
Fixpoint last_or {A : Type} (d : A) (l : list A) : A :=
  match l with
  | [] => d
  | x :: l' => last_or x l'
  end.

Definition digit_value (c : ascii) : Z := Z.of_N (code c) - 48.

Fixpoint int_digits (acc : Z) (s : string) : outcome Z :=
  match s with
  | EmptyString => Returns acc
  | String c s' =>
      if isdecimal_char c then int_digits (10 * acc + digit_value c) s'
      else Raises ValueError
  end.

(** [sys.int_max_str_digits] as the interpreter sets it: a longer
    numeral is refused by [int]. *)
Definition int_max_str_digits : N := 4300.

(** [int(s)] for a string without sign, blank or underscore (all that
    reaches it here has passed [isdigit]): [ValueError] for a character
    that is no decimal digit and for more digits than the limit. *)
Definition int (s : string) : outcome Z :=
  match s with
  | EmptyString => Raises ValueError
  | String _ _ =>
      if (int_max_str_digits <? N.of_nat (String.length s))%N
      then Raises ValueError
      else int_digits 0 s
  end.

(** [s.strip()] *)
Fixpoint lstrip (s : string) : string :=
  match s with
  | EmptyString => EmptyString
  | String c s' => if isspace c then lstrip s' else s
  end.

Fixpoint rstrip (s : string) : string :=
  match s with
  | EmptyString => EmptyString
  | String c s' =>
      match rstrip s' with
      | EmptyString => if isspace c then EmptyString else String c EmptyString
      | r => String c r
      end
  end.

Definition strip (s : string) : string := rstrip (lstrip s).

(** [s.endswith(suffix)] *)
Definition endswith (suffix s : string) : bool :=
  let n := String.length s in
  let m := String.length suffix in
  (m <=? n)%nat && String.eqb (String.substring (n - m) m s) suffix.

(** *** Lists of integers, compared as Python compares lists *)

Fixpoint list_eq (p q : list Z) : bool :=
  match p, q with
  | [], [] => true
  | x :: p', y :: q' => (x =? y) && list_eq p' q'
  | _, _ => false
  end.

(** [p > q]: decided at the first index where they differ, the longer
    list being the greater when one is a prefix of the other. *)
Fixpoint list_gt (p q : list Z) : bool :=
  match p, q with
  | [], _ => false
  | _ :: _, [] => true
  | x :: p', y :: q' => if x =? y then list_gt p' q' else y <? x
  end.

(** *** Insertion-ordered dictionaries *)

Definition odict (V : Type) : Type := list (string * V).

Fixpoint get {V : Type} (k : string) (d : odict V) : option V :=
  match d with
  | [] => None
  | (k', v) :: d' => if String.eqb k k' then Some v else get k d'
  end.

(** [d[k] = v]: in place for a key already there, at the end for a new one. *)
Fixpoint set {V : Type} (k : string) (v : V) (d : odict V) : odict V :=
  match d with
  | [] => [(k, v)]
  | (k', v') :: d' =>
      if String.eqb k k' then (k', v) :: d' else (k', v') :: set k v d'
  end.

Definition keys {V : Type} (d : odict V) : list string := map fst d.

(** [needle in hay] on [str] *)
Fixpoint contains (needle hay : string) : bool :=
  String.prefix needle hay ||
  match hay with
  | EmptyString => false
  | String _ hay' => contains needle hay'
  end.

(** [s.replace(c, "")] for a one-character [c] *)
Fixpoint remove_char (p : ascii → bool) (s : string) : string :=
  match s with
  | EmptyString => EmptyString
  | String c s' => if p c then remove_char p s' else String c (remove_char p s')
  end.

(** *** [urllib.parse.quote] *)

Definition hex_digit (n : N) : ascii :=
  if (n <? 10)%N then ascii_of_N (48 + n) else ascii_of_N (55 + n).

(** The escape [%XX] of one byte, in upper-case hexadecimal. *)
Definition escape (b : N) : string :=
  String "%" (String (hex_digit (b / 16)) (String (hex_digit (b mod 16)) EmptyString)).

(** The characters [quote] leaves alone, with its default [safe='/']:
    letters, digits and [_.-~/]. *)
Definition quote_safe (c : ascii) : bool :=
  between 48 57 c || between 65 90 c || between 97 122 c
  || (code c =? 95)%N || (code c =? 46)%N || (code c =? 45)%N
  || (code c =? 126)%N || (code c =? 47)%N.

(** Every other character becomes the escapes of its UTF-8 bytes: one
    below code point 128, two from there to 255. *)
Definition quote_char (c : ascii) : string :=
  if quote_safe c then String c EmptyString
  else if (code c <? 128)%N then escape (code c)
  else escape (192 + code c / 64) +:+ escape (128 + code c mod 64).

Fixpoint quote (s : string) : string :=
  match s with
  | EmptyString => EmptyString
  | String c s' => quote_char c +:+ quote s'
  end.

End Py.

Import Py.

Notation "'let!' x ':=' m 'in' k" := (bind m (fun x => k))
  (at level 10, x name, m at level 100, k at level 200, only parsing).

(** ** scraper.py *)

Module Scraper.

(** *** [compare_versions] (lines 1350-1385) *)

Definition is_dot_or_dash (c : ascii) : bool :=
  (code c =? 46)%N || (code c =? 45)%N.

(** [[int(x) for x in tokens if x.isdigit()]] *)
Fixpoint int_tokens (tokens : list string) : outcome (list Z) :=
  match tokens with
  | [] => Returns []
  | x :: rest =>
      if isdigit x
      then let! n := int x in
           let! ns := int_tokens rest in
           Returns (n :: ns)
      else int_tokens rest
  end.

(** [[int(x) for x in re.split(r'[.-]', v.split()[0]) if x.isdigit()]] *)
Definition version_parts (v : string) : outcome (list Z) :=
  let! w := first (split v) in
  int_tokens (split_on is_dot_or_dash w).

(** The timestamp tie-break, lines 1373-1376 and 1382-1384. *)
Definition more_recent (timestamp1 timestamp2 : option Z) : bool :=
  match timestamp1, timestamp2 with
  | Some t1, Some t2 => t2 <? t1
  | _, _ => false
  end.

(** Lines 1367-1378, after both versions have been parsed. *)
Definition compare_parts (v1_parts v2_parts : list Z)
    (timestamp1 timestamp2 : option Z) : bool :=
  let max_len := Nat.max (length v1_parts) (length v2_parts) in
  let v1_parts := v1_parts ++ replicate (max_len - length v1_parts)%nat 0 in
  let v2_parts := v2_parts ++ replicate (max_len - length v2_parts)%nat 0 in
  if list_eq v1_parts v2_parts then more_recent timestamp1 timestamp2
  else list_gt v1_parts v2_parts.

(** The handler, lines 1381-1385. *)
Definition compare_strings (v1 v2 : string)
    (timestamp1 timestamp2 : option Z) : bool :=
  if String.eqb v1 v2 then more_recent timestamp1 timestamp2
  else str_gt v1 v2.

Definition compare_versions (v1 v2 : string)
    (timestamp1 timestamp2 : option Z) : outcome bool :=
  try_except
    (let! v1_parts := version_parts v1 in
     let! v2_parts := version_parts v2 in
     Returns (compare_parts v1_parts v2_parts timestamp1 timestamp2))
    (Returns (compare_strings v1 v2 timestamp1 timestamp2)).

(** *** Metadata extraction by the inference service (lines 363-385, 392-484) *)

(** A field of the JSON object the service answers with. *)
Inductive json_field : Type :=
| Absent
| Null
| Str (s : string).

Record ai_json : Type := {
  j_app_name : json_field;
  j_version : json_field;
  j_tweak_name : json_field;
  j_bundle_id : json_field;
  j_description : json_field
}.

(** The dictionary [_extract_with_model] returns, read with [.get]. *)
Record metadata : Type := {
  md_app_name : option string;
  md_version : option string;
  md_tweak_name : option string;
  md_bundle_id : option string;
  md_description : option string
}.

Definition present (f : json_field) : bool :=
  match f with Absent => false | _ => true end.

(** Lines 375-377: JSON null and the string ["null"] both become [None]. *)
Definition normalize (f : json_field) : option string :=
  match f with
  | Str s => if String.eqb s "null" then None else Some s
  | _ => None
  end.

(** Lines 370-382, on the parsed answer. *)
Definition validate_response (j : ai_json) : option metadata :=
  if present (j_app_name j) && present (j_version j)
     && present (j_bundle_id j) && present (j_description j)
  then Some {| md_app_name := normalize (j_app_name j);
               md_version := normalize (j_version j);
               md_tweak_name := normalize (j_tweak_name j);
               md_bundle_id := normalize (j_bundle_id j);
               md_description := normalize (j_description j) |}
  else None.

Section Extraction.

(** The inference request: model name, registry paragraph of the
    prompt, message text, filename; [None] when the request or the
    parsing of its answer fails. *)
Variable ask_model : string → string → string → option string → option ai_json.
Variables OPENROUTER_API_KEY OPENROUTER_MODEL OPENROUTER_FALLBACK_MODEL : string.
(** The fixed prose around the registry in the prompt (lines 437-445). *)
Variables tweaks_intro tweaks_outro : string.
(** [f"metadata:{hash(cache_input)}"] *)
Variable hash : string → string.
Variable _known_tweaks : list string.

Definition _extract_with_model (description_text : string)
    (filename : option string) (model_name known_tweaks_text : string)
    : option metadata :=
  match ask_model model_name known_tweaks_text description_text filename with
  | Some j => validate_response j
  | None => None
  end.

Definition known_tweaks_text : string :=
  match _known_tweaks with
  | [] => ""
  | _ => tweaks_intro +:+ String.concat ", " _known_tweaks +:+ tweaks_outro
  end.

Definition cache_key (description_text : string) (filename : option string) : string :=
  "metadata:" +:+
  hash (String.substring 0 100 description_text +:+ "|" +:+ default "" filename).

Definition extract_metadata_with_ai (description_text : string)
    (filename : option string) (_ai_bundle_cache : gmap string metadata)
    : outcome (option metadata * gmap string metadata) :=
  if negb (nonempty OPENROUTER_API_KEY) then Raises RuntimeError
  else
    match _ai_bundle_cache !! cache_key description_text filename with
    | Some cached_result => Returns (Some cached_result, _ai_bundle_cache)
    | None =>
        let metadata :=
          _extract_with_model description_text filename OPENROUTER_MODEL
            known_tweaks_text in
        let needs_fallback :=
          match metadata with
          | None => true
          | Some md =>
              match md_app_name md, md_bundle_id md with
              | None, None => true
              | _, _ => false
              end
          end in
        let metadata :=
          if needs_fallback && nonempty OPENROUTER_FALLBACK_MODEL
             && negb (String.eqb OPENROUTER_FALLBACK_MODEL OPENROUTER_MODEL)
          then
            match _extract_with_model description_text filename
                    OPENROUTER_FALLBACK_MODEL known_tweaks_text with
            | Some fallback_metadata => Some fallback_metadata
            | None => metadata
            end
          else metadata in
        match metadata with
        | Some md =>
            Returns (Some md,
                     <[cache_key description_text filename := md]> _ai_bundle_cache)
        | None => Returns (None, _ai_bundle_cache)
        end
    end.

(** *** Reconciliation of one file (lines 1438-1488, 1590-1592) *)

Record extraction : Type := {
  app_name_from_message : option string;
  version_from_message : option string;
  tweak_from_message : option string;
  ai_bundle_id : option string;
  ai_description : option string
}.

Definition no_extraction : extraction :=
  {| app_name_from_message := None; version_from_message := None;
     tweak_from_message := None; ai_bundle_id := None; ai_description := None |}.

(** Lines 1450-1457: the safeguard against the string ["null"]. *)
Definition not_null (o : option string) : option string :=
  match o with
  | Some s => if String.eqb s "null" then None else Some s
  | None => None
  end.

(** Lines 1471-1476. *)
Definition correct_name (e : extraction) : extraction :=
  let renamed n :=
    {| app_name_from_message := Some n;
       version_from_message := version_from_message e;
       tweak_from_message := tweak_from_message e;
       ai_bundle_id := ai_bundle_id e;
       ai_description := ai_description e |} in
  if bool_decide (ai_bundle_id e = Some "app.swiftgram.ios")
     && negb (bool_decide (app_name_from_message e = Some "Swiftgram"))
  then renamed "Swiftgram"
  else if bool_decide (ai_bundle_id e = Some "ph.telegra.Telegraph")
          && negb (bool_decide (app_name_from_message e = Some "Telegram"))
  then renamed "Telegram"
  else e.

Definition extract_from_message (message_text filename : string)
    (_ai_bundle_cache : gmap string metadata)
    : outcome (extraction * gmap string metadata) :=
  if nonempty message_text then
    let! r := extract_metadata_with_ai message_text (Some filename) _ai_bundle_cache in
    let e :=
      match r.1 with
      | Some md =>
          {| app_name_from_message := not_null (md_app_name md);
             version_from_message := not_null (md_version md);
             tweak_from_message := md_tweak_name md;
             ai_bundle_id := not_null (md_bundle_id md);
             ai_description := not_null (md_description md) |}
      | None => no_extraction
      end in
    Returns (correct_name e, r.2)
  else Returns (no_extraction, _ai_bundle_cache).

(** Line 1488: the filename heuristic is switched off. *)
Definition tweak_from_filename (filename : string) : option string := None.

(** Line 1592. *)
Definition best_tweak (e : extraction) (filename : string) : option string :=
  py_or (tweak_from_message e) (tweak_from_filename filename).

(** The tweak [t] is what the service answered for this message and
    filename, under the primary model or the fallback model, in an answer
    with all the required fields. *)
Definition answered (description_text : string) (filename : option string)
    (t : string) : Prop :=
  ∃ model j,
    (model = OPENROUTER_MODEL ∨ model = OPENROUTER_FALLBACK_MODEL) ∧
    ask_model model known_tweaks_text description_text filename = Some j ∧
    is_Some (validate_response j) ∧
    j_tweak_name j = Str t.

End Extraction.

(** *** Pass 1: the downloaded files (lines 1667-1754) *)

Record ipa_info : Type := {
  bundleIdentifier : string;
  name : string;
  version : string;
  size : Z
}.

(** What the loop body has settled for one file when it reaches line
    1667: the reconciled [info], the tweak, and the source tracking. *)
Record observation : Type := {
  obs_filename : string;
  obs_info : option ipa_info;
  obs_best_tweak : option string;
  obs_timestamp : Z;
  obs_source : string;
  obs_message : string;
  obs_ai_description : option string
}.

(** A value of [apps_by_bundle] written by Pass 1. *)
Record scanned : Type := {
  s_info : ipa_info;
  s_filename : string;
  s_version : string;
  s_source : string;
  s_message : string;
  s_tweak : option string;
  s_timestamp : Z;
  s_ai_description : option string;
  s_old_filename : option string
}.

(** Lines 1673-1678. *)
Definition final_name_correction (info : ipa_info) : ipa_info :=
  let renamed n :=
    {| bundleIdentifier := bundleIdentifier info; name := n;
       version := version info; size := size info |} in
  if String.eqb (bundleIdentifier info) "app.swiftgram.ios"
     && negb (String.eqb (name info) "Swiftgram")
  then renamed "Swiftgram"
  else if String.eqb (bundleIdentifier info) "ph.telegra.Telegraph"
          && negb (String.eqb (name info) "Telegram")
  then renamed "Telegram"
  else info.

(** Lines 1683-1688, and 1777-1782 in Pass 2. *)
Definition unique_app_key (bundle_id : string) (tweak : option string) : string :=
  match tweak with
  | Some t => if nonempty t then bundle_id +:+ ":" +:+ t else bundle_id
  | None => bundle_id
  end.

Definition new_entry (o : observation) (info : ipa_info)
    (old_filename : option string) : scanned :=
  {| s_info := info;
     s_filename := obs_filename o;
     s_version := version info;
     s_source := obs_source o;
     s_message := obs_message o;
     s_tweak := obs_best_tweak o;
     s_timestamp := obs_timestamp o;
     s_ai_description := obs_ai_description o;
     s_old_filename := old_filename |}.

(** The running map and the files of the download directory. *)
Definition pass1_state : Type := odict scanned * gset string.

Section Pass1.

(** [datetime.fromtimestamp(t).strftime('%Y-%m-%d %H:%M:%S')], called for
    the log lines 1697-1698 and 1730-1731: the date, or the exception the
    interpreter raises for a timestamp outside the dates of the platform
    ([ValueError], [OverflowError] or [OSError]). Nothing catches it. *)
Variable fromtimestamp : Z → outcome string.

(** Both dates are formatted, the new one first. *)
Definition log_dates (message_timestamp existing_timestamp : Z) : outcome unit :=
  let! new_date := fromtimestamp message_timestamp in
  let! old_date := fromtimestamp existing_timestamp in
  Returns tt.

Definition pass1_step (st : pass1_state) (o : observation) : outcome pass1_state :=
  let '(apps_by_bundle, downloads) := st in
  match obs_info o with
  | None => Returns st
  | Some info =>
      let bundle_id := bundleIdentifier info in
      let app_version := version info in
      let info := final_name_correction info in
      let key := unique_app_key bundle_id (obs_best_tweak o) in
      match get key apps_by_bundle with
      | Some resident =>
          let existing_version := s_version resident in
          let existing_timestamp := s_timestamp resident in
          let! newer := compare_versions app_version existing_version
                          (Some (obs_timestamp o)) (Some existing_timestamp) in
          if newer : bool then
            let! logged :=
              if String.eqb app_version existing_version
                 && (existing_timestamp <? obs_timestamp o)
              then log_dates (obs_timestamp o) existing_timestamp
              else Returns tt in
            let old_filename := s_filename resident in
            Returns (set key (new_entry o info (Some old_filename)) apps_by_bundle,
                     downloads ∖ {[old_filename]})
          else
            let! logged :=
              if String.eqb app_version existing_version
              then log_dates (obs_timestamp o) existing_timestamp
              else Returns tt in
            Returns st
      | None =>
          Returns (set key (new_entry o info None) apps_by_bundle, downloads)
      end
  end.

Fixpoint pass1 (st : pass1_state) (observations : list observation)
    : outcome pass1_state :=
  match observations with
  | [] => Returns st
  | o :: rest => let! st' := pass1_step st o in pass1 st' rest
  end.

End Pass1.

(** *** Pass 2: merge with the published catalog (lines 1756-1806) *)

Record app : Type := {
  app_name : string;
  app_bundleIdentifier : string;
  app_developerName : string;
  app_iconURL : string;
  app_localizedDescription : string;
  app_version : string;
  app_versionDate : string;
  app_size : Z;
  app_downloadURL : string
}.

Inductive entry : Type :=
| Scanned (data : scanned)
| Existing (existing : app) (version : string) (tweak : option string).

Definition entry_version (e : entry) : string :=
  match e with
  | Scanned data => s_version data
  | Existing _ v _ => v
  end.

Definition is_lparen (c : ascii) : bool := (code c =? 40)%N.
Definition is_rparen (c : ascii) : bool := (code c =? 41)%N.
Definition is_newline (c : ascii) : bool := (code c =? 10)%N.

(** The text up to the first closing parenthesis, and what follows it. *)
Fixpoint until_rparen (s : string) : option (string * string) :=
  match s with
  | EmptyString => None
  | String c s' =>
      if is_rparen c then Some (EmptyString, s')
      else match until_rparen s' with
           | Some (body, rest) => Some (String c body, rest)
           | None => None
           end
  end.

(** [$]: the end of the string, or just before its final newline. *)
Definition at_end (s : string) : bool :=
  match s with
  | EmptyString => true
  | String c EmptyString => is_newline c
  | _ => false
  end.

(** [re.search(r'\(([^)]+)\)$', app_name)], giving [group(1)]. *)
Fixpoint tweak_in_name (app_name : string) : option string :=
  match app_name with
  | EmptyString => None
  | String c s' =>
      if is_lparen c then
        match until_rparen s' with
        | Some (body, rest) =>
            if nonempty body && at_end rest then Some body else tweak_in_name s'
        | None => tweak_in_name s'
        end
      else tweak_in_name s'
  end.

Definition existing_key (a : app) : string :=
  unique_app_key (app_bundleIdentifier a) (tweak_in_name (app_name a)).

(** The item Pass 2 writes for an existing app (lines 1789-1804). *)
Definition carried (a : app) : string * entry :=
  (existing_key a, Existing a (app_version a) (tweak_in_name (app_name a))).

Definition pass2_step (apps_by_bundle : odict entry) (a : app)
    : outcome (odict entry) :=
  let bundle_id := app_bundleIdentifier a in
  let app_version := app_version a in
  let existing_tweak := tweak_in_name (app_name a) in
  let key := unique_app_key bundle_id existing_tweak in
  let kept := Existing a app_version existing_tweak in
  match get key apps_by_bundle with
  | Some resident =>
      let new_version := entry_version resident in
      let! older := compare_versions app_version new_version None None in
      if older : bool then Returns (set key kept apps_by_bundle)
      else Returns apps_by_bundle
  | None => Returns (set key kept apps_by_bundle)
  end.

Fixpoint pass2 (apps_by_bundle : odict entry) (existing_apps : list app)
    : outcome (odict entry) :=
  match existing_apps with
  | [] => Returns apps_by_bundle
  | a :: rest => let! d := pass2_step apps_by_bundle a in pass2 d rest
  end.

(** *** Republish (lines 1827-1990) *)

Definition is_slash (c : ascii) : bool := (code c =? 47)%N.

Definition hex_value (c : ascii) : option N :=
  if between 48 57 c then Some (code c - 48)%N
  else if between 65 70 c then Some (code c - 55)%N
  else if between 97 102 c then Some (code c - 87)%N
  else None.

Definition is_percent (c : ascii) : bool := (code c =? 37)%N.

(** [urllib.parse.unquote] on the strings whose escapes are all below
    [%80]: a well-formed escape becomes its character, anything else
    stays. (An escape from [%80] on starts a UTF-8 sequence, whose value
    may lie outside the code points of this embedding; it is left as it
    is here.) Used for the scenarios; the properties hold for every
    decoding function. *)
Fixpoint unquote_ascii (s : string) : string :=
  match s with
  | EmptyString => EmptyString
  | String c s' =>
      let keep := String c (unquote_ascii s') in
      if is_percent c then
        match s' with
        | String h1 (String h2 rest) =>
            match hex_value h1, hex_value h2 with
            | Some a, Some b =>
                if (16 * a + b <? 128)%N
                then String (ascii_of_N (16 * a + b)) (unquote_ascii rest)
                else keep
            | _, _ => keep
            end
        | _ => keep
        end
      else keep
  end.

Section Republish.

(** [urllib.parse.unquote] *)
Variable unquote : string → string.
(** Lines 1848-1990 for one scanned entry: the upload and the assembly
    of its catalog entry, [None] when the upload fails. *)
Variable publish_scanned : string → scanned → option app.
Variable current_release_assets : gset string.
(** [datetime.fromtimestamp], as Pass 1 calls it. *)
Variable fromtimestamp : Z → outcome string.

(** Lines 1836-1838. *)
Definition filename_from_url (download_url : string) : string :=
  unquote (last_or "" (split_on is_slash download_url)).

(** What one iteration of the loop appends to [final_apps]. *)
Definition republish_entry (bundle_id : string) (data : entry) : list app :=
  match data with
  | Existing existing_app _ _ =>
      let download_url := app_downloadURL existing_app in
      if nonempty download_url then
        if bool_decide (filename_from_url download_url ∈ current_release_assets)
        then [existing_app]
        else []
      else []
  | Scanned data =>
      match publish_scanned bundle_id data with
      | Some app_entry => [app_entry]
      | None => []
      end
  end.

Fixpoint republish (final_apps : list app) (items : odict entry) : list app :=
  match items with
  | [] => final_apps
  | (bundle_id, data) :: rest =>
      republish (final_apps ++ republish_entry bundle_id data) rest
  end.

(** Lines 1417-2001 from the reconciled observations on: the [apps]
    array written to the catalog. [repo] is the catalog read at line
    1760, [None] when the file does not exist. *)
Definition update_repo_json (observations : list observation)
    (downloads : gset string) (repo : option (list app)) : outcome (list app) :=
  let! st := pass1 fromtimestamp ([], downloads) observations in
  let apps_by_bundle := map (λ kv, (kv.1, Scanned kv.2)) st.1 in
  let! apps_by_bundle :=
    match repo with
    | Some existing_apps => pass2 apps_by_bundle existing_apps
    | None => Returns apps_by_bundle
    end in
  Returns (republish [] apps_by_bundle).

End Republish.

(** *** The entry published for a scanned file (lines 1862-1864, 1909-1916) *)

(** Line 1864: [f"{repo_url}/releases/download/{RELEASE_TAG}/{encoded_filename}"]. *)
Definition download_url (repo_url RELEASE_TAG filename : string) : string :=
  repo_url +:+ "/releases/download/" +:+ RELEASE_TAG +:+ "/" +:+ quote filename.

(** Lines 1911-1916: the tweak is appended to the name in parentheses. *)
Definition final_name (base_name : string) (tweak_name : option string) : string :=
  if truthy tweak_name
  then base_name +:+ " (" +:+ default "" tweak_name +:+ ")"
  else base_name.

(** Lines 1918-1919: the App Store's bundle identifier when the lookup
    gave one, else the one of the file. *)
Definition final_bundle_id (official_bundle_id : option string) (info : ipa_info)
    : string :=
  if truthy official_bundle_id then default "" official_bundle_id
  else bundleIdentifier info.

(** *** Reconciliation of the metadata of one file (lines 1561-1665) *)

Section Reconcile.

(** [clean_app_name] (lines 1531-1559): its patterns range over code
    points outside this embedding; the properties hold for every such
    function. *)
Variable clean_app_name : string → string.
(** The bundle identifier [search_app_store(cleaned_name, None)] answers. *)
Variable search_app_store_bundle_id : string → option string.

Definition is_space (c : ascii) : bool := (code c =? 32)%N.

(** [v in ['1.0', '0.1.0', '1']] *)
Definition is_placeholder (v : string) : bool :=
  String.eqb v "1.0" || String.eqb v "0.1.0" || String.eqb v "1".

(** Lines 1570-1580: the version preferred for this channel. *)
Definition best_version (source_channel : string)
    (version_from_file version_from_message : option string) : option string :=
  if contains "binnichtaktiv" (lower source_channel)
  then py_or version_from_file version_from_message
  else py_or version_from_message version_from_file.

(** Lines 1592-1665. [info] is what [extract_ipa_info] returned, [None]
    when it failed; [file_size] is [os.path.getsize(ipa_path)]. (The last
    case below is never reached: without [info] the record is incomplete.) *)
Definition reconcile (info : option ipa_info) (e : extraction)
    (app_name_from_file : string) (version_from_file : option string)
    (source_channel : string) (file_size : Z) : ipa_info :=
  let best_version :=
    best_version source_channel version_from_file (version_from_message e) in
  let best_name := py_or (app_name_from_message e) (Some app_name_from_file) in
  let incomplete :=
    match info with
    | None => true
    | Some i => negb (nonempty (name i)) || negb (nonempty (bundleIdentifier i))
    end in
  if incomplete then
    let cleaned_name :=
      clean_app_name (if truthy best_name then default "" best_name
                      else app_name_from_file) in
    let temp_bundle_id :=
      if truthy (ai_bundle_id e) then ai_bundle_id e
      else
        let official_bundle_id := search_app_store_bundle_id cleaned_name in
        if truthy official_bundle_id then official_bundle_id else None in
    let bundle_id :=
      if truthy temp_bundle_id then default "" temp_bundle_id
      else "com.unknown." +:+ remove_char is_space (lower cleaned_name) in
    match info with
    | None =>
        {| bundleIdentifier := bundle_id;
           name := cleaned_name;
           version := default "1.0" (py_or best_version (Some "1.0"));
           size := file_size |}
    | Some i =>
        {| bundleIdentifier :=
             if nonempty (bundleIdentifier i) then bundleIdentifier i else bundle_id;
           name := if nonempty (name i) then name i else cleaned_name;
           version :=
             if truthy best_version
                && (negb (nonempty (version i)) || is_placeholder (version i))
             then default "" best_version
             else version i;
           size := size i |}
    end
  else
    match info with
    | Some i =>
        {| bundleIdentifier := bundleIdentifier i;
           name :=
             if truthy (app_name_from_message e)
             then clean_app_name (default "" (app_name_from_message e))
             else clean_app_name (name i);
           version :=
             if truthy (version_from_message e)
             then default "" (version_from_message e)
             else if truthy version_from_file && is_placeholder (version i)
             then default "" version_from_file
             else version i;
           size := size i |}
    | None => {| bundleIdentifier := ""; name := ""; version := ""; size := 0 |}
    end.

End Reconcile.

End Scraper.

(** ** clean_duplicates.py *)

Module CleanDuplicates.

(** *** [extract_tweak_from_filename] (lines 324-350) *)

Definition word_char (o : option ascii) : bool :=
  match o with
  | Some c => isword c
  | None => false
  end.

Definition next_char (s : string) : option ascii :=
  match s with
  | EmptyString => None
  | String c _ => Some c
  end.

(** [\b] between the character [prev] and the rest [s] of the text. *)
Definition boundary (prev : option ascii) (s : string) : bool :=
  xorb (word_char prev) (word_char (next_char s)).

(** The escaped literal at the start of [s], letter case ignored: the
    last character consumed (or [prev]) and the rest of the text. *)
Fixpoint match_literal (literal s : string) (prev : option ascii)
    : option (option ascii * string) :=
  match literal with
  | EmptyString => Some (prev, s)
  | String a literal' =>
      match s with
      | String c s' =>
          if Ascii.eqb (lower_char a) (lower_char c)
          then match_literal literal' s' (Some c)
          else None
      | EmptyString => None
      end
  end.

Definition match_here (literal : string) (prev : option ascii) (s : string) : bool :=
  boundary prev s &&
  match match_literal literal s prev with
  | Some (prev', rest) => boundary prev' rest
  | None => false
  end.

Fixpoint search_from (literal : string) (prev : option ascii) (s : string) : bool :=
  match_here literal prev s ||
  match s with
  | EmptyString => false
  | String c s' => search_from literal (Some c) s'
  end.

(** [re.search(r'\b' + re.escape(tweak) + r'\b', filename, re.IGNORECASE)] *)
Definition search_word (tweak filename : string) : bool :=
  search_from tweak None filename.

Fixpoint extract_tweak_from_filename (filename : string)
    (known_tweaks : list string) : option string :=
  match known_tweaks with
  | [] => None
  | tweak :: rest =>
      if search_word tweak filename then Some tweak
      else extract_tweak_from_filename filename rest
  end.

(** *** [is_tweak_in_list] (lines 353-369) *)

Definition is_tweak_in_list (tweak_name : option string)
    (known_tweaks : list string) : bool :=
  match tweak_name with
  | Some t =>
      if negb (nonempty t) || negb (bool_decide (known_tweaks ≠ [])) then false
      else existsb (λ known, String.eqb (lower known) (lower t)) known_tweaks
  | None => false
  end.

(** *** Validation of the proposed groups (lines 599-640) *)

Record group : Type := {
  g_app_name : option string;
  g_tweak_name : option string;
  g_keep : string;
  g_delete : list string;
  g_reason : option string
}.

(** Lines 618-619: [t.lower() if t else None]. *)
Definition normalized (t : option string) : option string :=
  match t with
  | Some s => if nonempty s then Some (lower s) else None
  | None => None
  end.

(** Lines 613-627: the loop over [delete_files], left at the first mismatch. *)
Fixpoint all_tweaks_match (keep_tweak : option string) (delete_files : list string)
    (known_tweaks : list string) : bool :=
  match delete_files with
  | [] => true
  | delete_file :: rest =>
      let delete_tweak := extract_tweak_from_filename delete_file known_tweaks in
      if bool_decide (normalized keep_tweak ≠ normalized delete_tweak) then false
      else all_tweaks_match keep_tweak rest known_tweaks
  end.

Definition group_passes (known_tweaks : list string) (g : group) : bool :=
  let keep_tweak := extract_tweak_from_filename (g_keep g) known_tweaks in
  all_tweaks_match keep_tweak (g_delete g) known_tweaks.

Fixpoint validated (known_tweaks : list string) (duplicate_groups : list group)
    : list group :=
  match duplicate_groups with
  | [] => []
  | g :: rest =>
      if group_passes known_tweaks g then g :: validated known_tweaks rest
      else validated known_tweaks rest
  end.

(** The tweak of the file to keep is, letter case apart, the tweak of
    every file to delete. *)
Definition same_tweak (known_tweaks : list string) (keep_file delete_file : string)
    : Prop :=
  normalized (extract_tweak_from_filename keep_file known_tweaks)
  = normalized (extract_tweak_from_filename delete_file known_tweaks).

Definition consistent (known_tweaks : list string) (g : group) : Prop :=
  Forall (same_tweak known_tweaks (g_keep g)) (g_delete g).

(** Lines 601-635. *)
Definition validate (known_tweaks : list string) (duplicate_groups : list group)
    : list group :=
  match known_tweaks, duplicate_groups with
  | _ :: _, _ :: _ => validated known_tweaks duplicate_groups
  | _, _ => duplicate_groups
  end.

(** *** [check_all_release_assets_with_ai] (lines 399-649) *)

Section Detector.

(** The inference request for one batch of filenames and the parsing of
    its answer (lines 440-598): the proposed groups, [None] when the
    request fails, the answer cannot be parsed, or it has no choice. *)
Variable ask_groups : list string → list string → option (list group).
Variable OPENROUTER_API_KEY : string.
(** [f"assets_batch:{hash(tuple(sorted(filenames)))}"] *)
Variable batch_key : list string → string.

Definition CHUNK_SIZE : nat := 50.

Abbreviation cache := (gmap string (list group)).

(** The call on at most [CHUNK_SIZE] filenames (lines 434-649). *)
Definition check_batch (filenames known_tweaks : list string)
    (_ai_duplicate_cache : cache) : list group * cache :=
  match _ai_duplicate_cache !! batch_key filenames with
  | Some cached => (cached, _ai_duplicate_cache)
  | None =>
      match ask_groups filenames known_tweaks with
      | Some duplicate_groups =>
          let duplicate_groups := validate known_tweaks duplicate_groups in
          (duplicate_groups,
           <[batch_key filenames := duplicate_groups]> _ai_duplicate_cache)
      | None => ([], _ai_duplicate_cache)
      end
  end.

(** The recursive call on a chunk (line 430): the chunk has at most
    [CHUNK_SIZE] names, so it does not split again. *)
Definition check_chunk (chunk known_tweaks : list string)
    (_ai_duplicate_cache : cache) : list group * cache :=
  if (length chunk <? 2)%nat then ([], _ai_duplicate_cache)
  else check_batch chunk known_tweaks _ai_duplicate_cache.

(** Lines 427-431: [for i in range(0, len(filenames), CHUNK_SIZE)] on
    the chunks [filenames[i:i + CHUNK_SIZE]]. *)
Definition chunk_starts (len : nat) : list nat :=
  map (λ k, k * CHUNK_SIZE)%nat (seq 0 ((len + CHUNK_SIZE - 1) / CHUNK_SIZE)).

Fixpoint check_chunks (starts : list nat) (filenames known_tweaks : list string)
    (_ai_duplicate_cache : cache) : list group * cache :=
  match starts with
  | [] => ([], _ai_duplicate_cache)
  | i :: rest =>
      let '(chunk_groups, c1) :=
        check_chunk (take CHUNK_SIZE (drop i filenames)) known_tweaks
          _ai_duplicate_cache in
      let '(more, c2) := check_chunks rest filenames known_tweaks c1 in
      (chunk_groups ++ more, c2)
  end.

Definition check_all_release_assets_with_ai (filenames known_tweaks : list string)
    (_ai_duplicate_cache : cache) : list group * cache :=
  if negb (nonempty OPENROUTER_API_KEY) then ([], _ai_duplicate_cache)
  else if (length filenames <? 2)%nat then ([], _ai_duplicate_cache)
  else if (CHUNK_SIZE <? length filenames)%nat
  then check_chunks (chunk_starts (length filenames)) filenames known_tweaks
         _ai_duplicate_cache
  else check_batch filenames known_tweaks _ai_duplicate_cache.

(** *** The deletions the groups drive (lines 1016-1049) *)

Record file_info : Type := {
  fi_filename : string;
  fi_asset_id : Z;
  fi_kept_file : string
}.

Fixpoint files_of_group (ipa_assets : odict Z) (keep_file : string)
    (delete_files : list string) : list file_info :=
  match delete_files with
  | [] => []
  | old_file :: rest =>
      match get old_file ipa_assets with
      | Some id =>
          {| fi_filename := old_file; fi_asset_id := id;
             fi_kept_file := keep_file |}
          :: files_of_group ipa_assets keep_file rest
      | None => files_of_group ipa_assets keep_file rest
      end
  end.

Fixpoint files_to_delete (ipa_assets : odict Z)
    (duplicate_groups : list group) : list file_info :=
  match duplicate_groups with
  | [] => []
  | g :: rest =>
      files_of_group ipa_assets (g_keep g) (g_delete g)
      ++ files_to_delete ipa_assets rest
  end.

(** Line 1006: the assets whose name ends in [.ipa], each with its id. *)
Definition ipa_assets (release_assets : odict Z) : odict Z :=
  List.filter (λ kv, endswith ".ipa" kv.1) release_assets.

(** Lines 1000-1049 of [clean_duplicates]: the release assets that step 2
    schedules for deletion, the detector starting from its empty cache. *)
Definition scheduled_deletions (release_assets : odict Z)
    (known_tweaks : list string) : list file_info :=
  match release_assets with
  | [] => []
  | _ =>
      let ipa_assets := ipa_assets release_assets in
      if (length ipa_assets <? 2)%nat then []
      else
        let asset_filenames := keys ipa_assets in
        files_to_delete ipa_assets
          (check_all_release_assets_with_ai asset_filenames known_tweaks ∅).1
  end.

End Detector.

(** Every group the cache holds has passed the validation. *)
Definition cache_validated (known_tweaks : list string)
    (c : gmap string (list group)) : Prop :=
  ∀ k groups, c !! k = Some groups → Forall (consistent known_tweaks) groups.

(** What a call of the detector must leave: consistent groups and a
    validated cache. *)
Definition sound (known_tweaks : list string)
    (r : list group * gmap string (list group)) : Prop :=
  Forall (consistent known_tweaks) r.1 ∧ cache_validated known_tweaks r.2.

(** *** [extract_base_name_and_tweak] (lines 302-321) *)

(** [\s*\(([^)]+)\)$] at the start of [s], giving [group(2)]. *)
Definition match_tail_end (s : string) : option string :=
  match lstrip s with
  | String c s' =>
      if Scraper.is_lparen c then
        match Scraper.until_rparen s' with
        | Some (body, rest) =>
            if nonempty body && Scraper.at_end rest then Some body else None
        | None => None
        end
      else None
  | EmptyString => None
  end.

(** [re.search(r'^(.+?)\s*\(([^)]+)\)$', app_name)], giving [group(1)]
    and [group(2)]: the lazy [.+?] is tried at length one, two, ... and
    stops at a line break. *)
Fixpoint match_base (app_name : string) : option (string * string) :=
  match app_name with
  | EmptyString => None
  | String c s' =>
      if Scraper.is_newline c then None
      else match match_tail_end s' with
           | Some body => Some (String c EmptyString, body)
           | None =>
               match match_base s' with
               | Some (g1, body) => Some (String c g1, body)
               | None => None
               end
           end
  end.

Definition extract_base_name_and_tweak (app_name : string) : string * option string :=
  match match_base app_name with
  | Some (g1, g2) => (strip g1, Some (strip g2))
  | None => (app_name, None)
  end.

(** *** [compare_versions] of the cleaner (lines 372-396) *)

(** [[int(x) for x in re.split(r'[.-]', str(v)) if x.isdigit()]]: the
    whole string, where the scraper reads its first word. *)
Definition version_parts (v : string) : outcome (list Z) :=
  Scraper.int_tokens (split_on Scraper.is_dot_or_dash v).

Definition compare_versions (v1 v2 : string) : outcome bool :=
  try_except
    (let! v1_parts := version_parts v1 in
     let! v2_parts := version_parts v2 in
     let max_len := Nat.max (length v1_parts) (length v2_parts) in
     let v1_parts := v1_parts ++ replicate (max_len - length v1_parts)%nat 0 in
     let v2_parts := v2_parts ++ replicate (max_len - length v2_parts)%nat 0 in
     Returns (list_gt v1_parts v2_parts))
    (Returns (str_gt v1 v2)).

(** *** Step 1 of [clean_duplicates] (lines 816-938, 958-965) *)

#[global] Instance app_eq_dec : EqDecision Scraper.app.
Proof. solve_decision. Defined.

(** [if k not in d: d[k] = []] and [d[k].append(v)]. *)
Definition append_to {V : Type} (k : string) (v : V) (d : odict (list V))
    : odict (list V) :=
  match get k d with
  | Some l => set k (l ++ [v]) d
  | None => set k [v] d
  end.

(** Lines 817-823. *)
Definition apps_by_bundle (apps : list Scraper.app) : odict (list Scraper.app) :=
  fold_left
    (λ d a, let bundle_id := Scraper.app_bundleIdentifier a in
            if nonempty bundle_id then append_to bundle_id a d else d)
    apps [].

(** Lines 841-850. *)
Definition group_key (a : Scraper.app) : string :=
  let '(base_name, tweak_name) := extract_base_name_and_tweak (Scraper.app_name a) in
  if truthy tweak_name
  then base_name +:+ "|" +:+ lower (default "" tweak_name)
  else base_name +:+ "|NO_TWEAK".

(** Lines 839-854. *)
Definition app_groups (bundle_apps : list Scraper.app) : odict (list Scraper.app) :=
  fold_left (λ d a, append_to (group_key a) a d) bundle_apps [].

(** Line 898: [(newest_tweak or '').lower() == (old_tweak or '').lower()]. *)
Definition tweak_match (newest_app old_app : Scraper.app) : bool :=
  let newest_tweak := (extract_base_name_and_tweak (Scraper.app_name newest_app)).2 in
  let old_tweak := (extract_base_name_and_tweak (Scraper.app_name old_app)).2 in
  String.eqb (lower (default "" newest_tweak)) (lower (default "" old_tweak)).

Section Step1.

(** [sorted(apps_in_group, key=cmp_to_key(lambda a, b: 1 if
    compare_versions(a.version, b.version) else -1), reverse=True)]: the
    order the sort gives under this comparison is left to the
    interpreter; it returns the apps of the group, each as often as it
    came in. *)
Variable sorted_newest_first : list Scraper.app → list Scraper.app.
Variable unquote : string → string.
(** The release assets, each name with its id. *)
Variable release_assets : odict Z.

(** Lines 857-909 for one group: the apps marked for removal. *)
Definition older_versions (apps_in_group : list Scraper.app) : list Scraper.app :=
  if (length apps_in_group <=? 1)%nat then []
  else
    match sorted_newest_first apps_in_group with
    | newest_app :: older_apps => List.filter (tweak_match newest_app) older_apps
    | [] => []
    end.

(** Lines 833-909 for one bundle identifier. *)
Definition removals_of_bundle (bundle_apps : list Scraper.app) : list Scraper.app :=
  if (length bundle_apps <=? 1)%nat then []
  else flat_map (λ kv, older_versions kv.2) (app_groups bundle_apps).

Definition apps_to_remove (apps : list Scraper.app) : list Scraper.app :=
  flat_map (λ kv, removals_of_bundle kv.2) (apps_by_bundle apps).

(** Line 961: [[app for app in apps if app not in apps_to_remove]]. *)
Definition cleaned_apps (apps : list Scraper.app) : list Scraper.app :=
  List.filter (λ a, negb (bool_decide (a ∈ apps_to_remove apps))) apps.

(** Lines 911-922: the release assets of the removed apps. *)
Definition ipas_to_delete (apps : list Scraper.app) : list (string * Z) :=
  flat_map
    (λ old_app,
       let download_url := Scraper.app_downloadURL old_app in
       if nonempty download_url then
         let filename := unquote (last_or "" (split_on Scraper.is_slash download_url)) in
         match get filename release_assets with
         | Some id => [(filename, id)]
         | None => []
         end
       else [])
    (apps_to_remove apps).

End Step1.

End CleanDuplicates.

(** ** convert_to_altstore.py *)

Module AltStore.

Import Scraper.

(** [\s*\(([^)]+)\)\s*$] at the start of [s], giving [group(2)]. *)
Definition match_tail (s : string) : option string :=
  match lstrip s with
  | String c s' =>
      if is_lparen c then
        match until_rparen s' with
        | Some (body, rest) =>
            if nonempty body && forallb_str isspace rest then Some body else None
        | None => None
        end
      else None
  | EmptyString => None
  end.

(** [re.match(r'^(.+?)\s*\(([^)]+)\)\s*$', app_name)], giving
    [group(1)] and [group(2)]: the lazy [.+?] is tried at length one,
    two, ... and stops at a line break. *)
Fixpoint match_name (app_name : string) : option (string * string) :=
  match app_name with
  | EmptyString => None
  | String c s' =>
      if is_newline c then None
      else match match_tail s' with
           | Some body => Some (String c EmptyString, body)
           | None =>
               match match_name s' with
               | Some (g1, body) => Some (String c g1, body)
               | None => None
               end
           end
  end.

(** Lines 40-42. *)
Fixpoint find_tweak (potential_tweak : string) (known_tweaks : list string)
    : option string :=
  match known_tweaks with
  | [] => None
  | tweak :: rest =>
      if String.eqb (lower tweak) (lower potential_tweak) then Some tweak
      else find_tweak potential_tweak rest
  end.

Definition extract_tweak_from_name (app_name : string) (known_tweaks : list string)
    : string * option string :=
  match match_name app_name with
  | Some (g1, g2) =>
      let base_name := strip g1 in
      let potential_tweak := strip g2 in
      match find_tweak potential_tweak known_tweaks with
      | Some tweak => (base_name, Some tweak)
      | None => (app_name, None)
      end
  | None => (app_name, None)
  end.

Definition create_unique_bundle_id (original_bundle_id : string)
    (tweak_name : option string) : string :=
  if negb (truthy tweak_name) then original_bundle_id
  else original_bundle_id +:+ "." +:+ lower (default "" tweak_name).

Record version_entry : Type := {
  ve_version : string;
  ve_date : string;
  ve_size : Z;
  ve_downloadURL : string;
  ve_buildVersion : option string;
  ve_localizedDescription : option string;
  ve_minOSVersion : option string
}.

(** An app of apps.json, read with [.get] and its defaults. *)
Record source_app : Type := {
  sa_name : string;
  sa_bundleIdentifier : string;
  sa_developerName : string;
  sa_localizedDescription : string;
  sa_iconURL : string;
  sa_versions : list version_entry;
  sa_appPermissions : list (string * string);
  sa_subtitle : option string;
  sa_tintColor : option string;
  sa_category : option string;
  sa_screenshots : option (list string)
}.

(** Lines 79-96. *)
Definition convert_version (v : version_entry) : version_entry :=
  {| ve_version := ve_version v;
     ve_date := ve_date v;
     ve_size := ve_size v;
     ve_downloadURL := ve_downloadURL v;
     ve_buildVersion := Some (default (ve_version v) (ve_buildVersion v));
     ve_localizedDescription := ve_localizedDescription v;
     ve_minOSVersion := ve_minOSVersion v |}.

Definition convert_app_to_altstore_format (a : source_app)
    (known_tweaks : list string) : source_app :=
  let app_name := sa_name a in
  let '(base_name, tweak_name) := extract_tweak_from_name app_name known_tweaks in
  let original_bundle_id := sa_bundleIdentifier a in
  let bundle_id := create_unique_bundle_id original_bundle_id tweak_name in
  {| sa_name := app_name;
     sa_bundleIdentifier := bundle_id;
     sa_developerName := sa_developerName a;
     sa_localizedDescription := sa_localizedDescription a;
     sa_iconURL := sa_iconURL a;
     sa_versions := map convert_version (sa_versions a);
     sa_appPermissions := sa_appPermissions a;
     sa_subtitle := sa_subtitle a;
     sa_tintColor := sa_tintColor a;
     sa_category := sa_category a;
     sa_screenshots := sa_screenshots a |}.

(** Lines 139-145 of [convert_to_altstore]: the [apps] array. *)
Definition altstore_apps (apps : list source_app) (known_tweaks : list string)
    : list source_app :=
  map (λ a, convert_app_to_altstore_format a known_tweaks) apps.

(** Lines 174-180 of [main], on the converted apps. *)
Definition modified_count (altstore_apps : list source_app)
    (known_tweaks : list string) : nat :=
  length (List.filter
            (λ a, truthy (extract_tweak_from_name (sa_name a) known_tweaks).2)
            altstore_apps).

End AltStore.

(** ** The specification's reference definitions *)

(** Section 4.1 of the specification, in its own words: split on ['.'] and
    ['-'], keep the numeric tokens in order, right-pad the shorter tuple
    with zeros, compare the tuples lexicographically, and break a tie by
    the timestamps when both are given. *)
Module VersionSpec.

Import Scraper.

Definition numeric_token (x : string) : bool :=
  nonempty x && forallb_str isdecimal_char x.

(** The number a decimal numeral denotes, digit by digit. *)
Fixpoint decimal (x : string) : Z :=
  match x with
  | EmptyString => 0
  | String c x' => digit_value c * 10 ^ Z.of_nat (String.length x') + decimal x'
  end.

Definition numeric_tuple (v : string) : list Z :=
  map decimal (List.filter numeric_token (split_on is_dot_or_dash v)).

Definition pad_right (n : nat) (t : list Z) : list Z :=
  t ++ replicate (n - length t)%nat 0.

Fixpoint lexicographic (p q : list Z) : comparison :=
  match p, q with
  | [], [] => Eq
  | [], _ :: _ => Lt
  | _ :: _, [] => Gt
  | x :: p', y :: q' =>
      match x ?= y with
      | Eq => lexicographic p' q'
      | c => c
      end
  end.

Definition is_newer (a b : string) (tA tB : option Z) : bool :=
  let p := numeric_tuple a in
  let q := numeric_tuple b in
  let n := Nat.max (length p) (length q) in
  match lexicographic (pad_right n p) (pad_right n q) with
  | Gt => true
  | Lt => false
  | Eq =>
      match tA, tB with
      | Some x, Some y => bool_decide (y < x)
      | _, _ => false
      end
  end.

Definition has_numeric_token (v : string) : Prop := numeric_tuple v ≠ [].

(** A numeral of more digits than [int] converts (4300). *)
Definition too_long (x : string) : bool :=
  (4300 <? N.of_nat (String.length x))%N.

(** A token that [str.isdigit] accepts and [int] rejects: one with a
    digit that is no decimal digit, or a numeral that is too long. It
    passes the filter of [compare_versions] and makes the parsing raise. *)
Definition bad_digits (x : string) : bool :=
  isdigit x && (negb (numeric_token x) || too_long x).

(** Every token of digits is a decimal numeral of at most 4300 digits. *)
Definition digits_convert (w : string) : Prop :=
  existsb bad_digits (split_on is_dot_or_dash w) = false.

(** The inputs on which the parsing of [compare_versions] raises: no
    word at all, or a first word with such a token. *)
Definition parse_raises (v : string) : bool :=
  match split v with
  | [] => true
  | w :: _ => existsb bad_digits (split_on is_dot_or_dash w)
  end.

(** The first whitespace-delimited word, empty when there is none. *)
Definition first_word (v : string) : string := default "" (head (split v)).

Definition first_word_tuple (v : string) : list Z := numeric_tuple (first_word v).

End VersionSpec.

(** What it means for a display name to end in a parenthetical, for the
    AltStore conversion: a non-empty base on one line, optional blanks, an
    opening parenthesis, a body without closing parenthesis, the closing
    parenthesis, and optional blanks up to the end. When several opening
    parentheses qualify, the parenthetical starts at the first of them. *)
Module NameSpec.

Import Scraper.

Definition one_line (s : string) : Prop :=
  forallb_str (λ c, negb (is_newline c)) s = true.
Definition blank (s : string) : Prop := forallb_str isspace s = true.
Definition unclosed (s : string) : Prop :=
  forallb_str (λ c, negb (is_rparen c)) s = true.

(** The tail of the pattern, [\s*\(([^)]+)\)\s*$]. *)
Definition tail_splits (t body : string) : Prop :=
  body ≠ "" ∧ unclosed body ∧
  ∃ ws1 ws2, blank ws1 ∧ blank ws2 ∧ t = ws1 +:+ "(" +:+ body +:+ ")" +:+ ws2.

Definition splits (name base body : string) : Prop :=
  base ≠ "" ∧ one_line base ∧ body ≠ "" ∧ unclosed body ∧
  ∃ ws1 ws2, blank ws1 ∧ blank ws2 ∧
    name = base +:+ ws1 +:+ "(" +:+ body +:+ ")" +:+ ws2.

Definition parenthetical (name body : string) : Prop :=
  ∃ base, splits name base body ∧
    ∀ base' body', splits name base' body' →
      (String.length base ≤ String.length base')%nat.

(** The name ends in a parenthetical that names the registry tweak [t]. *)
Definition names_tweak (name : string) (known_tweaks : list string) (t : string)
    : Prop :=
  ∃ body, parenthetical name body ∧ t ∈ known_tweaks ∧ t ≠ "" ∧
    lower t = lower (strip body).

End NameSpec.

(** Pass 1 as the specification words it: one step for each incoming
    file, on the running map and the files of the download directory. *)
Module Pass1Spec.

Import Scraper.

(** The entry a file leaves in the map, [old_filename] being the file of
    the resident it replaced, if any. *)
Definition candidate (o : observation) (info : ipa_info)
    (old_filename : option string) : scanned :=
  {| s_info := final_name_correction info;
     s_filename := obs_filename o;
     s_version := version info;
     s_source := obs_source o;
     s_message := obs_message o;
     s_tweak := obs_best_tweak o;
     s_timestamp := obs_timestamp o;
     s_ai_description := obs_ai_description o;
     s_old_filename := old_filename |}.

(** The candidate is newer than the resident: by version, or at equal
    version by a strictly more recent timestamp. *)
Definition newer (o : observation) (info : ipa_info) (resident : scanned) : bool :=
  match compare_versions (version info) (s_version resident)
          (Some (obs_timestamp o)) (Some (s_timestamp resident)) with
  | Returns b => b
  | Raises _ => false
  end.

(** The entry of [key] replaced, every other entry left where it is. *)
Definition replace (key : string) (e : scanned) (apps : odict scanned)
    : odict scanned :=
  map (λ kv, if String.eqb kv.1 key then (kv.1, e) else kv) apps.

Definition supersede (st : pass1_state) (o : observation) : pass1_state :=
  match obs_info o with
  | None => st
  | Some info =>
      let key := unique_app_key (bundleIdentifier info) (obs_best_tweak o) in
      match get key st.1 with
      | None => (st.1 ++ [(key, candidate o info None)], st.2)
      | Some resident =>
          if newer o info resident
          then (replace key (candidate o info (Some (s_filename resident))) st.1,
                st.2 ∖ {[s_filename resident]})
          else st
      end
  end.

Definition run (st : pass1_state) (observations : list observation) : pass1_state :=
  fold_left supersede observations st.

End Pass1Spec.

(** The file name a download URL ends in, as the specification words it:
    the last path segment, URL-decoded. *)
Module UrlSpec.

Import Scraper.

(** [segment] is what follows the last slash of [url], the whole of it
    when it has no slash. *)
Definition last_segment (url segment : string) : Prop :=
  forallb_str (λ c, negb (is_slash c)) segment = true
  ∧ (url = segment ∨ ∃ before, url = before +:+ "/" +:+ segment).

Definition hex (c : ascii) : Prop := hex_value c ≠ None.

(** [s] opens with a percent escape: a percent sign and two hexadecimal
    digits. *)
Definition escape_ahead (s : string) : Prop :=
  ∃ h1 h2 rest, s = String "%" (String h1 (String h2 rest)) ∧ hex h1 ∧ hex h2.

(** Percent-decoding, for the escapes below [%80], each the character of
    that code; what is no escape stays. (An escape from [%80] on has no
    decoding here: it belongs to a UTF-8 sequence.) *)
Inductive decoded : string → string → Prop :=
| decoded_end : decoded "" ""
| decoded_escape (h1 h2 : ascii) (a b : N) (s r : string) :
    hex_value h1 = Some a → hex_value h2 = Some b → (16 * a + b < 128)%N →
    decoded s r →
    decoded (String "%" (String h1 (String h2 s))) (String (ascii_of_N (16 * a + b)) r)
| decoded_plain (c : ascii) (s r : string) :
    (¬ escape_ahead (String c s)) →
    decoded s r →
    decoded (String c s) (String c r).

End UrlSpec.

(** ** Scenarios *)

Module Scenario.

Import Scraper.

(** The scenario of the specification: two files of [com.x.app], versions
    404.0.0 and 405.1.0, no tweak. *)
Definition file_404 : observation :=
  {| obs_filename := "App v404.0.0.ipa";
     obs_info := Some {| bundleIdentifier := "com.x.app"; name := "App";
                         version := "404.0.0"; size := 1 |};
     obs_best_tweak := None; obs_timestamp := 100; obs_source := "chan";
     obs_message := "App 404.0.0"; obs_ai_description := None |}.

Definition file_405 : observation :=
  {| obs_filename := "App v405.1.0.ipa";
     obs_info := Some {| bundleIdentifier := "com.x.app"; name := "App";
                         version := "405.1.0"; size := 1 |};
     obs_best_tweak := None; obs_timestamp := 90; obs_source := "chan";
     obs_message := "App 405.1.0"; obs_ai_description := None |}.

Definition both_files : gset string := {[ "App v404.0.0.ipa"; "App v405.1.0.ipa" ]}.

(** Two files of one app with two tweaks. *)
Definition file_bhinsta : observation :=
  {| obs_filename := "Instagram BHInsta v1.2.ipa";
     obs_info := Some {| bundleIdentifier := "com.x.app"; name := "Instagram";
                         version := "1.2"; size := 1 |};
     obs_best_tweak := Some "BHInsta"; obs_timestamp := 100; obs_source := "chan";
     obs_message := "Instagram BHInsta 1.2"; obs_ai_description := None |}.

Definition file_theta : observation :=
  {| obs_filename := "Instagram Theta v1.2.ipa";
     obs_info := Some {| bundleIdentifier := "com.x.app"; name := "Instagram";
                         version := "1.2"; size := 1 |};
     obs_best_tweak := Some "Theta"; obs_timestamp := 100; obs_source := "chan";
     obs_message := "Instagram Theta 1.2"; obs_ai_description := None |}.

(** A proposal that mixes [BHInsta] and [Theta], and a sound one. *)
Definition mixed_group : CleanDuplicates.group :=
  {| CleanDuplicates.g_app_name := Some "Instagram";
     CleanDuplicates.g_tweak_name := Some "BHInsta";
     CleanDuplicates.g_keep := "Instagram v405.1.0 BHInsta v1.2.ipa";
     CleanDuplicates.g_delete := ["Instagram v404.0.0 Theta v4.0.ipa"];
     CleanDuplicates.g_reason := Some "405.1.0 > 404.0.0" |}.

Definition sound_group : CleanDuplicates.group :=
  {| CleanDuplicates.g_app_name := Some "Instagram";
     CleanDuplicates.g_tweak_name := Some "BHInsta";
     CleanDuplicates.g_keep := "Instagram v405.1.0 BHInsta v1.2.ipa";
     CleanDuplicates.g_delete := ["Instagram v404.0.0 bhinsta v1.2.ipa"];
     CleanDuplicates.g_reason := Some "405.1.0 > 404.0.0" |}.

(** A second proposal, sound, that lists the [Theta] file of the mixed
    one. *)
Definition theta_group : CleanDuplicates.group :=
  {| CleanDuplicates.g_app_name := Some "Instagram";
     CleanDuplicates.g_tweak_name := Some "Theta";
     CleanDuplicates.g_keep := "Instagram v405.1.0 Theta v4.1.ipa";
     CleanDuplicates.g_delete := ["Instagram v404.0.0 Theta v4.0.ipa"];
     CleanDuplicates.g_reason := Some "405.1.0 > 404.0.0" |}.

(** [datetime.fromtimestamp] for the scenarios: a date from 1970 to the
    end of the year 9998, [ValueError] from the year 10000 on (the day in
    between falls to the one or the other with the time zone, and raises
    here). *)
Definition fromtimestamp (t : Z) : outcome string :=
  if (0 <=? t) && (t <? 253402214400) then Returns "date" else Raises ValueError.

(** Two files of one app at one version, the second dated past the year
    10000. *)
Definition file_dated (t : Z) : observation :=
  {| obs_filename := "App " +:+ (if t <? 1000 then "a" else "b") +:+ ".ipa";
     obs_info := Some {| bundleIdentifier := "com.x.app"; name := "App";
                         version := "1.0"; size := 1 |};
     obs_best_tweak := None; obs_timestamp := t; obs_source := "chan";
     obs_message := "App 1.0"; obs_ai_description := None |}.

(** A version of 4301 digits: a one and 4300 zeros. *)
Definition long_numeral : string :=
  String "1" (fold_right (λ _ s, String "0" s) EmptyString (seq 0 4300)).

Definition release_assets : odict Z :=
  [ ("Instagram v405.1.0 BHInsta v1.2.ipa", 1);
    ("Instagram v404.0.0 Theta v4.0.ipa", 2);
    ("Instagram v404.0.0 bhinsta v1.2.ipa", 3);
    ("apps.json", 4) ].

End Scenario.

(** * Properties *)

Import Scraper Scenario.

(** ** The version comparator *)

Section VersionFacts.

Import VersionSpec.

Lemma decimal_char_is_digit c : isdecimal_char c = true → isdigit_char c = true.
Proof. unfold isdigit_char. intros ->. reflexivity. Qed.

Lemma numeric_token_isdigit x : numeric_token x = true → isdigit x = true.
Proof.
  unfold numeric_token, isdigit.
  intros [Hne Hall]%andb_true_iff. rewrite Hne. simpl.
  clear Hne. induction x as [|c x IH]; simpl in *; [done|].
  apply andb_true_iff in Hall as [Hc Hx].
  rewrite (decimal_char_is_digit _ Hc), IH; done.
Qed.

(** [int] reads a decimal numeral positionally. *)
Lemma int_digits_decimal x acc :
  forallb_str isdecimal_char x = true →
  int_digits acc x = Returns (acc * 10 ^ Z.of_nat (String.length x) + decimal x).
Proof.
  revert acc. induction x as [|c x IH]; intros acc Hall; simpl in *.
  - f_equal. lia.
  - apply andb_true_iff in Hall as [Hc Hx]. rewrite Hc, (IH _ Hx). f_equal.
    rewrite Nat2Z.inj_succ, Z.pow_succ_r by lia. ring.
Qed.

Lemma int_numeric_token x :
  numeric_token x = true → too_long x = false → int x = Returns (decimal x).
Proof.
  unfold numeric_token, too_long. intros [Hne Hall]%andb_true_iff Hlen.
  destruct x as [|c x]; [done|]. unfold int, int_max_str_digits.
  rewrite Hlen, (int_digits_decimal _ 0 Hall). f_equal.
Qed.

Lemma int_digits_bad x acc :
  forallb_str isdecimal_char x = false → int_digits acc x = Raises ValueError.
Proof.
  revert acc. induction x as [|c x IH]; intros acc Hbad; simpl in *; [done|].
  destruct (isdecimal_char c); simpl in *; [by apply IH | done].
Qed.

Lemma int_bad_digits x : bad_digits x = true → int x = Raises ValueError.
Proof.
  unfold bad_digits, numeric_token, isdigit, too_long.
  intros [[Hne _]%andb_true_iff Hbad]%andb_true_iff.
  rewrite Hne in Hbad. cbn [andb] in Hbad.
  destruct x as [|c x]; [done|]. unfold int, int_max_str_digits.
  destruct (4300 <? N.of_nat (String.length (String c x)))%N; [done|].
  rewrite orb_false_r in Hbad. apply negb_true_iff in Hbad.
  by apply int_digits_bad.
Qed.

Lemma int_digits_raises x acc e : int_digits acc x = Raises e → e = ValueError.
Proof.
  revert acc. induction x as [|c x IH]; intros acc; simpl; [done|].
  destruct (isdecimal_char c); [apply IH | congruence].
Qed.

Lemma int_raises x e : int x = Raises e → e = ValueError.
Proof.
  unfold int. destruct x as [|c x]; [congruence|].
  destruct (_ <? _)%N; [congruence | apply int_digits_raises].
Qed.

(** The list comprehension of lines 1364-1365 keeps the decimal tokens,
    unless a token of other digits makes [int] raise. *)
Lemma int_tokens_decimal tokens :
  existsb bad_digits tokens = false →
  int_tokens tokens = Returns (map decimal (List.filter numeric_token tokens)).
Proof.
  induction tokens as [|x tokens IH]; simpl; [done|].
  intros [Hx Hrest]%orb_false_iff. specialize (IH Hrest).
  destruct (numeric_token x) eqn:Hnum.
  - unfold bad_digits in Hx.
    rewrite Hnum, (numeric_token_isdigit _ Hnum) in Hx. cbn [negb orb andb] in Hx.
    rewrite (numeric_token_isdigit _ Hnum), (int_numeric_token _ Hnum Hx). simpl.
    by rewrite IH.
  - unfold bad_digits in Hx. rewrite Hnum in Hx. cbn [negb orb] in Hx.
    rewrite andb_true_r in Hx. by rewrite Hx.
Qed.

Lemma int_tokens_bad tokens :
  existsb bad_digits tokens = true → int_tokens tokens = Raises ValueError.
Proof.
  induction tokens as [|x tokens IH]; simpl; [done|].
  destruct (bad_digits x) eqn:Hx; simpl.
  - intros _. pose proof Hx as Hd. unfold bad_digits in Hd.
    apply andb_true_iff in Hd as [-> _]. by rewrite (int_bad_digits _ Hx).
  - intros Hrest. rewrite (IH Hrest).
    destruct (isdigit x); [|done].
    destruct (int x) as [n|e] eqn:Hint; [done|]. by rewrite (int_raises _ _ Hint).
Qed.

(** When the parsing raises, and what it returns when it does not. *)
Lemma version_parts_spec v :
  version_parts v =
    if parse_raises v
    then Raises (match split v with [] => IndexError | _ => ValueError end)
    else Returns (first_word_tuple v).
Proof.
  unfold version_parts, parse_raises, first_word_tuple, first_word.
  destruct (split v) as [|w ws]; simpl; [done|].
  destruct (existsb bad_digits (split_on is_dot_or_dash w)) eqn:Hbad.
  - by apply int_tokens_bad.
  - by apply int_tokens_decimal.
Qed.

Lemma compare_versions_spec v1 v2 t1 t2 :
  compare_versions v1 v2 t1 t2 =
    Returns (if parse_raises v1 || parse_raises v2
             then compare_strings v1 v2 t1 t2
             else compare_parts (first_word_tuple v1) (first_word_tuple v2) t1 t2).
Proof.
  unfold compare_versions. rewrite !version_parts_spec.
  destruct (parse_raises v1); simpl; [done|].
  destruct (parse_raises v2); simpl; done.
Qed.

(** Python's list comparisons against the lexicographic order. *)
Lemma list_eq_lexicographic p q : list_eq p q = true ↔ lexicographic p q = Eq.
Proof.
  revert q. induction p as [|x p IH]; intros [|y q]; simpl; try done.
  destruct (Z.compare_spec x y) as [->|Hlt|Hgt].
  - rewrite Z.eqb_refl. simpl. apply IH.
  - assert ((x =? y) = false) as -> by lia. done.
  - assert ((x =? y) = false) as -> by lia. done.
Qed.

Lemma list_gt_lexicographic p q : list_gt p q = true ↔ lexicographic p q = Gt.
Proof.
  revert q. induction p as [|x p IH]; intros [|y q]; simpl; try done.
  destruct (Z.compare_spec x y) as [->|Hlt|Hgt].
  - rewrite Z.eqb_refl. apply IH.
  - assert ((x =? y) = false) as -> by lia. assert ((y <? x) = false) as -> by lia. done.
  - assert ((x =? y) = false) as -> by lia. assert ((y <? x) = true) as -> by lia. done.
Qed.

Lemma lexicographic_refl p : lexicographic p p = Eq.
Proof. induction p as [|x p IH]; simpl; [done|]. by rewrite Z.compare_refl. Qed.

Lemma lexicographic_antisym p q : lexicographic q p = CompOpp (lexicographic p q).
Proof.
  revert q. induction p as [|x p IH]; intros [|y q]; simpl; try done.
  rewrite (Z.compare_antisym x y).
  destruct (x ?= y); simpl; [apply IH | done | done].
Qed.

Lemma more_recent_spec t1 t2 :
  more_recent t1 t2 =
    match t1, t2 with
    | Some x, Some y => bool_decide (y < x)
    | _, _ => false
    end.
Proof.
  destruct t1 as [x|], t2 as [y|]; simpl; try done.
  destruct (Z.ltb_spec y x); [by rewrite bool_decide_eq_true_2
                             | rewrite bool_decide_eq_false_2; [done | lia]].
Qed.

(** Lines 1367-1378 compute the comparison of the specification. *)
Lemma compare_parts_spec p q t1 t2 :
  compare_parts p q t1 t2 =
    let n := Nat.max (length p) (length q) in
    match lexicographic (pad_right n p) (pad_right n q) with
    | Gt => true
    | Lt => false
    | Eq =>
        match t1, t2 with
        | Some x, Some y => bool_decide (y < x)
        | _, _ => false
        end
    end.
Proof.
  unfold compare_parts, pad_right. simpl.
  set (p' := p ++ _). set (q' := q ++ _).
  pose proof (list_eq_lexicographic p' q') as Heq.
  pose proof (list_gt_lexicographic p' q') as Hgt.
  destruct (lexicographic p' q') eqn:Hlex.
  - rewrite (proj2 Heq eq_refl). apply more_recent_spec.
  - destruct (list_eq p' q'); [by destruct Heq as [Heq _]; specialize (Heq eq_refl)|].
    destruct (list_gt p' q'); [by destruct Hgt as [Hgt _]; specialize (Hgt eq_refl)|done].
  - destruct (list_eq p' q'); [by destruct Heq as [Heq _]; specialize (Heq eq_refl)|].
    by rewrite (proj2 Hgt eq_refl).
Qed.

Lemma compare_parts_irrefl p : compare_parts p p None None = false.
Proof. rewrite compare_parts_spec. simpl. by rewrite lexicographic_refl. Qed.

Lemma compare_strings_irrefl v : compare_strings v v None None = false.
Proof. unfold compare_strings. by rewrite String.eqb_refl. Qed.

Lemma compare_versions_irrefl v : compare_versions v v None None = Returns false.
Proof.
  rewrite compare_versions_spec.
  destruct (parse_raises v); simpl;
    [by rewrite compare_strings_irrefl | by rewrite compare_parts_irrefl].
Qed.

(** Without timestamps the comparison is asymmetric. *)
Lemma compare_parts_asym p q :
  compare_parts p q None None = true → compare_parts q p None None = false.
Proof.
  rewrite !compare_parts_spec. simpl. rewrite (Nat.max_comm (length q)).
  set (n := Nat.max _ _).
  rewrite (lexicographic_antisym (pad_right n p) (pad_right n q)).
  by destruct (lexicographic (pad_right n p) (pad_right n q)).
Qed.

Lemma str_gt_asym v1 v2 : str_gt v1 v2 = true → str_gt v2 v1 = false.
Proof.
  unfold str_gt. rewrite (String.compare_antisym v1 v2).
  by destruct (String.compare v2 v1).
Qed.

Lemma compare_strings_asym v1 v2 :
  compare_strings v1 v2 None None = true → compare_strings v2 v1 None None = false.
Proof.
  unfold compare_strings. rewrite (String.eqb_sym v2 v1).
  destruct (String.eqb v1 v2); [done|]. apply str_gt_asym.
Qed.

Lemma compare_versions_asym v1 v2 :
  compare_versions v1 v2 None None = Returns true →
  compare_versions v2 v1 None None = Returns false.
Proof.
  rewrite !compare_versions_spec, (orb_comm (parse_raises v2)).
  destruct (parse_raises v1 || parse_raises v2); intros [= H]; f_equal;
    [by apply compare_strings_asym | by apply compare_parts_asym].
Qed.

Lemma compare_versions_returns v1 v2 t1 t2 :
  ∃ r, compare_versions v1 v2 t1 t2 = Returns r.
Proof. rewrite compare_versions_spec. eauto. Qed.

Lemma compare_versions_reference a b tA tB :
  parse_raises a = false → parse_raises b = false →
  compare_versions a b tA tB =
    Returns (is_newer (first_word a) (first_word b) tA tB).
Proof.
  intros Ha Hb. rewrite compare_versions_spec, Ha, Hb. simpl.
  by rewrite compare_parts_spec.
Qed.

Lemma numeric_token_parses v :
  has_numeric_token (first_word v) → digits_convert (first_word v) →
  parse_raises v = false.
Proof.
  unfold has_numeric_token, digits_convert, parse_raises, first_word.
  destruct (split v) as [|w ws]; simpl; [by intros [] | done].
Qed.

End VersionFacts.

(** C1, as stated, fails: on ["1.2 beta"] against ["1.1"], both with a
    numeric token, [compare_versions] reads only the first word ["1.2"] and
    answers true, while the reference definition applied to the whole
    strings compares (1, 0) with (1, 1) and answers false. *)
Lemma compare_versions_reads_first_word :
  VersionSpec.has_numeric_token "1.2 beta" ∧ VersionSpec.has_numeric_token "1.1" ∧
  compare_versions "1.2 beta" "1.1" None None = Returns true ∧
  VersionSpec.is_newer "1.2 beta" "1.1" None None = false.
Proof. repeat split; by vm_compute. Qed.

(** C1 (amended): for every pair of version strings whose first
    whitespace-delimited words each contain at least one numeric token and
    no token of digits that [int] refuses (a digit other than 0-9, or a
    numeral of more than 4300 digits), [compare_versions] returns the
    reference comparison of those first words: numeric tokens of the split
    on ['.'] and ['-'], zero-padded tuples compared lexicographically, ties
    broken by a strictly greater timestamp when both are given and false
    otherwise; and [compare_versions(a, a, tA, tB)] is true exactly when
    both timestamps are given and [tA] is strictly greater, so false
    whenever a timestamp is absent. *)
Theorem compare_versions_numeric (a b : string) (tA tB : option Z) :
  VersionSpec.has_numeric_token (VersionSpec.first_word a) →
  VersionSpec.has_numeric_token (VersionSpec.first_word b) →
  VersionSpec.digits_convert (VersionSpec.first_word a) →
  VersionSpec.digits_convert (VersionSpec.first_word b) →
  compare_versions a b tA tB =
    Returns (VersionSpec.is_newer (VersionSpec.first_word a)
               (VersionSpec.first_word b) tA tB)
  ∧ compare_versions a a tA tB =
      Returns (match tA, tB with
               | Some x, Some y => bool_decide (y < x)
               | _, _ => false
               end).
Proof.
  intros Ha Hb Da Db. split.
  - apply compare_versions_reference; by apply numeric_token_parses.
  - rewrite compare_versions_reference by (by apply numeric_token_parses).
    unfold VersionSpec.is_newer. cbn zeta. by rewrite lexicographic_refl.
Qed.

Lemma compare_versions_numeric_witness :
  compare_versions "2.21" "2.2" None None = Returns true
  ∧ compare_versions "2.21" "2.21" None None = Returns false.
Proof.
  refine (compare_versions_numeric "2.21" "2.2" None None _ _ _ _);
    by vm_compute.
Defined.

(** Past the limit of [int] the order is the one of the strings: a one
    followed by 4300 zeros, a numeral, is not newer than ["9"]. *)
Example compare_versions_long_numeral :
  String.length long_numeral = 4301%nat
  ∧ VersionSpec.numeric_token long_numeral = true
  ∧ VersionSpec.parse_raises long_numeral = true
  ∧ compare_versions long_numeral "9" None None = Returns false.
Proof. by vm_compute. Qed.

(** C2, as stated, fails: ["abd"] and ["abc"] yield no numeric token, yet
    nothing raises, so the handler is not reached: both parse to the empty
    tuple, the tuples are equal and the answer is false, where the string
    comparison ["abd" > "abc"] is true. *)
Lemma compare_versions_garbage_not_fallback :
  VersionSpec.numeric_tuple "abd" = [] ∧ VersionSpec.numeric_tuple "abc" = [] ∧
  compare_versions "abd" "abc" None None = Returns false ∧
  compare_strings "abd" "abc" None None = true.
Proof. by vm_compute. Qed.

(** C2 (amended): [compare_versions] is total, it returns for all strings
    and timestamps; it falls back to the string comparison [a > b], with
    the timestamp tie-break on equal strings, exactly when the parsing
    raises, that is when a version has no word at all (empty or blank) or
    its first word has a token of digits that [int] refuses (a digit other
    than 0-9, or a numeral of more than 4300 digits); every other input,
    garbage without numeric token included, is compared as numeric
    tuples. *)
Theorem compare_versions_total (a b : string) (tA tB : option Z) :
  compare_versions a b tA tB =
    Returns (if VersionSpec.parse_raises a || VersionSpec.parse_raises b
             then compare_strings a b tA tB
             else VersionSpec.is_newer (VersionSpec.first_word a)
                    (VersionSpec.first_word b) tA tB)
  ∧ (∀ v, VersionSpec.parse_raises v = true ↔ ∃ e, version_parts v = Raises e)
  ∧ (∀ x, isdigit x = true →
          (∃ e, Py.int x = Raises e)
          ↔ VersionSpec.numeric_token x = false
            ∨ (4300 < String.length x)%nat).
Proof.
  split_and!.
  - rewrite compare_versions_spec.
    destruct (VersionSpec.parse_raises a || VersionSpec.parse_raises b); [done|].
    by rewrite compare_parts_spec.
  - intros v. rewrite version_parts_spec.
    destruct (VersionSpec.parse_raises v); split; eauto; [done | by intros [e [=]]].
  - intros x Hdigit.
    assert (VersionSpec.too_long x = true ↔ (4300 < String.length x)%nat) as Hlong.
    { unfold VersionSpec.too_long. rewrite N.ltb_lt. lia. }
    destruct (VersionSpec.bad_digits x) eqn:Hbad.
    + rewrite (int_bad_digits x Hbad). split; [intros _ | eauto].
      unfold VersionSpec.bad_digits in Hbad. rewrite Hdigit in Hbad. simpl in Hbad.
      apply orb_true_iff in Hbad as [Hn%negb_true_iff | Hl]; [by left|].
      right. by apply Hlong.
    + unfold VersionSpec.bad_digits in Hbad. rewrite Hdigit in Hbad. simpl in Hbad.
      apply orb_false_iff in Hbad as [Hn%negb_false_iff Hl].
      rewrite (int_numeric_token x Hn Hl). split; [by intros [e [=]]|].
      intros [Hn' | Hl']; [congruence|]. apply Hlong in Hl'. congruence.
Qed.

(** ** Insertion-ordered dictionaries *)

Section OdictFacts.

Context {V : Type}.
Implicit Types (d : odict V) (k : string) (v : V).

Lemma get_None_keys k d : get k d = None ↔ k ∉ keys d.
Proof.
  induction d as [|[k' v'] d IH]; simpl.
  - split; [intros _; apply not_elem_of_nil | done].
  - rewrite not_elem_of_cons. destruct (String.eqb_spec k k') as [->|Hne].
    + split; [done | by intros [[] _]].
    + rewrite IH. tauto.
Qed.

Lemma get_Some_keys k d v : get k d = Some v → k ∈ keys d.
Proof.
  intros Hget. destruct (decide (k ∈ keys d)) as [|Hn]; [done|].
  apply get_None_keys in Hn. congruence.
Qed.

Lemma get_set_eq k v d : get k (set k v d) = Some v.
Proof.
  induction d as [|[k' v'] d IH]; simpl.
  - by rewrite String.eqb_refl.
  - destruct (String.eqb_spec k k') as [->|Hne]; simpl.
    + by rewrite String.eqb_refl.
    + by destruct (String.eqb_spec k k').
Qed.

Lemma get_set_ne k k' v d : k' ≠ k → get k' (set k v d) = get k' d.
Proof.
  intros Hne. induction d as [|[k0 v0] d IH]; simpl.
  - by destruct (String.eqb_spec k' k).
  - destruct (String.eqb_spec k k0) as [->|Hk]; simpl.
    + by destruct (String.eqb_spec k' k0).
    + by rewrite IH.
Qed.

(** Assigning to a key that is there keeps every key at its place. *)
Lemma keys_set_present k v d : k ∈ keys d → keys (set k v d) = keys d.
Proof.
  induction d as [|[k' v'] d IH]; simpl; [by intros ?%elem_of_nil|].
  destruct (String.eqb_spec k k') as [->|Hne]; simpl; [done|].
  intros [?|Hin]%elem_of_cons; [done|]. by rewrite IH.
Qed.

(** Assigning to a new key appends it. *)
Lemma set_absent k v d : get k d = None → set k v d = d ++ [(k, v)].
Proof.
  induction d as [|[k' v'] d IH]; simpl; [done|].
  destruct (String.eqb_spec k k') as [->|Hne]; [done|].
  intros Hget. by rewrite IH.
Qed.

Lemma get_elem' k v d : get k d = Some v → (k, v) ∈ d.
Proof.
  induction d as [|[k' v'] d IH]; simpl; [done|].
  destruct (String.eqb_spec k k') as [->|Hne].
  - intros [= ->]. by left.
  - intros Hget. right. by apply IH.
Qed.

Lemma keys_app d1 d2 : keys (d1 ++ d2) = keys d1 ++ keys d2.
Proof. apply map_app. Qed.

Lemma NoDup_keys_set k v d : NoDup (keys d) → NoDup (keys (set k v d)).
Proof.
  intros Hnd. destruct (get k d) as [v0|] eqn:Hget.
  - rewrite keys_set_present; [done | by eapply get_Some_keys].
  - rewrite (set_absent _ _ _ Hget), keys_app. simpl.
    apply NoDup_app. split_and!; [done | | apply NoDup_singleton].
    intros x Hx ->%list_elem_of_singleton. by apply get_None_keys in Hget.
Qed.

End OdictFacts.

(** ** Pass 1 *)

Section Pass1Facts.

Variable fromtimestamp : Z → outcome string.

Lemma unique_app_key_tweak bundle_id t :
  t ≠ "" → unique_app_key bundle_id (Some t) = bundle_id +:+ ":" +:+ t.
Proof. destruct t; [done|]. reflexivity. Qed.

Lemma unique_app_key_inj bundle_id t1 t2 :
  t1 ≠ "" → t2 ≠ "" → t1 ≠ t2 →
  unique_app_key bundle_id (Some t1) ≠ unique_app_key bundle_id (Some t2).
Proof.
  intros H1 H2 Hne. rewrite !unique_app_key_tweak by done.
  intros Heq. apply Hne.
  apply (inj (String.app bundle_id)) in Heq.
  by apply (inj (String.app ":")) in Heq.
Qed.

Lemma final_name_correction_version info :
  version (final_name_correction info) = version info.
Proof.
  unfold final_name_correction.
  by repeat (match goal with |- context [if ?b then _ else _] => destruct b end).
Qed.

(** The entry the code writes is the candidate of the specification. *)
Lemma new_entry_candidate o info old :
  new_entry o (final_name_correction info) old = Pass1Spec.candidate o info old.
Proof.
  unfold new_entry, Pass1Spec.candidate. by rewrite final_name_correction_version.
Qed.

Lemma log_dates_returns t1 t2 :
  (∃ d, fromtimestamp t1 = Returns d) → (∃ d, fromtimestamp t2 = Returns d) →
  log_dates fromtimestamp t1 t2 = Returns tt.
Proof. intros [d1 H1] [d2 H2]. unfold log_dates. by rewrite H1, H2. Qed.

(** What one iteration of Pass 1 has done when it returns. *)
Lemma pass1_step_cases apps downloads o st' :
  pass1_step fromtimestamp (apps, downloads) o = Returns st' →
  match obs_info o with
  | None => st' = (apps, downloads)
  | Some info =>
      let key := unique_app_key (bundleIdentifier info) (obs_best_tweak o) in
      match get key apps with
      | None => st' = (set key (Pass1Spec.candidate o info None) apps, downloads)
      | Some resident =>
          ∃ newer : bool,
            compare_versions (version info) (s_version resident)
              (Some (obs_timestamp o)) (Some (s_timestamp resident)) = Returns newer
            ∧ st' = if newer
                    then (set key (Pass1Spec.candidate o info
                                     (Some (s_filename resident))) apps,
                          downloads ∖ {[s_filename resident]})
                    else (apps, downloads)
      end
  end.
Proof.
  unfold pass1_step. destruct (obs_info o) as [info|]; [|by intros [= <-]].
  cbn zeta. set (key := unique_app_key _ _).
  destruct (get key apps) as [resident|].
  - destruct (compare_versions _ _ _ _) as [newer|]; [|done]. cbn [bind].
    intros Hstep. exists newer. split; [done|].
    destruct newer;
      match type of Hstep with
      | bind ?m _ = _ => destruct m as [[]|]; [|done]
      end; cbn [bind] in Hstep; injection Hstep as <-;
      by rewrite ?new_entry_candidate.
  - intros [= <-]. by rewrite new_entry_candidate.
Qed.

(** It returns when the two dates of its log lines can be formatted. *)
Lemma pass1_step_dated apps downloads o :
  (∀ k e, get k apps = Some e → ∃ d, fromtimestamp (s_timestamp e) = Returns d) →
  (∃ d, fromtimestamp (obs_timestamp o) = Returns d) →
  ∃ st', pass1_step fromtimestamp (apps, downloads) o = Returns st'.
Proof.
  intros Hres Ho. unfold pass1_step. destruct (obs_info o) as [info|]; [|eauto].
  cbn zeta. set (key := unique_app_key _ _).
  destruct (get key apps) as [resident|] eqn:Hget; [|eauto].
  edestruct compare_versions_returns as [newer ->]. cbn [bind].
  rewrite (log_dates_returns (obs_timestamp o) (s_timestamp resident))
    by eauto.
  destruct newer; repeat (match goal with |- context [if ?b then _ else _] =>
                                            destruct b end); cbn [bind]; eauto.
Qed.

(** It raises what the formatting of a date raises. *)
Lemma pass1_step_raises apps downloads o info resident e :
  obs_info o = Some info →
  get (unique_app_key (bundleIdentifier info) (obs_best_tweak o)) apps
    = Some resident →
  version info = s_version resident →
  fromtimestamp (obs_timestamp o) = Raises e →
  pass1_step fromtimestamp (apps, downloads) o = Raises e.
Proof.
  intros Hinfo Hget Hv Hraise. unfold pass1_step. rewrite Hinfo. cbn zeta.
  rewrite Hget. edestruct compare_versions_returns as [newer Hcmp].
  rewrite Hcmp. cbn [bind].
  assert (log_dates fromtimestamp (obs_timestamp o) (s_timestamp resident)
          = Raises e) as Hlog by (unfold log_dates; by rewrite Hraise).
  rewrite Hv, String.eqb_refl, Hlog. cbn [andb].
  destruct newer; cbn [bind]; [|done].
  rewrite compare_versions_spec in Hcmp. injection Hcmp as Hcmp.
  rewrite Hv, orb_diag in Hcmp.
  assert ((s_timestamp resident <? obs_timestamp o) = true) as ->; [|done].
  destruct (VersionSpec.parse_raises (s_version resident)).
  - unfold compare_strings in Hcmp. by rewrite String.eqb_refl in Hcmp.
  - rewrite compare_parts_spec in Hcmp. cbn zeta in Hcmp.
    rewrite lexicographic_refl in Hcmp.
    apply bool_decide_eq_true in Hcmp. by apply Z.ltb_lt.
Qed.

(** Assignment to a key that is there, as the replacement of its entry. *)
Lemma set_replace key e (apps : odict scanned) :
  NoDup (keys apps) → key ∈ keys apps →
  set key e apps = Pass1Spec.replace key e apps.
Proof.
  unfold Pass1Spec.replace.
  induction apps as [|[k v] apps IH]; simpl; [by intros _ ?%elem_of_nil|].
  intros [Hk Hnd]%NoDup_cons Hin.
  destruct (String.eqb_spec key k) as [->|Hne].
  - rewrite String.eqb_refl. f_equal.
    clear IH Hin Hnd. induction apps as [|[k' v'] apps IH]; simpl; [done|].
    simpl in Hk. apply not_elem_of_cons in Hk as [Hne Hk].
    destruct (String.eqb_spec k' k) as [->|_]; [done|]. f_equal. by apply IH.
  - destruct (String.eqb_spec k key) as [->|_]; [done|]. f_equal.
    apply IH; [done|]. by apply elem_of_cons in Hin as [->|Hin].
Qed.

(** One iteration, when it returns, takes the step of the specification. *)
Lemma pass1_step_refines st o st' :
  NoDup (keys st.1) →
  pass1_step fromtimestamp st o = Returns st' → st' = Pass1Spec.supersede st o.
Proof.
  destruct st as [apps downloads]. cbn [fst]. intros Hnd Hstep%pass1_step_cases.
  unfold Pass1Spec.supersede. cbn [fst snd].
  destruct (obs_info o) as [info|]; [|done]. cbn zeta in *.
  set (key := unique_app_key _ _) in *.
  destruct (get key apps) as [resident|] eqn:Hget.
  - destruct Hstep as (newer & Hcmp & ->). unfold Pass1Spec.newer. rewrite Hcmp.
    destruct newer; [|done]. f_equal.
    apply set_replace; [done | by eapply get_Some_keys].
  - rewrite Hstep. f_equal. by apply set_absent.
Qed.

Lemma keys_replace key e apps : keys (Pass1Spec.replace key e apps) = keys apps.
Proof.
  unfold Pass1Spec.replace, keys. rewrite map_map. apply map_ext.
  intros [k v]. simpl. by destruct (String.eqb k key).
Qed.

Lemma elem_of_replace key e apps (kv : string * scanned) :
  kv ∈ Pass1Spec.replace key e apps → kv.2 = e ∨ kv ∈ apps.
Proof.
  unfold Pass1Spec.replace. intros ([k v] & -> & Hin)%list_elem_of_fmap. simpl.
  destruct (String.eqb k key); [by left | by right].
Qed.

Lemma get_replace key e apps :
  key ∈ keys apps → get key (Pass1Spec.replace key e apps) = Some e.
Proof.
  unfold Pass1Spec.replace.
  induction apps as [|[k v] apps IH]; simpl; [by intros ?%elem_of_nil|].
  intros Hin. destruct (String.eqb_spec k key) as [->|Hne]; simpl.
  - by rewrite String.eqb_refl.
  - destruct (String.eqb_spec key k) as [->|_]; [done|].
    apply IH. by apply elem_of_cons in Hin as [->|Hin].
Qed.

(** The step of the specification keeps one entry per key, drops no key,
    and leaves the file it handled under its key. *)
Lemma supersede_keys st o :
  NoDup (keys st.1) →
  NoDup (keys (Pass1Spec.supersede st o).1)
  ∧ (∀ k, k ∈ keys st.1 → k ∈ keys (Pass1Spec.supersede st o).1)
  ∧ (∀ info, obs_info o = Some info →
       unique_app_key (bundleIdentifier info) (obs_best_tweak o)
         ∈ keys (Pass1Spec.supersede st o).1)
  ∧ (∀ kv, kv ∈ (Pass1Spec.supersede st o).1 →
       kv ∈ st.1 ∨ s_timestamp kv.2 = obs_timestamp o).
Proof.
  destruct st as [apps downloads]. cbn [fst]. intros Hnd.
  unfold Pass1Spec.supersede. cbn [fst snd].
  destruct (obs_info o) as [info|]; [|split_and!; [done | done | done | by left]].
  cbn zeta. set (key := unique_app_key _ _).
  destruct (get key apps) as [resident|] eqn:Hget.
  - pose proof (get_Some_keys _ _ _ Hget) as Hin.
    destruct (Pass1Spec.newer o info resident); cbn [fst].
    + rewrite keys_replace. split_and!; [done | done | by intros ? [= <-] |].
      intros kv [->|?]%elem_of_replace; [by right | by left].
    + split_and!; [done | done | by intros ? [= <-] | by left].
  - cbn [fst]. rewrite keys_app. simpl. split_and!.
    + apply NoDup_app. split_and!; [done | | apply NoDup_singleton].
      intros x Hx ->%list_elem_of_singleton. by apply get_None_keys in Hget.
    + intros k Hk. apply elem_of_app. by left.
    + intros ? [= <-]. apply elem_of_app. right. by apply list_elem_of_singleton.
    + intros kv [?| ->%list_elem_of_singleton]%elem_of_app; [by left | by right].
Qed.

Lemma run_keys observations : ∀ st,
  NoDup (keys st.1) →
  NoDup (keys (Pass1Spec.run st observations).1)
  ∧ (∀ k, k ∈ keys st.1 → k ∈ keys (Pass1Spec.run st observations).1)
  ∧ (∀ o info, o ∈ observations → obs_info o = Some info →
       unique_app_key (bundleIdentifier info) (obs_best_tweak o)
         ∈ keys (Pass1Spec.run st observations).1).
Proof.
  induction observations as [|o rest IH]; intros st Hnd; simpl.
  - split_and!; [done | done | by intros ?? ?%elem_of_nil].
  - destruct (supersede_keys st o Hnd) as (Hnd1 & Hkeep1 & Hkey1 & _).
    destruct (IH _ Hnd1) as (Hnd' & Hkeep' & Hkey').
    split_and!; [done | by auto |].
    intros o' info [->|Hin]%elem_of_cons Hinfo; [|by eapply Hkey'].
    apply Hkeep'. by apply Hkey1.
Qed.

(** The whole of Pass 1, when it returns, has run the specification. *)
Lemma pass1_refines observations : ∀ st st',
  NoDup (keys st.1) →
  pass1 fromtimestamp st observations = Returns st' →
  st' = Pass1Spec.run st observations.
Proof.
  induction observations as [|o rest IH]; intros st st' Hnd; simpl.
  - by intros [= <-].
  - destruct (pass1_step fromtimestamp st o) as [st1|] eqn:Hstep; [|done].
    cbn [bind]. intros Hrest.
    apply pass1_step_refines in Hstep as ->; [|done].
    apply IH; [|done]. by apply supersede_keys.
Qed.

(** And it returns when the dates of the files can be formatted. *)
Lemma pass1_dated observations : ∀ st,
  NoDup (keys st.1) →
  (∀ kv, kv ∈ st.1 → ∃ d, fromtimestamp (s_timestamp kv.2) = Returns d) →
  (∀ o, o ∈ observations → ∃ d, fromtimestamp (obs_timestamp o) = Returns d) →
  pass1 fromtimestamp st observations = Returns (Pass1Spec.run st observations).
Proof.
  induction observations as [|o rest IH]; intros st Hnd Hst Hobs; simpl; [done|].
  destruct st as [apps downloads].
  destruct (pass1_step_dated apps downloads o) as [st1 Hstep].
  { intros k e Hget. apply (Hst (k, e)). by apply get_elem'. }
  { apply Hobs. by left. }
  rewrite Hstep. cbn [bind].
  pose proof (pass1_step_refines _ _ _ Hnd Hstep) as ->.
  destruct (supersede_keys (apps, downloads) o Hnd) as (Hnd1 & _ & _ & Hts).
  apply IH; [done | |].
  - intros kv [Hin| ->]%Hts; [by apply Hst|]. apply Hobs. by left.
  - intros o' Ho'. apply Hobs. by right.
Qed.

End Pass1Facts.

(** C3, as stated, fails where a date cannot be formatted: a second file
    of the same key and version, dated past the year 10000, is newer by
    its timestamp, yet it does not replace the resident: the log line
    that announces the replacement formats its date, the formatting
    raises, and Pass 1 ends there with the exception. *)
Lemma pass1_date_out_of_range :
  unique_app_key "com.x.app" None = "com.x.app"
  ∧ compare_versions "1.0" "1.0" (Some 400000000000) (Some 100) = Returns true
  ∧ fromtimestamp 400000000000 = Raises ValueError
  ∧ pass1 fromtimestamp ([], ∅) [file_dated 100; file_dated 400000000000]
    = Raises ValueError.
Proof. by vm_compute. Qed.

(** C3 (amended): Pass 1, whenever it returns, has taken for each file
    in turn the step of the specification: a file whose key is not in the
    running map is inserted; a file whose key is there replaces the
    resident exactly when [compare_versions] (candidate against resident,
    with both timestamps) says it is newer, and then the resident's file
    is removed from the download directory and its name is kept as
    [old_filename] of the new entry; otherwise the candidate is discarded
    and nothing changes. It returns whenever the timestamps of the files
    are ones [datetime.fromtimestamp] formats; and then the map has one
    entry per key, with every key it had and the key of every file. *)
Theorem pass1_supersedes (fromtimestamp : Z → outcome string)
    (st : pass1_state) (observations : list observation) :
  NoDup (keys st.1) →
  (∀ st', pass1 fromtimestamp st observations = Returns st' →
          st' = Pass1Spec.run st observations)
  ∧ ((∀ kv, kv ∈ st.1 → ∃ d, fromtimestamp (s_timestamp kv.2) = Returns d) →
     (∀ o, o ∈ observations → ∃ d, fromtimestamp (obs_timestamp o) = Returns d) →
     pass1 fromtimestamp st observations = Returns (Pass1Spec.run st observations))
  ∧ NoDup (keys (Pass1Spec.run st observations).1)
  ∧ (∀ k, k ∈ keys st.1 → k ∈ keys (Pass1Spec.run st observations).1)
  ∧ (∀ o info, o ∈ observations → obs_info o = Some info →
       unique_app_key (bundleIdentifier info) (obs_best_tweak o)
         ∈ keys (Pass1Spec.run st observations).1).
Proof.
  intros Hnd. destruct (run_keys observations st Hnd) as (? & ? & ?).
  split_and!; try done.
  - intros st'. by apply pass1_refines.
  - by apply pass1_dated.
Qed.

(** The scenario of the specification, in both orders: one entry, at
    version 405.1.0; the file of 404.0.0 is deleted, and remembered, when
    it came first and was replaced. *)
Example pass1_404_then_405 :
  Pass1Spec.run ([], both_files) [file_404; file_405]
  = ([("com.x.app",
       {| s_info := {| bundleIdentifier := "com.x.app"; name := "App";
                       version := "405.1.0"; size := 1 |};
          s_filename := "App v405.1.0.ipa"; s_version := "405.1.0";
          s_source := "chan"; s_message := "App 405.1.0"; s_tweak := None;
          s_timestamp := 90; s_ai_description := None;
          s_old_filename := Some "App v404.0.0.ipa" |})],
     both_files ∖ {["App v404.0.0.ipa"]}).
Proof. reflexivity. Qed.

Example pass1_405_then_404 :
  Pass1Spec.run ([], both_files) [file_405; file_404]
  = ([("com.x.app",
       {| s_info := {| bundleIdentifier := "com.x.app"; name := "App";
                       version := "405.1.0"; size := 1 |};
          s_filename := "App v405.1.0.ipa"; s_version := "405.1.0";
          s_source := "chan"; s_message := "App 405.1.0"; s_tweak := None;
          s_timestamp := 90; s_ai_description := None;
          s_old_filename := None |})],
     both_files).
Proof. reflexivity. Qed.

Lemma pass1_supersedes_witness :
  pass1 fromtimestamp ([], both_files) [file_404; file_405]
    = Returns (Pass1Spec.run ([], both_files) [file_404; file_405])
  ∧ pass1 fromtimestamp ([], both_files) [file_405; file_404]
    = Returns (Pass1Spec.run ([], both_files) [file_405; file_404]).
Proof.
  split.
  - apply (pass1_supersedes fromtimestamp ([], both_files) [file_404; file_405]).
    + apply NoDup_nil_2.
    + intros kv []%elem_of_nil.
    + intros o [->|[->|[]%elem_of_nil]%elem_of_cons]%elem_of_cons;
        eexists; reflexivity.
  - apply (pass1_supersedes fromtimestamp ([], both_files) [file_405; file_404]).
    + apply NoDup_nil_2.
    + intros kv []%elem_of_nil.
    + intros o [->|[->|[]%elem_of_nil]%elem_of_cons]%elem_of_cons;
        eexists; reflexivity.
Defined.

(** C7, as stated, fails: the key of the tweak [BHInsta] keeps the letter
    case of the tweak, it is not ["com.x.app:bhinsta"]. *)
Lemma unique_app_key_keeps_case :
  unique_app_key "com.x.app" (Some "BHInsta") = "com.x.app:BHInsta" ∧
  unique_app_key "com.x.app" (Some "BHInsta") ≠ "com.x.app:bhinsta" ∧
  unique_app_key "com.x.app" (Some "Theta") ≠ "com.x.app:theta".
Proof. by vm_compute. Qed.

(** C7 (amended): two files with the same bundle identifier and two
    distinct non-empty tweaks have two distinct keys, the bundle
    identifier, a colon and the tweak as it was extracted (letter case
    kept), and the key of a file without tweak is the bare bundle
    identifier; Pass 1 over the two files returns a map of two entries,
    one under each key, each the entry of its file, no file deleted and
    no [old_filename] kept: neither supersedes the other. In any running
    map, handling the one file never touches the entry of the other. *)
Theorem distinct_tweaks_distinct_entries (fromtimestamp : Z → outcome string)
    (bundle_id t1 t2 : string) (o1 o2 : observation) (info1 info2 : ipa_info)
    (downloads : gset string) :
  t1 ≠ "" → t2 ≠ "" → t1 ≠ t2 →
  obs_info o1 = Some info1 → bundleIdentifier info1 = bundle_id →
  obs_best_tweak o1 = Some t1 →
  obs_info o2 = Some info2 → bundleIdentifier info2 = bundle_id →
  obs_best_tweak o2 = Some t2 →
  unique_app_key bundle_id (Some t1) = bundle_id +:+ ":" +:+ t1 ∧
  unique_app_key bundle_id (Some t2) = bundle_id +:+ ":" +:+ t2 ∧
  unique_app_key bundle_id (Some t1) ≠ unique_app_key bundle_id (Some t2) ∧
  unique_app_key bundle_id None = bundle_id ∧
  pass1 fromtimestamp ([], downloads) [o1; o2]
    = Returns ([(bundle_id +:+ ":" +:+ t1, Pass1Spec.candidate o1 info1 None);
                (bundle_id +:+ ":" +:+ t2, Pass1Spec.candidate o2 info2 None)],
               downloads) ∧
  ∀ st st', pass1_step fromtimestamp st o2 = Returns st' →
    get (unique_app_key bundle_id (Some t1)) st'.1
      = get (unique_app_key bundle_id (Some t1)) st.1 ∧
    is_Some (get (unique_app_key bundle_id (Some t2)) st'.1).
Proof.
  intros H1 H2 Hne Hinfo1 Hb1 Ht1 Hinfo2 Hb2 Ht2.
  pose proof (unique_app_key_inj bundle_id t1 t2 H1 H2 Hne) as Hkeys.
  split; [by apply unique_app_key_tweak|].
  split; [by apply unique_app_key_tweak|].
  split; [done|]. split; [done|]. split.
  - rewrite <- !unique_app_key_tweak by done.
    simpl. unfold pass1_step at 1. rewrite Hinfo1, Hb1, Ht1. cbn [get bind set].
    unfold pass1_step. rewrite Hinfo2, Hb2, Ht2. cbn [get].
    destruct (String.eqb_spec (unique_app_key bundle_id (Some t2))
                (unique_app_key bundle_id (Some t1))) as [Heq|_]; [by rewrite Heq in Hkeys|].
    cbn [bind set].
    destruct (String.eqb_spec (unique_app_key bundle_id (Some t2))
                (unique_app_key bundle_id (Some t1))) as [Heq|_]; [by rewrite Heq in Hkeys|].
    by rewrite !new_entry_candidate.
  - intros [apps dl] st' Hstep%pass1_step_cases. rewrite Hinfo2, Hb2, Ht2 in Hstep.
    cbn zeta in Hstep. cbn [fst].
    destruct (get (unique_app_key bundle_id (Some t2)) apps) as [resident|] eqn:Hget.
    + destruct Hstep as (newer & _ & ->). destruct newer; cbn [fst].
      * rewrite get_set_eq, get_set_ne by done. eauto.
      * rewrite Hget. eauto.
    + rewrite Hstep. cbn [fst]. rewrite get_set_eq, get_set_ne by done. eauto.
Qed.

Example pass1_two_tweaks :
  ∃ st, pass1 fromtimestamp ([], ∅) [file_bhinsta; file_theta] = Returns st ∧
        keys st.1 = ["com.x.app:BHInsta"; "com.x.app:Theta"].
Proof. eexists. split; reflexivity. Qed.

Lemma distinct_tweaks_distinct_entries_witness :
  unique_app_key "com.x.app" (Some "BHInsta") ≠ unique_app_key "com.x.app" (Some "Theta")
  ∧ pass1 fromtimestamp ([], ∅) [file_bhinsta; file_theta]
    = Returns ([("com.x.app" +:+ ":" +:+ "BHInsta",
                 Pass1Spec.candidate file_bhinsta
                   {| bundleIdentifier := "com.x.app"; name := "Instagram";
                      version := "1.2"; size := 1 |} None);
                ("com.x.app" +:+ ":" +:+ "Theta",
                 Pass1Spec.candidate file_theta
                   {| bundleIdentifier := "com.x.app"; name := "Instagram";
                      version := "1.2"; size := 1 |} None)], ∅).
Proof.
  destruct (distinct_tweaks_distinct_entries fromtimestamp "com.x.app" "BHInsta"
              "Theta" file_bhinsta file_theta
              {| bundleIdentifier := "com.x.app"; name := "Instagram";
                 version := "1.2"; size := 1 |}
              {| bundleIdentifier := "com.x.app"; name := "Instagram";
                 version := "1.2"; size := 1 |} ∅)
    as (_ & _ & Hkeys & _ & Hrun & _); try done.
Defined.

(** ** Pass 2 *)

Section Pass2Facts.

Lemma pass2_step_absent apps a :
  get (existing_key a) apps = None →
  pass2_step apps a = Returns (apps ++ [carried a]).
Proof.
  intros Hget. unfold pass2_step. fold (existing_key a). rewrite Hget.
  by rewrite (set_absent _ _ _ Hget).
Qed.

(** Existing apps with keys of their own are appended in catalog order. *)
Lemma pass2_fresh catalog apps :
  NoDup (map existing_key catalog) →
  (∀ a, a ∈ catalog → get (existing_key a) apps = None) →
  pass2 apps catalog = Returns (apps ++ map carried catalog).
Proof.
  revert apps. induction catalog as [|a catalog IH]; intros apps Hnd Hfresh; simpl.
  - by rewrite app_nil_r.
  - apply NoDup_cons in Hnd as [Hnotin Hnd].
    rewrite pass2_step_absent by (apply Hfresh; left). simpl.
    rewrite IH; [by rewrite <- app_assoc | done |].
    intros b Hb. apply get_None_keys. rewrite keys_app. simpl.
    rewrite elem_of_app, list_elem_of_singleton. intros [Hin | Heq].
    + revert Hin. apply get_None_keys, Hfresh. by right.
    + apply Hnotin. rewrite <- Heq. by apply list_elem_of_fmap_2.
Qed.

End Pass2Facts.

(** C4, as stated, fails on a tie: an existing entry at version 1.0 meets
    a Pass-1 entry of the same key at version 1.0.0; neither is newer than
    the other, and the map keeps the new observation, not the existing
    entry. *)
Lemma pass2_tie_keeps_new :
  let a := {| app_name := "App"; app_bundleIdentifier := "com.x.app";
              app_developerName := "@chan"; app_iconURL := "";
              app_localizedDescription := "App"; app_version := "1.0";
              app_versionDate := "2025-01-01T00:00:00Z"; app_size := 1;
              app_downloadURL := "https://example.com/o/r/releases/download/latest/App.ipa" |} in
  let new := Scanned (new_entry
               {| obs_filename := "App v1.0.0.ipa"; obs_info := None;
                  obs_best_tweak := None; obs_timestamp := 100;
                  obs_source := "chan"; obs_message := ""; obs_ai_description := None |}
               {| bundleIdentifier := "com.x.app"; name := "App";
                  version := "1.0.0"; size := 1 |} None) in
  compare_versions "1.0" "1.0.0" None None = Returns false ∧
  compare_versions "1.0.0" "1.0" None None = Returns false ∧
  pass2_step [("com.x.app", new)] a = Returns [("com.x.app", new)].
Proof. by vm_compute. Qed.

(** C4 (amended): when the key of an existing catalog entry is also in the
    Pass-1 map, the existing entry takes the place of the resident exactly
    when [compare_versions] (existing against resident, no timestamps) says
    it is newer; when the resident is newer, and also on a tie, the
    resident, that is the new observation, is kept and the map does not
    change. No other key is touched. *)
Theorem pass2_step_conflict (apps : odict entry) (a : app) (resident : entry) :
  get (existing_key a) apps = Some resident →
  ∃ (older : bool) (apps' : odict entry),
    compare_versions (app_version a) (entry_version resident) None None
      = Returns older ∧
    pass2_step apps a = Returns apps' ∧
    keys apps' = keys apps ∧
    (∀ k, k ≠ existing_key a → get k apps' = get k apps) ∧
    get (existing_key a) apps' = Some (if older then (carried a).2 else resident) ∧
    (older = false → apps' = apps) ∧
    (compare_versions (entry_version resident) (app_version a) None None
       = Returns true → older = false).
Proof.
  intros Hget.
  destruct (compare_versions_returns (app_version a) (entry_version resident)
              None None) as [older Hcmp].
  unfold pass2_step. fold (existing_key a). rewrite Hget, Hcmp. cbn [bind].
  exists older. destruct older; eexists; (split; [done|]); (split; [done|]).
  - split; [apply keys_set_present; by eapply get_Some_keys|].
    split; [intros k Hk; by apply get_set_ne|].
    split; [apply get_set_eq|]. split; [done|].
    intros Hrev. apply compare_versions_asym in Hrev. congruence.
  - by repeat split.
Qed.

Lemma pass2_step_conflict_witness :
  let a := {| app_name := "App"; app_bundleIdentifier := "com.x.app";
              app_developerName := "@chan"; app_iconURL := "";
              app_localizedDescription := "App"; app_version := "2.0";
              app_versionDate := "2025-01-01T00:00:00Z"; app_size := 1;
              app_downloadURL := "https://example.com/o/r/releases/download/latest/App.ipa" |} in
  let new := Scanned (new_entry
               {| obs_filename := "App v1.0.0.ipa"; obs_info := None;
                  obs_best_tweak := None; obs_timestamp := 100;
                  obs_source := "chan"; obs_message := ""; obs_ai_description := None |}
               {| bundleIdentifier := "com.x.app"; name := "App";
                  version := "1.0.0"; size := 1 |} None) in
  ∃ apps', pass2_step [("com.x.app", new)] a = Returns apps' ∧
           get "com.x.app" apps' = Some (Existing a "2.0" None).
Proof.
  intros a new.
  destruct (pass2_step_conflict [("com.x.app", new)] a new eq_refl)
    as (older & apps' & Hcmp & Hstep & _ & _ & Hget & _).
  exists apps'. split; [exact Hstep|].
  injection Hcmp as <-. exact Hget.
Defined.

(** ** Republish *)

Section RepublishFacts.

Variable unquote : string → string.
Variable publish_scanned : string → scanned → option app.
Variable current_release_assets : gset string.

Local Abbreviation republish :=
  (republish unquote publish_scanned current_release_assets).
Local Abbreviation republish_entry :=
  (republish_entry unquote publish_scanned current_release_assets).

Lemma republish_acc final_apps items :
  republish final_apps items = final_apps ++ republish [] items.
Proof.
  revert final_apps. induction items as [|[k data] items IH]; intros acc; simpl.
  - by rewrite app_nil_r.
  - rewrite IH, (IH (republish_entry k data)). by rewrite app_assoc.
Qed.


(** A catalog carried forward whole survives when every binary is there. *)
Lemma republish_carried catalog :
  (∀ a, a ∈ catalog →
     app_downloadURL a ≠ "" ∧
     filename_from_url unquote (app_downloadURL a) ∈ current_release_assets) →
  republish [] (map carried catalog) = catalog.
Proof.
  induction catalog as [|a catalog IH]; intros Hall; simpl; [done|].
  destruct (Hall a) as [Hurl Hin]; [by left|].
  destruct (app_downloadURL a) as [|c u] eqn:Hu; [done|]. simpl.
  rewrite bool_decide_eq_true_2 by done.
  rewrite republish_acc, IH; [done|]. intros b Hb. apply Hall. by right.
Qed.

End RepublishFacts.

Example unquote_ascii_space : unquote_ascii "App%20v1%2E0.ipa%" = "App v1.0.ipa%".
Proof. reflexivity. Qed.

(** C9, as stated, fails: a catalog with two entries of the same key
    (same bundle identifier, same trailing parenthetical), both binaries
    in storage, is merged by Pass 2 into the newer of the two. *)
Lemma merge_collapses_shared_key :
  let a1 := {| app_name := "Instagram (Theta)"; app_bundleIdentifier := "com.x.app";
               app_developerName := "@chan"; app_iconURL := "";
               app_localizedDescription := "Instagram"; app_version := "1.0";
               app_versionDate := "2025-01-01T00:00:00Z"; app_size := 1;
               app_downloadURL :=
                 "https://example.com/o/r/releases/download/latest/Instagram%20v1.ipa" |} in
  let a2 := {| app_name := "Instagram (Theta)"; app_bundleIdentifier := "com.x.app";
               app_developerName := "@chan"; app_iconURL := "";
               app_localizedDescription := "Instagram"; app_version := "2.0";
               app_versionDate := "2025-02-01T00:00:00Z"; app_size := 1;
               app_downloadURL :=
                 "https://example.com/o/r/releases/download/latest/Instagram%20v2.ipa" |} in
  let assets : gset string := {[ "Instagram v1.ipa"; "Instagram v2.ipa" ]} in
  filename_from_url unquote_ascii (app_downloadURL a1) ∈ assets ∧
  filename_from_url unquote_ascii (app_downloadURL a2) ∈ assets ∧
  update_repo_json unquote_ascii (λ _ _, None) assets fromtimestamp [] ∅
    (Some [a1; a2])
    = Returns [a2].
Proof. split_and!; [by vm_compute | by vm_compute | reflexivity]. Qed.

(** C9 (amended): with no new observation, over a catalog whose entries
    have pairwise distinct keys (the bundle identifier, with a colon and
    the trailing parenthetical of the name when there is one) and each
    have a download URL whose decoded file name is among the release
    assets, the merge and the republish return the catalog itself, every
    entry unchanged and in the same order. *)
Theorem merge_idempotent (unquote : string → string)
    (publish_scanned : string → scanned → option app)
    (fromtimestamp : Z → outcome string)
    (current_release_assets downloads : gset string) (catalog : list app) :
  NoDup (map existing_key catalog) →
  (∀ a, a ∈ catalog →
     app_downloadURL a ≠ "" ∧
     filename_from_url unquote (app_downloadURL a) ∈ current_release_assets) →
  update_repo_json unquote publish_scanned current_release_assets fromtimestamp []
      downloads
    (Some catalog) = Returns catalog.
Proof.
  intros Hnd Hall. unfold update_repo_json. simpl.
  rewrite pass2_fresh by done. simpl. f_equal. by apply republish_carried.
Qed.

Lemma merge_idempotent_witness :
  let a1 := {| app_name := "Instagram (Theta)"; app_bundleIdentifier := "com.x.app";
               app_developerName := "@chan"; app_iconURL := "";
               app_localizedDescription := "Instagram"; app_version := "1.0";
               app_versionDate := "2025-01-01T00:00:00Z"; app_size := 1;
               app_downloadURL :=
                 "https://example.com/o/r/releases/download/latest/Instagram%20v1.ipa" |} in
  let a2 := {| app_name := "Instagram"; app_bundleIdentifier := "com.x.app";
               app_developerName := "@chan"; app_iconURL := "";
               app_localizedDescription := "Instagram"; app_version := "2.0";
               app_versionDate := "2025-02-01T00:00:00Z"; app_size := 1;
               app_downloadURL :=
                 "https://example.com/o/r/releases/download/latest/Instagram%20v2.ipa" |} in
  let assets : gset string := {[ "Instagram v1.ipa"; "Instagram v2.ipa" ]} in
  update_repo_json unquote_ascii (λ _ _, None) assets fromtimestamp [] ∅
    (Some [a1; a2])
    = Returns [a1; a2].
Proof.
  intros a1 a2 assets. apply merge_idempotent.
  - apply (bool_decide_unpack _). by vm_compute.
  - intros a [->|[->|[]%elem_of_nil]%elem_of_cons]%elem_of_cons;
      (split; [done | apply (bool_decide_unpack _); by vm_compute]).
Defined.

(** ** The tweak of a reconciled record *)

(** C5, as stated, fails: the registry holds [Theta] only, the inference
    service answers with the tweak [FooBar], and [FooBar] is the tweak of
    the reconciled record; nothing in the scraper checks it against the
    registry, which only enters the prompt. *)
Lemma best_tweak_outside_registry :
  let answer := {| j_app_name := Str "Instagram"; j_version := Str "1.2";
                   j_tweak_name := Str "FooBar";
                   j_bundle_id := Str "com.burbn.instagram";
                   j_description := Str "Instagram 1.2 with FooBar" |} in
  let known_tweaks := ["Theta"] in
  ∃ e cache',
    extract_from_message (λ _ _ _ _, Some answer) "key" "openai/gpt-4o-mini"
      "openai/gpt-4o" "Approved tweaks: " "." (λ s, s) known_tweaks
      "Instagram 1.2 with FooBar" "Instagram v1.2 FooBar.ipa" ∅
      = Returns (e, cache') ∧
    best_tweak e "Instagram v1.2 FooBar.ipa" = Some "FooBar" ∧
    CleanDuplicates.is_tweak_in_list (Some "FooBar") known_tweaks = false.
Proof. do 2 eexists. split_and!; [reflexivity | done | done]. Qed.

Section ExtractionFacts.

Variable ask_model : string → string → string → option string → option ai_json.
Variables OPENROUTER_API_KEY OPENROUTER_MODEL OPENROUTER_FALLBACK_MODEL : string.
Variables tweaks_intro tweaks_outro : string.
Variable hash : string → string.
Variable _known_tweaks : list string.

Local Abbreviation answered :=
  (answered ask_model OPENROUTER_MODEL OPENROUTER_FALLBACK_MODEL tweaks_intro
     tweaks_outro _known_tweaks).
Local Abbreviation registry_text :=
  (known_tweaks_text tweaks_intro tweaks_outro _known_tweaks).

Lemma validate_response_tweak j md t :
  validate_response j = Some md → md_tweak_name md = Some t → j_tweak_name j = Str t.
Proof.
  unfold validate_response.
  destruct (_ && _); [|done]. intros [= <-]. simpl.
  destruct (j_tweak_name j) as [| |s]; simpl; try done.
  destruct (String.eqb s "null"); [done|]. by intros [= ->].
Qed.

Lemma _extract_with_model_tweak description_text filename model md t :
  model = OPENROUTER_MODEL ∨ model = OPENROUTER_FALLBACK_MODEL →
  _extract_with_model ask_model description_text filename model registry_text
    = Some md →
  md_tweak_name md = Some t →
  answered description_text filename t.
Proof.
  unfold _extract_with_model. intros Hmodel.
  destruct (ask_model _ _ _ _) as [j|] eqn:Hask; [|done].
  intros Hval Ht. exists model, j. split_and!; [done | done | by rewrite Hval |].
  by eapply validate_response_tweak.
Qed.

(** The metadata of a message comes from the cache or from an answer of
    one of the two models. *)
Lemma extract_metadata_with_ai_tweak description_text filename cache md cache' t :
  extract_metadata_with_ai ask_model OPENROUTER_API_KEY OPENROUTER_MODEL
    OPENROUTER_FALLBACK_MODEL tweaks_intro tweaks_outro hash _known_tweaks
    description_text filename cache = Returns (Some md, cache') →
  md_tweak_name md = Some t →
  (∃ cached, cache !! cache_key hash description_text filename = Some cached ∧
             md_tweak_name cached = Some t)
  ∨ answered description_text filename t.
Proof.
  unfold extract_metadata_with_ai.
  destruct (negb _); [done|].
  destruct (cache !! _) as [cached|] eqn:Hc.
  { intros [= <- <-] Ht. left. eauto. }
  intros Hres Ht. right.
  destruct (_extract_with_model _ _ _ OPENROUTER_MODEL _) as [m1|] eqn:H1;
    destruct (_extract_with_model _ _ _ OPENROUTER_FALLBACK_MODEL _) as [m2|] eqn:H2;
    repeat match type of Hres with
           | context [if ?b then _ else _] => destruct b
           | context [match ?o with Some _ => _ | None => _ end] => destruct o
           end;
    simplify_eq;
    first [ by apply (_extract_with_model_tweak _ _ OPENROUTER_MODEL md t);
              [left | | ]
          | by apply (_extract_with_model_tweak _ _ OPENROUTER_FALLBACK_MODEL md t);
              [right | | ] ].
Qed.

(** The tweak of the metadata the extraction settles on is the tweak of
    the reconciled record, unless it is empty. *)
Lemma best_tweak_of_metadata message_text filename cache md cache' t :
  message_text ≠ "" →
  extract_metadata_with_ai ask_model OPENROUTER_API_KEY OPENROUTER_MODEL
    OPENROUTER_FALLBACK_MODEL tweaks_intro tweaks_outro hash _known_tweaks
    message_text (Some filename) cache = Returns (Some md, cache') →
  md_tweak_name md = Some t → t ≠ "" →
  ∃ e, extract_from_message ask_model OPENROUTER_API_KEY OPENROUTER_MODEL
         OPENROUTER_FALLBACK_MODEL tweaks_intro tweaks_outro hash _known_tweaks
         message_text filename cache = Returns (e, cache')
       ∧ best_tweak e filename = Some t.
Proof.
  intros Htext Hex Ht Hne. unfold extract_from_message.
  destruct message_text as [|c m]; [done|]. cbn [nonempty].
  rewrite Hex. cbn [bind fst snd]. eexists. split; [done|].
  assert (∀ x, tweak_from_message (correct_name x) = tweak_from_message x) as Hsame.
  { intros x. unfold correct_name. by repeat case_match. }
  unfold best_tweak, py_or. rewrite Hsame. cbn [tweak_from_message].
  rewrite Ht. by destruct t.
Qed.

End ExtractionFacts.

(** C5 (amended): the tweak of the reconciled record is either null or a
    non-empty tweak name that the extraction cache holds for this message
    and filename, or that the inference service answered for them under
    the primary or the fallback model, in an answer with the required
    fields; the filename contributes no tweak, and the extraction raises
    only for a missing API key. And such a tweak does survive, whatever
    the registry holds (the registry reaches the service in the prompt
    only, the scraper checks nothing against it): the cached tweak on a
    cache hit; otherwise the tweak of the primary model's answer when that
    answer names the app or its bundle identifier; otherwise the tweak of
    the fallback model's answer, when the fallback is set, differs from
    the primary and answers. *)
Theorem best_tweak_from_service
    (ask_model : string → string → string → option string → option ai_json)
    (OPENROUTER_API_KEY OPENROUTER_MODEL OPENROUTER_FALLBACK_MODEL : string)
    (tweaks_intro tweaks_outro : string) (hash : string → string)
    (_known_tweaks : list string) (message_text filename : string)
    (cache : gmap string metadata) :
  let extracted :=
    extract_from_message ask_model OPENROUTER_API_KEY OPENROUTER_MODEL
      OPENROUTER_FALLBACK_MODEL tweaks_intro tweaks_outro hash _known_tweaks
      message_text filename cache in
  let key := cache_key hash message_text (Some filename) in
  let answer model :=
    _extract_with_model ask_model message_text (Some filename) model
      (known_tweaks_text tweaks_intro tweaks_outro _known_tweaks) in
  match extracted with
  | Raises e => e = RuntimeError ∧ OPENROUTER_API_KEY = ""
  | Returns (e, _) =>
      tweak_from_filename filename = None ∧
      (best_tweak e filename = None ∨
       ∃ t, best_tweak e filename = Some t ∧ t ≠ "" ∧
            ((∃ cached, cache !! key = Some cached ∧ md_tweak_name cached = Some t)
             ∨ answered ask_model OPENROUTER_MODEL OPENROUTER_FALLBACK_MODEL
                 tweaks_intro tweaks_outro _known_tweaks
                 message_text (Some filename) t))
  end
  ∧ (message_text ≠ "" → OPENROUTER_API_KEY ≠ "" →
     ∀ md t, md_tweak_name md = Some t → t ≠ "" →
       cache !! key = Some md
       ∨ (cache !! key = None ∧ answer OPENROUTER_MODEL = Some md
          ∧ (md_app_name md ≠ None ∨ md_bundle_id md ≠ None))
       ∨ (cache !! key = None
          ∧ (answer OPENROUTER_MODEL = None
             ∨ ∃ md1, answer OPENROUTER_MODEL = Some md1
                      ∧ md_app_name md1 = None ∧ md_bundle_id md1 = None)
          ∧ OPENROUTER_FALLBACK_MODEL ≠ ""
          ∧ OPENROUTER_FALLBACK_MODEL ≠ OPENROUTER_MODEL
          ∧ answer OPENROUTER_FALLBACK_MODEL = Some md) →
       ∃ e cache', extracted = Returns (e, cache')
                   ∧ best_tweak e filename = Some t).
Proof.
  intros extracted key answer. split.
  - unfold extracted, extract_from_message.
    destruct (nonempty message_text); [|split; [done | by left]].
    destruct (extract_metadata_with_ai _ _ _ _ _ _ _ _ _ _ _)
      as [[ai_metadata cache']|e] eqn:Hex; cbn [bind].
    + split; [done|].
      assert (∀ x, tweak_from_message (correct_name x) = tweak_from_message x)
        as Hsame.
      { intros x. unfold correct_name. by repeat case_match. }
      unfold best_tweak, py_or. rewrite Hsame. cbn [fst].
      destruct ai_metadata as [md|]; [|by left]. cbn [tweak_from_message].
      destruct (md_tweak_name md) as [t|] eqn:Ht; [|by left].
      destruct t as [|c t]; [by left|]. right. exists (String c t).
      split; [done|]. split; [done|].
      by eapply extract_metadata_with_ai_tweak.
    + unfold extract_metadata_with_ai in Hex.
      destruct OPENROUTER_API_KEY; cbn [nonempty negb] in Hex;
        [by injection Hex as <-|].
      by repeat case_match.
  - intros Htext Hkey md t Ht Hne Hroute.
    assert (∃ cache', extract_metadata_with_ai ask_model OPENROUTER_API_KEY
                        OPENROUTER_MODEL OPENROUTER_FALLBACK_MODEL tweaks_intro
                        tweaks_outro hash _known_tweaks message_text (Some filename)
                        cache = Returns (Some md, cache')) as [cache' Hex].
    { unfold extract_metadata_with_ai. fold key. fold (answer OPENROUTER_MODEL).
      fold (answer OPENROUTER_FALLBACK_MODEL).
      destruct OPENROUTER_API_KEY as [|c k]; [done|]. cbn [nonempty negb].
      destruct Hroute as [Hhit | [(Hmiss & Hans & Hnamed)
                                 | (Hmiss & Hweak & Hset & Hdiff & Hans)]].
      - rewrite Hhit. eauto.
      - rewrite Hmiss, Hans.
        assert (match md_app_name md, md_bundle_id md with
                | None, None => true
                | _, _ => false
                end = false) as ->.
        { destruct (md_app_name md), (md_bundle_id md); try done.
          by destruct Hnamed. }
        cbn [andb]. eauto.
      - rewrite Hmiss, Hans.
        assert (nonempty OPENROUTER_FALLBACK_MODEL = true) as ->
          by (by destruct OPENROUTER_FALLBACK_MODEL).
        assert (String.eqb OPENROUTER_FALLBACK_MODEL OPENROUTER_MODEL = false) as ->
          by (by apply String.eqb_neq).
        destruct Hweak as [-> | (md1 & -> & -> & ->)]; cbn [andb negb]; eauto. }
    destruct (best_tweak_of_metadata ask_model OPENROUTER_API_KEY OPENROUTER_MODEL
                OPENROUTER_FALLBACK_MODEL tweaks_intro tweaks_outro hash
                _known_tweaks message_text filename cache md cache' t)
      as (e & He & Hbest); try done.
    by exists e, cache'.
Qed.

Lemma best_tweak_from_service_witness :
  let answer := {| j_app_name := Str "Instagram"; j_version := Str "1.2";
                   j_tweak_name := Str "FooBar";
                   j_bundle_id := Str "com.burbn.instagram";
                   j_description := Str "Instagram 1.2 with FooBar" |} in
  ∃ e cache',
    extract_from_message (λ _ _ _ _, Some answer) "key" "openai/gpt-4o-mini"
      "openai/gpt-4o" "Approved tweaks: " "." (λ s, s) ["Theta"]
      "Instagram 1.2 with FooBar" "Instagram v1.2 FooBar.ipa" ∅
      = Returns (e, cache')
    ∧ best_tweak e "Instagram v1.2 FooBar.ipa" = Some "FooBar".
Proof.
  intros answer.
  refine (proj2 (best_tweak_from_service (λ _ _ _ _, Some answer) "key"
                   "openai/gpt-4o-mini" "openai/gpt-4o" "Approved tweaks: " "."
                   (λ s, s) ["Theta"] "Instagram 1.2 with FooBar"
                   "Instagram v1.2 FooBar.ipa" ∅) _ _
            {| md_app_name := Some "Instagram"; md_version := Some "1.2";
               md_tweak_name := Some "FooBar";
               md_bundle_id := Some "com.burbn.instagram";
               md_description := Some "Instagram 1.2 with FooBar" |}
            "FooBar" eq_refl _ _); [done | done | done |].
  right. left. split_and!; [done | done | by left].
Defined.

(** ** The batch duplicate detector *)

Section DetectorFacts.

Import CleanDuplicates.

Lemma all_tweaks_match_spec keep_tweak delete_files known_tweaks :
  all_tweaks_match keep_tweak delete_files known_tweaks = true ↔
  Forall (λ f, normalized keep_tweak
               = normalized (extract_tweak_from_filename f known_tweaks))
    delete_files.
Proof.
  induction delete_files as [|f rest IH]; simpl.
  - split; [by constructor | done].
  - rewrite Forall_cons. case_bool_decide as Hne.
    + split; [done | by intros [? _]].
    + rewrite IH. tauto.
Qed.

Lemma group_passes_consistent known_tweaks g :
  group_passes known_tweaks g = true ↔ consistent known_tweaks g.
Proof. apply all_tweaks_match_spec. Qed.

Lemma validated_spec known_tweaks groups g :
  g ∈ validated known_tweaks groups ↔ g ∈ groups ∧ consistent known_tweaks g.
Proof.
  induction groups as [|g0 groups IH]; simpl.
  - rewrite elem_of_nil. tauto.
  - destruct (group_passes known_tweaks g0) eqn:Hp.
    + rewrite !elem_of_cons, IH. apply group_passes_consistent in Hp.
      split; [intros [->|[? ?]]; auto | intros [[->|?] ?]; auto].
    + rewrite elem_of_cons, IH. split; [tauto|].
      intros [[->|Hin] Hc]; [|done].
      apply group_passes_consistent in Hc. congruence.
Qed.

(** With an empty registry no file has a tweak. *)
Lemma consistent_no_registry g : consistent [] g.
Proof. unfold consistent. by apply Forall_forall. Qed.

Lemma validate_spec known_tweaks groups g :
  g ∈ validate known_tweaks groups ↔ g ∈ groups ∧ consistent known_tweaks g.
Proof.
  unfold validate. destruct known_tweaks as [|t known_tweaks].
  - split; [intros Hin; split; [done | apply consistent_no_registry] | tauto].
  - destruct groups as [|g0 groups]; [rewrite elem_of_nil; tauto|].
    apply validated_spec.
Qed.

Variable ask_groups : list string → list string → option (list group).
Variable OPENROUTER_API_KEY : string.
Variable batch_key : list string → string.

Lemma cache_validated_empty known_tweaks : cache_validated known_tweaks ∅.
Proof. intros k groups. by rewrite lookup_empty. Qed.

Lemma check_batch_sound filenames known_tweaks c :
  cache_validated known_tweaks c →
  sound known_tweaks (check_batch ask_groups batch_key filenames known_tweaks c).
Proof.
  intros Hc. unfold check_batch.
  destruct (c !! batch_key filenames) as [cached|] eqn:Hk.
  { split; [by eapply Hc | done]. }
  destruct (ask_groups filenames known_tweaks) as [groups|]; [|by split].
  assert (Forall (consistent known_tweaks) (validate known_tweaks groups)) as Hv.
  { apply Forall_forall. intros g Hg. by apply validate_spec in Hg as [_ ?]. }
  split; [done|]. intros k gs. cbn [snd].
  destruct (decide (k = batch_key filenames)) as [->|Hne].
  - rewrite lookup_insert_eq. by intros [= <-].
  - rewrite lookup_insert_ne by done. apply Hc.
Qed.

Lemma check_chunk_sound chunk known_tweaks c :
  cache_validated known_tweaks c →
  sound known_tweaks (check_chunk ask_groups batch_key chunk known_tweaks c).
Proof.
  intros Hc. unfold check_chunk.
  destruct (_ <? _)%nat; [by split | by apply check_batch_sound].
Qed.

Lemma check_chunks_sound starts filenames known_tweaks c :
  cache_validated known_tweaks c →
  sound known_tweaks
    (check_chunks ask_groups batch_key starts filenames known_tweaks c).
Proof.
  revert c. induction starts as [|i starts IH]; intros c Hc; simpl; [by split|].
  pose proof (check_chunk_sound (take CHUNK_SIZE (drop i filenames))
                known_tweaks c Hc) as [Hg Hc1].
  destruct (check_chunk _ _ _ _ _) as [chunk_groups c1]. cbn [fst snd] in *.
  specialize (IH c1 Hc1) as [Hmore Hc2].
  destruct (check_chunks _ _ _ _ _ _) as [more c2]. cbn [fst snd] in *.
  split; [by apply Forall_app | done].
Qed.

Lemma check_all_sound filenames known_tweaks c :
  cache_validated known_tweaks c →
  sound known_tweaks
    (check_all_release_assets_with_ai ask_groups OPENROUTER_API_KEY batch_key
       filenames known_tweaks c).
Proof.
  intros Hc. unfold check_all_release_assets_with_ai.
  destruct (negb _); [by split|].
  destruct (_ <? 2)%nat; [by split|].
  destruct (_ <? _)%nat; [by apply check_chunks_sound | by apply check_batch_sound].
Qed.

Lemma files_of_group_spec ipa_assets keep_file delete_files fi :
  fi ∈ files_of_group ipa_assets keep_file delete_files →
  fi_kept_file fi = keep_file ∧ fi_filename fi ∈ delete_files.
Proof.
  induction delete_files as [|f rest IH]; simpl; [by intros ?%elem_of_nil|].
  destruct (get f ipa_assets) as [id|].
  - intros [->|Hin]%elem_of_cons; [split; [done | by left]|].
    destruct (IH Hin). split; [done | by right].
  - intros Hin. destruct (IH Hin). split; [done | by right].
Qed.

Lemma files_to_delete_spec ipa_assets groups fi :
  fi ∈ files_to_delete ipa_assets groups →
  ∃ g, g ∈ groups ∧ fi_kept_file fi = g_keep g ∧ fi_filename fi ∈ g_delete g.
Proof.
  induction groups as [|g groups IH]; simpl; [by intros ?%elem_of_nil|].
  intros [Hin|Hin]%elem_of_app.
  - apply files_of_group_spec in Hin as [? ?]. exists g. split; [by left | done].
  - destruct (IH Hin) as (g' & ? & ? & ?). exists g'. split; [by right | done].
Qed.

Lemma scheduled_deletions_spec release_assets known_tweaks fi :
  fi ∈ scheduled_deletions ask_groups OPENROUTER_API_KEY batch_key release_assets
         known_tweaks →
  fi ∈ files_to_delete (ipa_assets release_assets)
         (check_all_release_assets_with_ai ask_groups OPENROUTER_API_KEY batch_key
            (keys (ipa_assets release_assets)) known_tweaks ∅).1.
Proof.
  unfold scheduled_deletions.
  destruct release_assets as [|kv rest]; [by intros ?%elem_of_nil|].
  destruct (_ <? 2)%nat; [by intros ?%elem_of_nil | done].
Qed.

End DetectorFacts.

(** C6, as stated, fails: the proposal that mixes [BHInsta] and [Theta]
    is rejected, yet the [Theta] file it wanted deleted is scheduled for
    deletion all the same, because a second proposal, sound, lists that
    file too; the validation judges each group, not each filename. *)
Lemma rejected_group_file_scheduled :
  let proposal := [mixed_group; theta_group] in
  let known_tweaks := ["BHInsta"; "Theta"] in
  "Instagram v404.0.0 Theta v4.0.ipa" ∈ CleanDuplicates.g_delete mixed_group
  ∧ (¬ CleanDuplicates.same_tweak known_tweaks (CleanDuplicates.g_keep mixed_group)
         "Instagram v404.0.0 Theta v4.0.ipa")
  ∧ (CleanDuplicates.check_all_release_assets_with_ai (λ _ _, Some proposal) "key"
       (λ _, "assets_batch:0") (keys (CleanDuplicates.ipa_assets release_assets))
       known_tweaks ∅).1 = [theta_group]
  ∧ CleanDuplicates.scheduled_deletions (λ _ _, Some proposal) "key"
      (λ _, "assets_batch:0") release_assets known_tweaks
    = [ {| CleanDuplicates.fi_filename := "Instagram v404.0.0 Theta v4.0.ipa";
           CleanDuplicates.fi_asset_id := 2;
           CleanDuplicates.fi_kept_file := "Instagram v405.1.0 Theta v4.1.ipa" |} ].
Proof.
  split_and!; [by left | by vm_compute | by vm_compute | by vm_compute].
Qed.

(** C6 (amended): a group proposed by the inference service in which the
    tweak of some file to delete, found by the registry word-boundary
    match, is not the tweak of the file to keep (letter case apart), is
    rejected whole: it is not among the groups the detector returns and
    drives no deletion. Every asset the cleaner schedules for deletion is
    listed for deletion by a returned group, all of whose files imply the
    tweak of its file to keep; so a filename of a rejected group is
    scheduled only when such a group lists it too. *)
Theorem mismatched_group_rejected
    (ask_groups : list string → list string → option (list CleanDuplicates.group))
    (OPENROUTER_API_KEY : string) (batch_key : list string → string)
    (release_assets : odict Z) (known_tweaks : list string)
    (g : CleanDuplicates.group) (delete_file : string) :
  let groups :=
    (CleanDuplicates.check_all_release_assets_with_ai ask_groups OPENROUTER_API_KEY
       batch_key (keys (CleanDuplicates.ipa_assets release_assets))
       known_tweaks ∅).1 in
  delete_file ∈ CleanDuplicates.g_delete g →
  (¬ CleanDuplicates.same_tweak known_tweaks (CleanDuplicates.g_keep g) delete_file) →
  (g ∉ groups) ∧
  Forall (λ fi,
            CleanDuplicates.same_tweak known_tweaks
              (CleanDuplicates.fi_kept_file fi) (CleanDuplicates.fi_filename fi) ∧
            ∃ g', g' ∈ groups ∧ g' ≠ g ∧
                  CleanDuplicates.consistent known_tweaks g' ∧
                  CleanDuplicates.fi_kept_file fi = CleanDuplicates.g_keep g' ∧
                  CleanDuplicates.fi_filename fi ∈ CleanDuplicates.g_delete g')
    (CleanDuplicates.scheduled_deletions ask_groups OPENROUTER_API_KEY batch_key
       release_assets known_tweaks).
Proof.
  intros groups Hin Hdiff.
  destruct (check_all_sound ask_groups OPENROUTER_API_KEY batch_key
              (keys (CleanDuplicates.ipa_assets release_assets))
              known_tweaks ∅ (cache_validated_empty _)) as [Hgroups _].
  fold groups in Hgroups. rewrite Forall_forall in Hgroups.
  assert (g ∉ groups) as Hout.
  { intros Hg. apply Hdiff. specialize (Hgroups g Hg).
    unfold CleanDuplicates.consistent in Hgroups. rewrite Forall_forall in Hgroups.
    by apply Hgroups. }
  split; [done|].
  apply Forall_forall. intros fi Hfi%scheduled_deletions_spec.
  apply files_to_delete_spec in Hfi as (g' & Hg' & Hkeep & Hdel).
  pose proof (Hgroups g' Hg') as Hcons. split.
  - unfold CleanDuplicates.consistent in Hcons.
    rewrite Forall_forall in Hcons. rewrite Hkeep. by apply Hcons.
  - exists g'. split_and!; try done. by intros ->.
Qed.

Example detector_keeps_sound_group :
  CleanDuplicates.scheduled_deletions (λ _ _, Some [mixed_group; sound_group])
    "key" (λ _, "assets_batch:0") release_assets ["BHInsta"; "Theta"]
  = [ {| CleanDuplicates.fi_filename := "Instagram v404.0.0 bhinsta v1.2.ipa";
         CleanDuplicates.fi_asset_id := 3;
         CleanDuplicates.fi_kept_file := "Instagram v405.1.0 BHInsta v1.2.ipa" |} ].
Proof. by vm_compute. Qed.

Lemma mismatched_group_rejected_witness :
  let ask_groups : list string → list string → option (list CleanDuplicates.group) :=
    λ _ _, Some [mixed_group; theta_group] in
  let known_tweaks := ["BHInsta"; "Theta"] in
  let groups :=
    (CleanDuplicates.check_all_release_assets_with_ai ask_groups "key"
       (λ _, "assets_batch:0") (keys (CleanDuplicates.ipa_assets release_assets))
       known_tweaks ∅).1 in
  (mixed_group ∉ groups) ∧
  Forall (λ fi,
            CleanDuplicates.same_tweak known_tweaks
              (CleanDuplicates.fi_kept_file fi) (CleanDuplicates.fi_filename fi) ∧
            ∃ g', g' ∈ groups ∧ g' ≠ mixed_group ∧
                  CleanDuplicates.consistent known_tweaks g' ∧
                  CleanDuplicates.fi_kept_file fi = CleanDuplicates.g_keep g' ∧
                  CleanDuplicates.fi_filename fi ∈ CleanDuplicates.g_delete g')
    (CleanDuplicates.scheduled_deletions ask_groups "key" (λ _, "assets_batch:0")
       release_assets known_tweaks).
Proof.
  intros ask_groups known_tweaks.
  apply (mismatched_group_rejected ask_groups "key" (λ _, "assets_batch:0")
           release_assets known_tweaks mixed_group
           "Instagram v404.0.0 Theta v4.0.ipa").
  - by left.
  - by vm_compute.
Defined.

(** ** The AltStore conversion *)

Section StringFacts.

Implicit Types (s t u : string) (c : ascii).

Lemma str_app_cons c s t : String c s +:+ t = String c (s +:+ t).
Proof. reflexivity. Qed.

Lemma str_app_nil_l s : "" +:+ s = s.
Proof. reflexivity. Qed.

Lemma str_app_nil_r s : s +:+ "" = s.
Proof. induction s as [|c s IH]; [done|]. by rewrite str_app_cons, IH. Qed.

Lemma str_app_assoc s t u : (s +:+ t) +:+ u = s +:+ (t +:+ u).
Proof. induction s as [|c s IH]; [done|]. by rewrite !str_app_cons, IH. Qed.

Lemma str_length_app s t :
  String.length (s +:+ t) = (String.length s + String.length t)%nat.
Proof. induction s as [|c s IH]; [done|]. rewrite str_app_cons. simpl. by rewrite IH. Qed.

Lemma forallb_str_app p s t :
  forallb_str p (s +:+ t) = forallb_str p s && forallb_str p t.
Proof.
  induction s as [|c s IH]; [done|]. rewrite str_app_cons. simpl.
  by rewrite IH, andb_assoc.
Qed.

(** Two prefixes of the same length of one string are the same prefix. *)
Lemma str_app_same_length s s' t t' :
  s +:+ t = s' +:+ t' → String.length s = String.length s' → s = s' ∧ t = t'.
Proof.
  revert s'. induction s as [|c s IH]; intros [|c' s']; try done.
  rewrite !str_app_cons. simpl. intros [= -> Happ] [= Hlen].
  destruct (IH _ Happ Hlen) as [-> ->]. done.
Qed.

Lemma map_str_length f s : String.length (map_str f s) = String.length s.
Proof. induction s as [|c s IH]; simpl; by rewrite ?IH. Qed.

Lemma lower_nonempty s t : lower s = lower t → t ≠ "" → s ≠ "".
Proof. intros Heq Ht ->. destruct t; [done | discriminate]. Qed.

Lemma code_eq c n : (code c =? n)%N = true → c = ascii_of_N n.
Proof.
  intros Heq%N.eqb_eq. unfold code in Heq. rewrite <- Heq.
  by rewrite ascii_N_embedding.
Qed.

End StringFacts.

Section NameFacts.

Import AltStore NameSpec.
Implicit Types (s t base body : string) (c : ascii).

Lemma lstrip_blank ws s : blank ws → lstrip (ws +:+ s) = lstrip s.
Proof.
  unfold blank. induction ws as [|c ws IH]; [done|]. rewrite str_app_cons. simpl.
  intros [-> Hws]%andb_true_iff. by apply IH.
Qed.

Lemma lstrip_split s : ∃ ws, blank ws ∧ s = ws +:+ lstrip s.
Proof.
  induction s as [|c s (ws & Hws & IH)]; [by exists ""|]. simpl.
  destruct (isspace c) eqn:Hc; [|by exists ""].
  exists (String c ws). split; [unfold blank; simpl; by rewrite Hc|].
  by rewrite str_app_cons, <- IH.
Qed.

Lemma until_rparen_spec s body rest :
  until_rparen s = Some (body, rest) ↔ unclosed body ∧ s = body +:+ ")" +:+ rest.
Proof.
  unfold unclosed. split.
  - revert body. induction s as [|c s IH]; intros body; simpl; [done|].
    destruct (is_rparen c) eqn:Hc.
    + intros [= <- <-]. split; [done|]. by rewrite (code_eq _ _ Hc).
    + destruct (until_rparen s) as [[b r]|]; [|done]. intros [= <- <-].
      destruct (IH b eq_refl) as [Hb ->]. simpl. by rewrite Hc, Hb.
  - intros [Hbody ->]. induction body as [|c body IH]; [done|].
    simpl in Hbody. apply andb_true_iff in Hbody as [Hc%negb_true_iff Hbody].
    rewrite str_app_cons. simpl. by rewrite Hc, (IH Hbody).
Qed.

Lemma match_tail_spec t body : match_tail t = Some body ↔ tail_splits t body.
Proof.
  unfold match_tail, tail_splits. split.
  - destruct (lstrip_split t) as (ws1 & Hws1 & Ht).
    destruct (lstrip t) as [|c s'] eqn:Hl; [done|].
    destruct (is_lparen c) eqn:Hc; [|done]. apply code_eq in Hc as ->.
    destruct (until_rparen s') as [[b rest]|] eqn:Hu; [|done].
    destruct (nonempty b) eqn:Hb; [|done]. simpl.
    destruct (forallb_str isspace rest) eqn:Hr; [|done]. intros [= <-].
    apply until_rparen_spec in Hu as [Hun ->].
    split; [by destruct b|]. split; [done|]. by exists ws1, rest.
  - intros (Hne & Hun & ws1 & ws2 & Hws1 & Hws2 & ->).
    rewrite (lstrip_blank _ _ Hws1). rewrite str_app_cons. simpl.
    rewrite str_app_nil_l.
    rewrite (proj2 (until_rparen_spec (body +:+ ")" +:+ ws2) body ws2)) by done.
    destruct body; [done|]. simpl. by rewrite Hws2.
Qed.

Lemma splits_tail s base body :
  splits s base body ↔
  base ≠ "" ∧ one_line base ∧ ∃ t, s = base +:+ t ∧ match_tail t = Some body.
Proof.
  unfold splits. split.
  - intros (Hb & Hl & Hne & Hun & ws1 & ws2 & Hws1 & Hws2 & ->).
    split; [done|]. split; [done|]. eexists. split; [done|].
    apply match_tail_spec. split; [done|]. split; [done|]. by exists ws1, ws2.
  - intros (Hb & Hl & t & -> & Ht).
    apply match_tail_spec in Ht as (Hne & Hun & ws1 & ws2 & Hws1 & Hws2 & ->).
    split; [done|]. split; [done|]. split; [done|]. split; [done|].
    by exists ws1, ws2.
Qed.

(** [match_name] finds a split, and the one with the shortest base. *)
Lemma match_name_sound s g1 body :
  match_name s = Some (g1, body) →
  g1 ≠ "" ∧ one_line g1 ∧
  (∃ t, s = g1 +:+ t ∧ match_tail t = Some body) ∧
  ∀ g1' t' body', g1' ≠ "" → s = g1' +:+ t' → match_tail t' = Some body' →
    (String.length g1 ≤ String.length g1')%nat.
Proof.
  unfold one_line. revert g1. induction s as [|c s IH]; intros g1; simpl; [done|].
  destruct (is_newline c) eqn:Hc; [done|].
  destruct (match_tail s) as [b|] eqn:Ht.
  - intros [= <- <-]. split; [done|]. split; [simpl; by rewrite Hc|].
    split; [by exists s|].
    intros [|c' g1'] t' body' Hne _ _; [done|]. simpl. lia.
  - destruct (match_name s) as [[g b]|]; [|done]. intros [= <- <-].
    destruct (IH g eq_refl) as (Hg & Hl & (t & -> & Htail) & Hmin).
    split; [done|]. split; [simpl; by rewrite Hc|].
    split; [by exists t|].
    intros [|c' g1'] t' body' Hne Heq Ht'; [done|].
    rewrite str_app_cons in Heq. injection Heq as <- Heq.
    destruct g1' as [|c'' g1'].
    + rewrite str_app_nil_l in Heq. rewrite <- Heq in Ht'. congruence.
    + simpl. apply le_n_S. by eapply (Hmin (String c'' g1')).
Qed.

Lemma match_name_complete base t body :
  base ≠ "" → one_line base → match_tail t = Some body →
  ∃ g1 b, match_name (base +:+ t) = Some (g1, b).
Proof.
  unfold one_line. intros Hne Hl Ht.
  induction base as [|c base IH]; [done|]. rewrite str_app_cons. simpl.
  simpl in Hl. apply andb_true_iff in Hl as [Hc%negb_true_iff Hl]. rewrite Hc.
  destruct (match_tail (base +:+ t)) as [b|] eqn:Htail; [by eauto|].
  destruct base as [|c' base]; [rewrite str_app_nil_l in Htail; congruence|].
  destruct (IH ltac:(done) Hl) as (g1 & b & ->). eauto.
Qed.

Lemma match_name_parenthetical s body :
  (∃ g1, match_name s = Some (g1, body)) ↔ parenthetical s body.
Proof.
  unfold parenthetical. split.
  - intros [g1 Hm]. exists g1.
    destruct (match_name_sound _ _ _ Hm) as (Hne & Hl & Ht & Hmin).
    split; [by apply splits_tail|].
    intros base' body' (Hne' & _ & t' & Hs & Ht')%splits_tail. by eapply Hmin.
  - intros (base & Hsplit & Hmin).
    pose proof Hsplit as (Hne & Hl & t & -> & Ht)%splits_tail.
    destruct (match_name_complete base t body Hne Hl Ht) as (g1 & b & Hm).
    destruct (match_name_sound _ _ _ Hm) as (Hne1 & Hl1 & (t1 & Hs1 & Ht1) & Hmin1).
    assert (String.length g1 = String.length base) as Hlen.
    { apply Nat.le_antisymm; [by eapply Hmin1|].
      apply (Hmin g1 b), splits_tail. eauto. }
    symmetry in Hs1. destruct (str_app_same_length _ _ _ _ Hs1 Hlen) as [-> ->].
    exists base. rewrite Hm. congruence.
Qed.

Lemma find_tweak_Some p known_tweaks tweak :
  find_tweak p known_tweaks = Some tweak →
  tweak ∈ known_tweaks ∧ lower tweak = lower p.
Proof.
  induction known_tweaks as [|t0 rest IH]; simpl; [done|].
  destruct (String.eqb_spec (lower t0) (lower p)) as [Heq|Hne].
  - intros [= <-]. split; [by left | done].
  - intros Hf. destruct (IH Hf). split; [by right | done].
Qed.

Lemma find_tweak_None p known_tweaks t :
  find_tweak p known_tweaks = None → t ∈ known_tweaks → lower t ≠ lower p.
Proof.
  induction known_tweaks as [|t0 rest IH]; simpl; [by intros _ ?%elem_of_nil|].
  destruct (String.eqb_spec (lower t0) (lower p)) as [Heq|Hne]; [done|].
  intros Hf [->|Hin]%elem_of_cons; [done | by apply IH].
Qed.

(** The tweak [extract_tweak_from_name] returns is truthy exactly when
    the name ends in a parenthetical naming a registry tweak. *)
Lemma extract_tweak_spec app_name known_tweaks :
  match (extract_tweak_from_name app_name known_tweaks).2 with
  | Some (String c r) =>
      names_tweak app_name known_tweaks (String c r) ∧
      ∀ t, names_tweak app_name known_tweaks t → lower t = lower (String c r)
  | _ => ∀ t, ¬ names_tweak app_name known_tweaks t
  end.
Proof.
  unfold extract_tweak_from_name.
  destruct (match_name app_name) as [[g1 g2]|] eqn:Hm.
  - assert (∀ t body, parenthetical app_name body → body = g2) as Huniq.
    { intros _ body [g Hg]%match_name_parenthetical. congruence. }
    assert (parenthetical app_name g2) as Hp
      by (apply match_name_parenthetical; eauto).
    destruct (find_tweak (strip g2) known_tweaks) as [tweak|] eqn:Hf; simpl.
    + apply find_tweak_Some in Hf as [Hin Hlow].
      destruct tweak as [|c r].
      * intros t (body & Hb & _ & Ht & Hl). rewrite (Huniq t body Hb) in Hl.
        apply Ht. eapply lower_nonempty in Ht; [|done].
        rewrite <- Hlow in Hl. by destruct t.
      * split; [by exists g2|].
        intros t (body & Hb & _ & _ & Hl). rewrite (Huniq t body Hb) in Hl. congruence.
    + intros t (body & Hb & Hin & _ & Hl). rewrite (Huniq t body Hb) in Hl.
      by eapply find_tweak_None.
  - simpl. intros t (body & [g Hg]%match_name_parenthetical & _). congruence.
Qed.

End NameFacts.

(** C10, as stated, fails: the name ["(Theta)"] ends in a parenthetical
    whose content is the registry tweak [Theta], yet the bundle identifier
    is not changed: the pattern of [extract_tweak_from_name] asks for a
    base name before the parenthesis. *)
Lemma bare_parenthetical_not_converted :
  let a := {| AltStore.sa_name := "(Theta)";
              AltStore.sa_bundleIdentifier := "com.x.app";
              AltStore.sa_developerName := "@chan";
              AltStore.sa_localizedDescription := "";
              AltStore.sa_iconURL := ""; AltStore.sa_versions := [];
              AltStore.sa_appPermissions := [];
              AltStore.sa_subtitle := None; AltStore.sa_tintColor := None;
              AltStore.sa_category := None; AltStore.sa_screenshots := None |} in
  AltStore.sa_name a = "" +:+ "(" +:+ "Theta" +:+ ")" ∧
  "Theta" ∈ ["Theta"] ∧
  AltStore.sa_bundleIdentifier (AltStore.convert_app_to_altstore_format a ["Theta"])
    = AltStore.sa_bundleIdentifier a.
Proof. split_and!; [reflexivity | by left | reflexivity]. Qed.

(** C10 (amended): the conversion never alters the display name; the
    bundle identifier changes exactly when the name is a non-empty base on
    one line followed by a closing parenthetical (after optional blanks,
    starting at the first opening parenthesis that qualifies, with optional
    blanks after it) whose content, stripped of blanks and compared without
    letter case, is a non-empty entry of the registry; the new identifier
    is then the original one, a dot, and that tweak in lower case.
    Otherwise the identifier is kept. *)
Theorem altstore_bundle_id (a : AltStore.source_app) (known_tweaks : list string) :
  let out := AltStore.convert_app_to_altstore_format a known_tweaks in
  AltStore.sa_name out = AltStore.sa_name a ∧
  (AltStore.sa_bundleIdentifier out ≠ AltStore.sa_bundleIdentifier a ↔
   ∃ t, NameSpec.names_tweak (AltStore.sa_name a) known_tweaks t) ∧
  (∀ t, NameSpec.names_tweak (AltStore.sa_name a) known_tweaks t →
        AltStore.sa_bundleIdentifier out
        = AltStore.sa_bundleIdentifier a +:+ "." +:+ lower t).
Proof.
  unfold AltStore.convert_app_to_altstore_format.
  pose proof (extract_tweak_spec (AltStore.sa_name a) known_tweaks) as Hspec.
  destruct (AltStore.extract_tweak_from_name _ _) as [base_name tweak_name].
  cbn [snd] in Hspec. cbn zeta. cbn [AltStore.sa_name AltStore.sa_bundleIdentifier].
  split; [done|].
  destruct tweak_name as [[|c r]|]; unfold AltStore.create_unique_bundle_id;
    cbn [truthy nonempty negb default].
  - split; [|intros t Ht; by destruct (Hspec t)].
    split; [done | intros [t Ht]; by destruct (Hspec t)].
  - destruct Hspec as [Hnames Huniq]. split.
    + split; [eauto|]. intros _ Heq.
      rewrite <- (str_app_nil_r (AltStore.sa_bundleIdentifier a)) in Heq at 2.
      by apply (inj (String.app _)) in Heq.
    + intros t Ht. by rewrite (Huniq t Ht).
  - split; [|intros t Ht; by destruct (Hspec t)].
    split; [done | intros [t Ht]; by destruct (Hspec t)].
Qed.

Example altstore_theta :
  let a := {| AltStore.sa_name := "Instagram  ( theta ) ";
              AltStore.sa_bundleIdentifier := "com.burbn.instagram";
              AltStore.sa_developerName := "@chan";
              AltStore.sa_localizedDescription := "";
              AltStore.sa_iconURL := ""; AltStore.sa_versions := [];
              AltStore.sa_appPermissions := [];
              AltStore.sa_subtitle := None; AltStore.sa_tintColor := None;
              AltStore.sa_category := None; AltStore.sa_screenshots := None |} in
  AltStore.sa_bundleIdentifier
    (AltStore.convert_app_to_altstore_format a ["BHInsta"; "Theta"])
  = "com.burbn.instagram.theta".
Proof. reflexivity. Qed.

Example altstore_nested_parenthesis :
  AltStore.extract_tweak_from_name "Insta (beta (Theta)" ["Theta"]
  = ("Insta (beta (Theta)", None).
Proof. reflexivity. Qed.

Lemma altstore_bundle_id_witness :
  let a := {| AltStore.sa_name := "Instagram (theta)";
              AltStore.sa_bundleIdentifier := "com.burbn.instagram";
              AltStore.sa_developerName := "@chan";
              AltStore.sa_localizedDescription := "";
              AltStore.sa_iconURL := ""; AltStore.sa_versions := [];
              AltStore.sa_appPermissions := [];
              AltStore.sa_subtitle := None; AltStore.sa_tintColor := None;
              AltStore.sa_category := None; AltStore.sa_screenshots := None |} in
  NameSpec.names_tweak "Instagram (theta)" ["BHInsta"; "Theta"] "Theta" ∧
  AltStore.sa_bundleIdentifier
    (AltStore.convert_app_to_altstore_format a ["BHInsta"; "Theta"])
  = "com.burbn.instagram" +:+ "." +:+ lower "Theta".
Proof.
  intros a.
  assert (NameSpec.names_tweak "Instagram (theta)" ["BHInsta"; "Theta"] "Theta")
    as Hnames.
  { exists "theta". split; [|split_and!; [by right; left | done | done]].
    apply match_name_parenthetical. by exists "Instagram". }
  split; [exact Hnames|].
  exact (proj2 (proj2 (altstore_bundle_id a ["BHInsta"; "Theta"])) "Theta" Hnames).
Defined.

(** ** The patterns on sample texts

    The values [re] and [str] give on these inputs, computed by the
    definitions above. *)

Example match_name_samples :
  map AltStore.match_name
    ["(Theta)"; "Insta (beta (Theta)"; "Instagram  ( theta ) "; " (T)";
     "x (a) (T)"; "Foo ( )"; "Foo ()"]
  = [None; Some ("Insta", "beta (Theta"); Some ("Instagram", " theta ");
     Some (" ", "T"); Some ("x (a)", "T"); Some ("Foo", " "); None].
Proof. reflexivity. Qed.

Example tweak_in_name_samples :
  map tweak_in_name
    ["Foo (T)"; "a (b (c)"; "Foo (T) "; "(T)"; "Foo ()"; "x (a) (T)"]
  = [Some "T"; Some "b (c"; None; Some "T"; None; Some "T"].
Proof. reflexivity. Qed.

Example search_word_samples :
  map (λ p, CleanDuplicates.search_word p.1 p.2)
    [("", "abc"); ("", " "); ("theta", "Instagram v1 Theta.ipa");
     ("theta", "InstagramTheta.ipa"); ("BH+", "a BH+ b"); ("BH+", "a BH+b")]
  = [true; false; true; false; false; true].
Proof. reflexivity. Qed.

Example split_samples :
  split " ab  c d " = ["ab"; "c"; "d"] ∧
  split_on is_dot_or_dash "1..2-3." = ["1"; ""; "2"; "3"; ""] ∧
  split_on is_slash "" = [""] ∧
  version_parts "405.1.0-beta.2" = Returns [405; 1; 0; 2] ∧
  version_parts "   " = Raises IndexError.
Proof. repeat split. Qed.

(** * Further properties of the code *)

(** ** The order [compare_versions] decides *)

Section VersionOrder.

Import VersionSpec.

Lemma lexicographic_app p q z :
  length p = length q → lexicographic (p ++ z) (q ++ z) = lexicographic p q.
Proof.
  revert q. induction p as [|x p IH]; intros [|y q] Hlen; try done; simpl.
  - apply lexicographic_refl.
  - injection Hlen as Hlen. rewrite (IH q Hlen). done.
Qed.

Lemma length_pad_right n p : (length p ≤ n)%nat → length (pad_right n p) = n.
Proof. intros H. unfold pad_right. rewrite length_app, length_replicate. lia. Qed.

Lemma pad_right_more n m p :
  (length p ≤ n)%nat → pad_right (n + m) p = pad_right n p ++ replicate m 0.
Proof.
  intros H. unfold pad_right. rewrite <- app_assoc, <- replicate_add.
  do 2 f_equal. lia.
Qed.

(** The padded comparison does not depend on how far one pads. *)
Lemma lexicographic_pad n p q :
  (length p ≤ n)%nat → (length q ≤ n)%nat →
  lexicographic (pad_right n p) (pad_right n q)
  = lexicographic (pad_right (Nat.max (length p) (length q)) p)
      (pad_right (Nat.max (length p) (length q)) q).
Proof.
  intros Hp Hq. set (m := Nat.max _ _).
  replace n with (m + (n - m))%nat by lia.
  rewrite !pad_right_more by lia. apply lexicographic_app.
  rewrite !length_pad_right; lia.
Qed.

Lemma lexicographic_trans p q r :
  lexicographic p q = Gt → lexicographic q r = Gt → lexicographic p r = Gt.
Proof.
  revert q r. induction p as [|x p IH]; intros [|y q] [|z r]; simpl; try done.
  destruct (Z.compare_spec x y) as [->|Hxy|Hxy]; [|done|].
  - destruct (Z.compare_spec y z) as [->|Hyz|Hyz]; [apply IH | done | done].
  - intros _. destruct (Z.compare_spec y z) as [->|Hyz|Hyz]; [|done|].
    + assert ((x ?= z) = Gt) as -> by (apply Z.compare_gt_iff; lia). done.
    + assert ((x ?= z) = Gt) as -> by (apply Z.compare_gt_iff; lia). done.
Qed.

Lemma compare_parts_gt p q :
  compare_parts p q None None = true ↔
  ∀ n, (length p ≤ n)%nat → (length q ≤ n)%nat →
       lexicographic (pad_right n p) (pad_right n q) = Gt.
Proof.
  rewrite compare_parts_spec. cbn zeta. split.
  - intros H n Hp Hq. rewrite lexicographic_pad by done.
    by destruct (lexicographic _ _).
  - intros H. rewrite H by lia. done.
Qed.

Lemma compare_parts_trans p q r :
  compare_parts p q None None = true → compare_parts q r None None = true →
  compare_parts p r None None = true.
Proof.
  rewrite !compare_parts_gt. intros Hpq Hqr n Hp Hr.
  set (N := Nat.max n (length q)).
  assert (lexicographic (pad_right N p) (pad_right N r) = Gt) as HN.
  { eapply lexicographic_trans; [apply Hpq | apply Hqr]; lia. }
  rewrite (lexicographic_pad N) in HN by lia.
  by rewrite (lexicographic_pad n) by lia.
Qed.

Lemma more_recent_asym t1 t2 : more_recent t1 t2 = true → more_recent t2 t1 = false.
Proof. destruct t1, t2; simpl; try done. lia. Qed.

Lemma compare_parts_asym_ts p q t1 t2 :
  compare_parts p q t1 t2 = true → compare_parts q p t2 t1 = false.
Proof.
  rewrite !compare_parts_spec. cbn zeta. rewrite (Nat.max_comm (length q)).
  set (n := Nat.max _ _).
  rewrite (lexicographic_antisym (pad_right n p) (pad_right n q)).
  pose proof (more_recent_asym t1 t2) as Hts. rewrite !more_recent_spec in Hts.
  destruct (lexicographic (pad_right n p) (pad_right n q)); simpl; done.
Qed.

Lemma compare_strings_asym_ts v1 v2 t1 t2 :
  compare_strings v1 v2 t1 t2 = true → compare_strings v2 v1 t2 t1 = false.
Proof.
  unfold compare_strings. rewrite (String.eqb_sym v2 v1).
  destruct (String.eqb v1 v2); [apply more_recent_asym | apply str_gt_asym].
Qed.

(** A trailing zero component changes nothing. *)
Lemma compare_parts_zero_l p q t1 t2 :
  compare_parts (p ++ [0]) q t1 t2 = compare_parts p q t1 t2.
Proof.
  rewrite !compare_parts_spec. cbn zeta.
  set (N := S (Nat.max (length p) (length q))).
  rewrite <- (lexicographic_pad N (p ++ [0]) q)
    by (rewrite ?length_app; simpl; lia).
  rewrite <- (lexicographic_pad N p q) by lia.
  replace (pad_right N (p ++ [0])) with (pad_right N p); [done|].
  unfold pad_right. rewrite <- app_assoc, length_app. simpl.
  f_equal. replace (N - length p)%nat with (S (N - (length p + 1)))%nat by lia.
  done.
Qed.

Lemma compare_parts_zero_r p q t1 t2 :
  compare_parts p (q ++ [0]) t1 t2 = compare_parts p q t1 t2.
Proof.
  rewrite !compare_parts_spec. cbn zeta.
  set (N := S (Nat.max (length p) (length q))).
  rewrite <- (lexicographic_pad N p (q ++ [0]))
    by (rewrite ?length_app; simpl; lia).
  rewrite <- (lexicographic_pad N p q) by lia.
  replace (pad_right N (q ++ [0])) with (pad_right N q); [done|].
  unfold pad_right. rewrite <- app_assoc, length_app. simpl.
  f_equal. replace (N - length q)%nat with (S (N - (length q + 1)))%nat by lia.
  done.
Qed.

Lemma compare_parts_cases n p q t1 t2 :
  (length p ≤ n)%nat → (length q ≤ n)%nat →
  compare_parts p q t1 t2 =
    match lexicographic (pad_right n p) (pad_right n q) with
    | Gt => true
    | Lt => false
    | Eq => more_recent t1 t2
    end.
Proof.
  intros Hp Hq. rewrite compare_parts_spec. cbn zeta.
  rewrite <- (lexicographic_pad n) by done. by rewrite more_recent_spec.
Qed.

Lemma lexicographic_eq p q : lexicographic p q = Eq → p = q.
Proof.
  revert q. induction p as [|x p IH]; intros [|y q]; simpl; try done.
  destruct (Z.compare_spec x y) as [->|?|?]; [|done|done].
  intros H. by rewrite (IH q H).
Qed.

Lemma more_recent_trans t1 t2 t3 :
  more_recent t1 t2 = true → more_recent t2 t3 = true → more_recent t1 t3 = true.
Proof. destruct t1, t2, t3; simpl; try done. lia. Qed.

Lemma compare_parts_trans_ts p q r t1 t2 t3 :
  compare_parts p q t1 t2 = true → compare_parts q r t2 t3 = true →
  compare_parts p r t1 t3 = true.
Proof.
  set (N := Nat.max (length p) (Nat.max (length q) (length r))).
  rewrite (compare_parts_cases N p q), (compare_parts_cases N q r),
    (compare_parts_cases N p r) by lia.
  destruct (lexicographic (pad_right N p) (pad_right N q)) eqn:Hpq; [|done|].
  - apply lexicographic_eq in Hpq. rewrite Hpq.
    destruct (lexicographic (pad_right N q) (pad_right N r)); [|done|done].
    apply more_recent_trans.
  - intros _. destruct (lexicographic (pad_right N q) (pad_right N r)) eqn:Hqr;
      [|done|].
    + apply lexicographic_eq in Hqr. by rewrite <- Hqr, Hpq.
    + by rewrite (lexicographic_trans _ _ _ Hpq Hqr).
Qed.

Lemma compare_versions_parsed v1 v2 p1 p2 t1 t2 :
  version_parts v1 = Returns p1 → version_parts v2 = Returns p2 →
  compare_versions v1 v2 t1 t2 = Returns (compare_parts p1 p2 t1 t2).
Proof. intros H1 H2. unfold compare_versions. by rewrite H1, H2. Qed.

(** Words and tokens of a version with one more component. *)
Lemma split_word w :
  forallb_str (λ c, negb (isspace c)) w = true → w ≠ "" → split w = [w].
Proof.
  induction w as [|c w IH]; [done|]. intros Hw _. simpl in Hw.
  apply andb_true_iff in Hw as [Hc Hw]. apply negb_true_iff in Hc.
  simpl. rewrite Hc. destruct w as [|c' w']; [done|].
  assert (isspace c' = false) as ->.
  { simpl in Hw. apply andb_true_iff in Hw as [Hc' _]. by apply negb_true_iff. }
  by rewrite IH.
Qed.

Lemma split_on_nonempty sep s : split_on sep s ≠ [].
Proof.
  destruct s as [|c s]; simpl; [done|].
  destruct (sep c); [done|]. by destruct (split_on sep s).
Qed.

Lemma split_on_app sep a c0 b :
  sep c0 = true →
  split_on sep (a +:+ String c0 b) = split_on sep a ++ split_on sep b.
Proof.
  intros Hc0. induction a as [|c a IH].
  - rewrite str_app_nil_l. simpl. by rewrite Hc0.
  - rewrite str_app_cons. simpl. rewrite IH.
    destruct (sep c); [done|].
    pose proof (split_on_nonempty sep a) as Hne.
    by destruct (split_on sep a).
Qed.

Lemma int_tokens_app l1 l2 p1 p2 :
  int_tokens l1 = Returns p1 → int_tokens l2 = Returns p2 →
  int_tokens (l1 ++ l2) = Returns (p1 ++ p2).
Proof.
  intros H1 H2. revert p1 H1. induction l1 as [|x l1 IH]; simpl; intros p1 H1.
  - by injection H1 as <-.
  - destruct (isdigit x); [|by apply IH].
    destruct (int x) as [n|e]; simpl in *; [|done].
    destruct (int_tokens l1) as [ns|e]; simpl in *; [|done].
    injection H1 as <-. by rewrite (IH ns eq_refl).
Qed.

Lemma version_parts_zero a pa :
  forallb_str (λ c, negb (isspace c)) a = true →
  version_parts a = Returns pa →
  version_parts (a +:+ ".0") = Returns (pa ++ [0]).
Proof.
  intros Hword Ha.
  assert (a ≠ "") as Hne by (by intros ->).
  unfold version_parts in *. rewrite (split_word a Hword Hne) in Ha.
  rewrite split_word.
  - cbn [first bind] in *. rewrite (split_on_app is_dot_or_dash a "." "0" eq_refl).
    by apply int_tokens_app.
  - rewrite forallb_str_app, Hword. done.
  - destruct a; [done|]. by rewrite str_app_cons.
Qed.

End VersionOrder.

(** X1. [compare_versions] never ranks two versions above each other:
    when it answers true for a pair (with their timestamps), it answers
    false for the swapped pair, whichever branch (numeric or string
    fallback, with or without timestamps) decided. *)
Theorem compare_versions_asymmetric (v1 v2 : string) (t1 t2 : option Z) :
  compare_versions v1 v2 t1 t2 = Returns true →
  compare_versions v2 v1 t2 t1 = Returns false.
Proof.
  rewrite !compare_versions_spec, (orb_comm (VersionSpec.parse_raises v2)).
  destruct (VersionSpec.parse_raises v1 || VersionSpec.parse_raises v2);
    intros [= H]; f_equal;
    [by apply compare_strings_asym_ts | by apply compare_parts_asym_ts].
Qed.

Lemma compare_versions_asymmetric_witness :
  compare_versions "4.0.5" "4.0.5" (Some 10) (Some 20) = Returns false.
Proof.
  apply (compare_versions_asymmetric "4.0.5" "4.0.5" (Some 20) (Some 10)).
  reflexivity.
Defined.

(** X2. On versions that parse (no exception in the numeric branch),
    [compare_versions] is transitive, timestamps included: newer than a
    version that is newer than a third one is newer than the third. *)
Theorem compare_versions_transitive (a b c : string) (pa pb pc : list Z)
    (ta tb tc : option Z) :
  version_parts a = Returns pa →
  version_parts b = Returns pb →
  version_parts c = Returns pc →
  compare_versions a b ta tb = Returns true →
  compare_versions b c tb tc = Returns true →
  compare_versions a c ta tc = Returns true.
Proof.
  intros Ha Hb Hc.
  rewrite (compare_versions_parsed a b pa pb), (compare_versions_parsed b c pb pc),
    (compare_versions_parsed a c pa pc) by done.
  intros [= Hab] [= Hbc]. f_equal. by eapply compare_parts_trans_ts.
Qed.

Lemma compare_versions_transitive_witness :
  compare_versions "2.21 beta" "2.2" (Some 1) (Some 7) = Returns true.
Proof.
  apply (compare_versions_transitive "2.21 beta" "2.3-1" "2.2"
           [2; 21] [2; 3; 1] [2; 2] (Some 1) None (Some 7));
    reflexivity.
Defined.

(** The hypothesis of X2 is needed: once a version sends the parsing to
    the string fallback, the numeric and the string orders mix, and the
    chain ["10" > "9" > "1²"] does not give ["10" > "1²"]. *)
Example compare_versions_mixed_not_transitive :
  let sup2 := String (ascii_of_N 178) "" in
  compare_versions "10" "9" None None = Returns true
  ∧ compare_versions "9" ("1" +:+ sup2) None None = Returns true
  ∧ compare_versions "10" ("1" +:+ sup2) None None = Returns false.
Proof. repeat split; by vm_compute. Qed.

(** X3. A trailing [.0] component does not change the rank of a version:
    for a version [a] without whitespace that parses, [a] and [a.0]
    compare alike, on either side, against every version that parses. *)
Theorem compare_versions_trailing_zero (a b : string) (pa pb : list Z)
    (t1 t2 : option Z) :
  forallb_str (λ c, negb (isspace c)) a = true →
  version_parts a = Returns pa →
  version_parts b = Returns pb →
  compare_versions (a +:+ ".0") b t1 t2 = compare_versions a b t1 t2
  ∧ compare_versions b (a +:+ ".0") t1 t2 = compare_versions b a t1 t2
  ∧ compare_versions (a +:+ ".0") a None None = Returns false
  ∧ compare_versions a (a +:+ ".0") None None = Returns false.
Proof.
  intros Hword Ha Hb.
  pose proof (version_parts_zero a pa Hword Ha) as Ha0.
  rewrite (compare_versions_parsed _ _ _ _ t1 t2 Ha0 Hb),
    (compare_versions_parsed _ _ _ _ t1 t2 Ha Hb),
    (compare_versions_parsed _ _ _ _ t1 t2 Hb Ha0),
    (compare_versions_parsed _ _ _ _ t1 t2 Hb Ha),
    (compare_versions_parsed _ _ _ _ None None Ha0 Ha),
    (compare_versions_parsed _ _ _ _ None None Ha Ha0).
  rewrite !compare_parts_zero_l, !compare_parts_zero_r.
  by rewrite compare_parts_irrefl.
Qed.

Lemma compare_versions_trailing_zero_witness :
  compare_versions ("4.0" +:+ ".0") "4.0.1" None None
    = compare_versions "4.0" "4.0.1" None None
  ∧ compare_versions "4.0.1" ("4.0" +:+ ".0") None None
    = compare_versions "4.0.1" "4.0" None None
  ∧ compare_versions ("4.0" +:+ ".0") "4.0" None None = Returns false
  ∧ compare_versions "4.0" ("4.0" +:+ ".0") None None = Returns false.
Proof.
  apply (compare_versions_trailing_zero "4.0" "4.0.1" [4; 0] [4; 0; 1]);
    reflexivity.
Defined.

(** ** What Pass 1 leaves behind *)

Section Pass1Order.

Variable fromtimestamp : Z → outcome string.

(** Past the log lines of an iteration that returns. *)
Ltac skip_log :=
  match goal with
  | |- bind ?m _ = _ → _ => destruct m as [[]|]; [|done]; cbn [bind]
  end.

Lemma more_recent_irrefl t : more_recent t t = false.
Proof. destruct t; simpl; [apply Z.ltb_irrefl | done]. Qed.

Lemma compare_versions_same v t : compare_versions v v t t = Returns false.
Proof.
  rewrite compare_versions_spec. f_equal.
  destruct (VersionSpec.parse_raises v); simpl.
  - unfold compare_strings. rewrite String.eqb_refl. apply more_recent_irrefl.
  - rewrite compare_parts_spec. cbn zeta. rewrite lexicographic_refl.
    rewrite <- more_recent_spec. apply more_recent_irrefl.
Qed.

(** Not newer than the resident, and the resident replaced by a newer
    one: not newer than the replacement either. *)
Lemma compare_versions_below a b c pa pb pc ta tb tc :
  version_parts a = Returns pa →
  version_parts b = Returns pb →
  version_parts c = Returns pc →
  compare_versions a b ta tb = Returns false →
  compare_versions c b tc tb = Returns true →
  compare_versions a c ta tc = Returns false.
Proof.
  intros Ha Hb Hc.
  rewrite (compare_versions_parsed a b pa pb), (compare_versions_parsed c b pc pb),
    (compare_versions_parsed a c pa pc) by done.
  intros [= Hab] [= Hcb]. f_equal.
  destruct (compare_parts pa pc ta tc) eqn:Hac; [|done].
  by rewrite (compare_parts_trans_ts _ _ _ _ _ _ Hac Hcb) in Hab.
Qed.

Lemma pass1_step_newest st o st' (seen : list observation) :
  (∀ k e, get k st.1 = Some e → ∃ p, version_parts (s_version e) = Returns p) →
  (∀ o' info, o' ∈ seen ++ [o] → obs_info o' = Some info →
     ∃ p, version_parts (version info) = Returns p) →
  (∀ o' info, o' ∈ seen → obs_info o' = Some info →
     ∃ e, get (unique_app_key (bundleIdentifier info) (obs_best_tweak o')) st.1
            = Some e
          ∧ compare_versions (version info) (s_version e)
              (Some (obs_timestamp o')) (Some (s_timestamp e)) = Returns false) →
  pass1_step fromtimestamp st o = Returns st' →
  (∀ k e, get k st'.1 = Some e → ∃ p, version_parts (s_version e) = Returns p)
  ∧ (∀ o' info, o' ∈ seen ++ [o] → obs_info o' = Some info →
       ∃ e, get (unique_app_key (bundleIdentifier info) (obs_best_tweak o')) st'.1
              = Some e
            ∧ compare_versions (version info) (s_version e)
                (Some (obs_timestamp o')) (Some (s_timestamp e)) = Returns false).
Proof.
  destruct st as [apps downloads]. cbn [fst]. intros Hparse Ho Hseen.
  unfold pass1_step. destruct (obs_info o) as [info|] eqn:Hinfo.
  2:{ intros [= <-]. cbn [fst]. split; [done|].
      intros o' info' [Hin | ->%list_elem_of_singleton]%elem_of_app Hi;
        [by apply Hseen | congruence]. }
  destruct (Ho o info) as [p Hp];
    [apply elem_of_app; right; by apply list_elem_of_singleton | done |].
  set (key := unique_app_key _ _).
  assert (∀ old k e,
    get k (set key (new_entry o (final_name_correction info) old) apps) = Some e →
    ∃ q, version_parts (s_version e) = Returns q) as Hparse'.
  { intros old k e. destruct (decide (k = key)) as [->|Hne].
    - rewrite get_set_eq. intros [= <-]. simpl.
      rewrite final_name_correction_version. eauto.
    - rewrite get_set_ne by done. apply Hparse. }
  destruct (get key apps) as [resident|] eqn:Hget.
  - destruct (Hparse _ _ Hget) as [pr Hpr].
    destruct (compare_versions (version info) (s_version resident) _ _)
      as [newer|] eqn:Hcmp; [|done]. cbn [bind].
    destruct newer; skip_log; intros [= <-]; cbn [fst].
    + split; [apply Hparse'|].
      intros o' info' [Hin | ->%list_elem_of_singleton]%elem_of_app Hi.
      * destruct (Hseen o' info' Hin Hi) as (e & Hge & Hle).
        destruct (decide (unique_app_key (bundleIdentifier info') (obs_best_tweak o')
                          = key)) as [Heq|Hne].
        -- rewrite Heq, get_set_eq. eexists. split; [done|]. simpl.
           rewrite Heq, Hget in Hge. injection Hge as <-.
           destruct (Ho o' info') as [q Hq];
             [apply elem_of_app; by left | done |].
           rewrite final_name_correction_version.
           by apply (compare_versions_below _ (s_version resident) _ q pr p
                       _ (Some (s_timestamp resident))).
        -- rewrite get_set_ne by done. eauto.
      * rewrite Hinfo in Hi. injection Hi as <-. fold key. rewrite get_set_eq.
        eexists. split; [done|]. simpl. rewrite final_name_correction_version.
        apply compare_versions_same.
    + split; [done|].
      intros o' info' [Hin | ->%list_elem_of_singleton]%elem_of_app Hi;
        [by apply Hseen|].
      rewrite Hinfo in Hi. injection Hi as <-. fold key. eauto.
  - intros [= <-]. cbn [fst]. split; [apply Hparse'|].
    intros o' info' [Hin | ->%list_elem_of_singleton]%elem_of_app Hi.
    + destruct (Hseen o' info' Hin Hi) as (e & Hge & Hle).
      rewrite get_set_ne; [eauto|]. intros Heq. congruence.
    + rewrite Hinfo in Hi. injection Hi as <-. fold key. rewrite get_set_eq.
      eexists. split; [done|]. simpl. rewrite final_name_correction_version.
      apply compare_versions_same.
Qed.

Lemma pass1_newest observations : ∀ st seen st',
  (∀ k e, get k st.1 = Some e → ∃ p, version_parts (s_version e) = Returns p) →
  (∀ o' info, o' ∈ seen ++ observations → obs_info o' = Some info →
     ∃ p, version_parts (version info) = Returns p) →
  (∀ o' info, o' ∈ seen → obs_info o' = Some info →
     ∃ e, get (unique_app_key (bundleIdentifier info) (obs_best_tweak o')) st.1
            = Some e
          ∧ compare_versions (version info) (s_version e)
              (Some (obs_timestamp o')) (Some (s_timestamp e)) = Returns false) →
  pass1 fromtimestamp st observations = Returns st' →
  ∀ o' info, o' ∈ seen ++ observations → obs_info o' = Some info →
    ∃ e, get (unique_app_key (bundleIdentifier info) (obs_best_tweak o')) st'.1
           = Some e
         ∧ compare_versions (version info) (s_version e)
             (Some (obs_timestamp o')) (Some (s_timestamp e)) = Returns false.
Proof.
  induction observations as [|o rest IH]; intros st seen st' Hparse Hall Hseen; simpl.
  - intros [= <-]. by rewrite app_nil_r.
  - destruct (pass1_step fromtimestamp st o) as [st1|] eqn:Hstep; [|done]. cbn [bind]. intros Hrest.
    replace (seen ++ o :: rest) with ((seen ++ [o]) ++ rest) in *
      by (by rewrite <- app_assoc).
    destruct (pass1_step_newest st o st1 seen) as [Hparse1 Hseen1]; try done.
    { intros o' info Hin. apply Hall. apply elem_of_app. by left. }
    by apply (IH st1 (seen ++ [o]) st').
Qed.

(** The files of the download directory. *)
Lemma pass1_step_files (all : list string) st o st' (rest : list observation) :
  let ok (st : pass1_state) (later : list observation) :=
    (∀ k e, get k st.1 = Some e →
       s_filename e ∈ st.2 ∧ s_filename e ∈ all
       ∧ s_filename e ∉ map obs_filename later)
    ∧ (∀ k1 k2 e1 e2, get k1 st.1 = Some e1 → get k2 st.1 = Some e2 →
         s_filename e1 = s_filename e2 → k1 = k2)
    ∧ (∀ o', o' ∈ later → obs_filename o' ∈ st.2 ∧ obs_filename o' ∈ all) in
  NoDup (map obs_filename (o :: rest)) →
  ok st (o :: rest) →
  pass1_step fromtimestamp st o = Returns st' →
  ok st' rest ∧ ∀ f, f ∈ st.2 → f ∉ all → f ∈ st'.2.
Proof.
  destruct st as [apps downloads]. cbn zeta. cbn [fst snd map].
  intros [Hfresh Hnd]%NoDup_cons (Hfiles & Hinj & Hlater).
  destruct (Hlater o) as [Ho_in Ho_all]; [by left|].
  unfold pass1_step. destruct (obs_info o) as [info|] eqn:Hinfo.
  2:{ intros [= <-]. cbn [fst snd]. split; [|done]. split_and!; [|done|].
      - intros k e Hget. destruct (Hfiles k e Hget) as (? & ? & Hn).
        split_and!; [done | done |]. intros Hin. apply Hn. by right.
      - intros o' Hin. apply Hlater. by right. }
  set (key := unique_app_key _ _).
  assert (∀ old (D : gset string),
    (∀ k e, get k apps = Some e → k ≠ key → s_filename e ∈ D) →
    (∀ o', o' ∈ rest → obs_filename o' ∈ D) →
    obs_filename o ∈ D →
    (∀ k e, get k (set key (new_entry o (final_name_correction info) old) apps)
              = Some e →
       s_filename e ∈ D ∧ s_filename e ∈ all
       ∧ s_filename e ∉ map obs_filename rest)
    ∧ (∀ k1 k2 e1 e2,
         get k1 (set key (new_entry o (final_name_correction info) old) apps)
           = Some e1 →
         get k2 (set key (new_entry o (final_name_correction info) old) apps)
           = Some e2 →
         s_filename e1 = s_filename e2 → k1 = k2)
    ∧ (∀ o', o' ∈ rest → obs_filename o' ∈ D ∧ obs_filename o' ∈ all)) as Hset.
  { intros old D HD Hrest HoD. split_and!.
    - intros k e. destruct (decide (k = key)) as [->|Hne].
      + rewrite get_set_eq. intros [= <-]. by simpl.
      + rewrite get_set_ne by done. intros Hget.
        destruct (Hfiles k e Hget) as (? & ? & Hn).
        split_and!; [by eapply HD | done |]. intros Hin. apply Hn. by right.
    - intros k1 k2 e1 e2.
      destruct (decide (k1 = key)) as [->|Hne1];
        destruct (decide (k2 = key)) as [->|Hne2]; [done| | |].
      + rewrite get_set_eq, get_set_ne by done. intros [= <-] Hget. simpl.
        intros Heq. destruct (Hfiles k2 e2 Hget) as (_ & _ & Hn).
        exfalso. apply Hn. rewrite <- Heq. by left.
      + rewrite get_set_eq, get_set_ne by done. intros Hget [= <-]. simpl.
        intros Heq. destruct (Hfiles k1 e1 Hget) as (_ & _ & Hn).
        exfalso. apply Hn. rewrite Heq. by left.
      + rewrite !get_set_ne by done. apply Hinj.
    - intros o' Hin. split; [by apply Hrest|]. apply Hlater. by right. }
  destruct (get key apps) as [resident|] eqn:Hget.
  - destruct (compare_versions (version info) (s_version resident) _ _)
      as [newer|]; [|done]. cbn [bind].
    destruct newer; skip_log; intros [= <-]; cbn [fst snd].
    + destruct (Hfiles key resident Hget) as (Hr_in & Hr_all & Hr_later).
      split.
      * apply Hset.
        -- intros k e Hk Hne. apply elem_of_difference. split; [by eapply Hfiles|].
           rewrite elem_of_singleton. intros Heq. apply Hne.
           by apply (Hinj k key e resident).
        -- intros o' Hin. apply elem_of_difference. split; [apply Hlater; by right|].
           rewrite elem_of_singleton. intros Heq. apply Hr_later. right.
           rewrite <- Heq. by apply list_elem_of_fmap_2.
        -- apply elem_of_difference. split; [done|].
           rewrite elem_of_singleton. intros Heq. apply Hr_later. rewrite <- Heq.
           by left.
      * intros f Hf Hnot. apply elem_of_difference. split; [done|].
        rewrite elem_of_singleton. by intros ->.
    + split; [|done]. split_and!; [|done|].
      * intros k e Hk. destruct (Hfiles k e Hk) as (? & ? & Hn).
        split_and!; [done | done |]. intros Hin. apply Hn. by right.
      * intros o' Hin. apply Hlater. by right.
  - intros [= <-]. cbn [fst snd]. split; [|done]. apply Hset.
    + intros k e Hk _. by eapply Hfiles.
    + intros o' Hin. apply Hlater. by right.
    + done.
Qed.

Lemma pass1_files (all : list string) observations : ∀ st st',
  NoDup (map obs_filename observations) →
  (∀ k e, get k st.1 = Some e →
     s_filename e ∈ st.2 ∧ s_filename e ∈ all
     ∧ s_filename e ∉ map obs_filename observations) →
  (∀ k1 k2 e1 e2, get k1 st.1 = Some e1 → get k2 st.1 = Some e2 →
     s_filename e1 = s_filename e2 → k1 = k2) →
  (∀ o', o' ∈ observations → obs_filename o' ∈ st.2 ∧ obs_filename o' ∈ all) →
  pass1 fromtimestamp st observations = Returns st' →
  (∀ k e, get k st'.1 = Some e → s_filename e ∈ st'.2 ∧ s_filename e ∈ all)
  ∧ (∀ k1 k2 e1 e2, get k1 st'.1 = Some e1 → get k2 st'.1 = Some e2 →
       s_filename e1 = s_filename e2 → k1 = k2)
  ∧ (∀ f, f ∈ st.2 → f ∉ all → f ∈ st'.2).
Proof.
  induction observations as [|o rest IH]; intros st st' Hnd Hfiles Hinj Hlater; simpl.
  - intros [= <-]. split_and!; [|done|done].
    intros k e Hk. destruct (Hfiles k e Hk) as (? & ? & _). done.
  - destruct (pass1_step fromtimestamp st o) as [st1|] eqn:Hstep; [|done]. cbn [bind]. intros Hrest.
    destruct (pass1_step_files all st o st1 rest Hnd) as [(H1 & H2 & H3) Hkeep];
      [done | done |].
    destruct (IH st1 st') as (Hf & Hi & Hk); try done.
    { by apply NoDup_cons in Hnd as [_ ?]. }
    split_and!; [done | done |]. intros f Hf0 Hnot. apply Hk; [|done].
    by apply Hkeep.
Qed.

End Pass1Order.

(** X4. Pass 1 keeps, for every identity key, an entry that no scanned
    file of that key outranks: when every scanned version parses, each
    file with metadata finds its key in the final map, and
    [compare_versions] (with the timestamps) does not rank the file above
    the entry kept. *)
Theorem pass1_keeps_newest (fromtimestamp : Z → outcome string)
    (observations : list observation)
    (downloads : gset string) (st' : pass1_state) :
  (∀ o info, o ∈ observations → obs_info o = Some info →
     ∃ p, version_parts (version info) = Returns p) →
  pass1 fromtimestamp ([], downloads) observations = Returns st' →
  ∀ o info, o ∈ observations → obs_info o = Some info →
    ∃ e, get (unique_app_key (bundleIdentifier info) (obs_best_tweak o)) st'.1
           = Some e
         ∧ compare_versions (version info) (s_version e)
             (Some (obs_timestamp o)) (Some (s_timestamp e)) = Returns false.
Proof.
  intros Hall Hrun.
  apply (pass1_newest fromtimestamp observations ([], downloads) [] st'); try done.
  intros o' info []%elem_of_nil.
Qed.

Lemma pass1_keeps_newest_witness :
  ∃ e, get "com.x.app" [("com.x.app",
                          new_entry file_405
                            {| bundleIdentifier := "com.x.app"; name := "App";
                               version := "405.1.0"; size := 1 |}
                            (Some "App v404.0.0.ipa"))] = Some e
       ∧ compare_versions "404.0.0" (s_version e) (Some 100) (Some (s_timestamp e))
           = Returns false.
Proof.
  apply (pass1_keeps_newest fromtimestamp [file_404; file_405] both_files
           ([("com.x.app",
              new_entry file_405
                {| bundleIdentifier := "com.x.app"; name := "App";
                   version := "405.1.0"; size := 1 |}
                (Some "App v404.0.0.ipa"))],
            both_files ∖ {["App v404.0.0.ipa"]}))
    with (o := file_404)
         (info := {| bundleIdentifier := "com.x.app"; name := "App";
                     version := "404.0.0"; size := 1 |}).
  - intros o info [->|[->|[]%elem_of_nil]%elem_of_cons]%elem_of_cons [= <-];
      eexists; reflexivity.
  - reflexivity.
  - by left.
  - reflexivity.
Defined.

(** X5. Pass 1 deletes no file it still needs: when the scanned file
    names are distinct and all in the download directory, then at the end
    the file of every entry of the map is still in the directory, no two
    entries share a file, and every file of the directory that was not
    scanned is still there. *)
Theorem pass1_keeps_files (fromtimestamp : Z → outcome string)
    (observations : list observation)
    (downloads : gset string) (st' : pass1_state) :
  NoDup (map obs_filename observations) →
  (∀ o, o ∈ observations → obs_filename o ∈ downloads) →
  pass1 fromtimestamp ([], downloads) observations = Returns st' →
  (∀ k e, get k st'.1 = Some e →
     s_filename e ∈ st'.2 ∧ s_filename e ∈ map obs_filename observations)
  ∧ (∀ k1 k2 e1 e2, get k1 st'.1 = Some e1 → get k2 st'.1 = Some e2 →
       s_filename e1 = s_filename e2 → k1 = k2)
  ∧ (∀ f, f ∈ downloads → f ∉ map obs_filename observations → f ∈ st'.2).
Proof.
  intros Hnd Hin Hrun.
  apply (pass1_files fromtimestamp (map obs_filename observations) observations
           ([], downloads) st'); try done.
  intros o Ho. split; [by apply Hin | by apply list_elem_of_fmap_2].
Qed.

Lemma pass1_keeps_files_witness :
  let st' := ([("com.x.app",
                new_entry file_405
                  {| bundleIdentifier := "com.x.app"; name := "App";
                     version := "405.1.0"; size := 1 |}
                  (Some "App v404.0.0.ipa"))],
              both_files ∖ {["App v404.0.0.ipa"]}) in
  (∀ k e, get k st'.1 = Some e →
     s_filename e ∈ st'.2
     ∧ s_filename e ∈ map obs_filename [file_404; file_405])
  ∧ (∀ k1 k2 e1 e2, get k1 st'.1 = Some e1 → get k2 st'.1 = Some e2 →
       s_filename e1 = s_filename e2 → k1 = k2)
  ∧ (∀ f, f ∈ both_files → f ∉ map obs_filename [file_404; file_405] → f ∈ st'.2).
Proof.
  apply (pass1_keeps_files fromtimestamp [file_404; file_405] both_files).
  - apply (bool_decide_unpack _). by vm_compute.
  - intros o [->|[->|[]%elem_of_nil]%elem_of_cons]%elem_of_cons;
      apply (bool_decide_unpack _); by vm_compute.
  - reflexivity.
Defined.

(** ** What the merge and the republish leave behind *)

Section MergeOnce.

Lemma Forall_set {V : Type} (P : string * V → Prop) k v (d : odict V) :
  Forall P d → P (k, v) → Forall P (set k v d).
Proof.
  intros Hd Hkv. induction d as [|[k' v'] d IH]; simpl.
  - by constructor.
  - apply Forall_cons in Hd as [Hhd Htl].
    destruct (String.eqb_spec k k') as [->|Hne]; constructor; auto.
Qed.

Lemma elem_of_keys_set {V : Type} k k' v (d : odict V) :
  k' ∈ keys (set k v d) ↔ k' = k ∨ k' ∈ keys d.
Proof.
  destruct (get k d) as [v0|] eqn:Hget.
  - rewrite keys_set_present by (by eapply get_Some_keys).
    split; [by right|]. intros [->|?]; [by eapply get_Some_keys | done].
  - rewrite (set_absent _ _ _ Hget), keys_app. simpl.
    rewrite elem_of_app, list_elem_of_singleton. tauto.
Qed.

Lemma keys_set_prefix {V : Type} k v (d : odict V) :
  ∃ more, keys (set k v d) = keys d ++ more.
Proof.
  destruct (get k d) as [v0|] eqn:Hget.
  - exists []. rewrite app_nil_r. apply keys_set_present. by eapply get_Some_keys.
  - exists [k]. by rewrite (set_absent _ _ _ Hget), keys_app.
Qed.

Lemma pass2_step_spec apps a :
  ∃ apps', pass2_step apps a = Returns apps'
    ∧ (apps' = apps ∨ apps' = set (existing_key a) (carried a).2 apps)
    ∧ (∀ k, k ∈ keys apps' ↔ k = existing_key a ∨ k ∈ keys apps).
Proof.
  unfold pass2_step. fold (existing_key a).
  destruct (get (existing_key a) apps) as [resident|] eqn:Hget.
  - edestruct compare_versions_returns as [older ->]. cbn [bind].
    destruct older; eexists; (split; [done|]).
    + split; [by right | intros k; apply elem_of_keys_set].
    + split; [by left|]. intros k. split; [by right|].
      intros [->|?]; [by eapply get_Some_keys | done].
  - eexists. split; [done|]. split; [by right | intros k; apply elem_of_keys_set].
Qed.

(** Pass 2 completes; the merged map has one entry per key, the keys of
    the scanned map first and in place, and no key is lost or invented;
    what it adds are catalog apps under their own keys. *)
Lemma pass2_spec (P : string * entry → Prop) catalog : ∀ apps,
  NoDup (keys apps) → Forall P apps → (∀ a, a ∈ catalog → P (carried a)) →
  ∃ apps', pass2 apps catalog = Returns apps'
    ∧ NoDup (keys apps')
    ∧ Forall P apps'
    ∧ (∀ k, k ∈ keys apps' ↔ k ∈ keys apps ∨ k ∈ map existing_key catalog)
    ∧ (∃ more, keys apps' = keys apps ++ more).
Proof.
  induction catalog as [|a catalog IH]; intros apps Hnd HP Hcat; simpl.
  - exists apps. split_and!; [done | done | done | | exists []; by rewrite app_nil_r].
    intros k. split; [by left|]. by intros [?|?%elem_of_nil].
  - destruct (pass2_step_spec apps a) as (apps1 & -> & Hcase & Hkeys1). cbn [bind].
    destruct (IH apps1) as (apps' & Hrun & Hnd' & HP' & Hkeys' & [more Hpre]).
    + destruct Hcase as [->| ->]; [done | by apply NoDup_keys_set].
    + destruct Hcase as [->| ->]; [done|]. apply Forall_set; [done|].
      apply (Hcat a). by left.
    + intros b Hb. apply Hcat. by right.
    + exists apps'. split_and!; [done | done | done | |].
      * intros k. rewrite Hkeys', Hkeys1, elem_of_cons. tauto.
      * destruct Hcase as [->| ->]; [by exists more|].
        destruct (keys_set_prefix (existing_key a) (carried a).2 apps) as [m1 Hm1].
        exists (m1 ++ more). by rewrite Hpre, Hm1, <- app_assoc.
Qed.

Lemma carried_list (catalog : list app) (d : odict entry) :
  Forall (λ kv, ∃ a, a ∈ catalog ∧ kv = carried a) d →
  ∃ l, d = map carried l ∧ ∀ a, a ∈ l → a ∈ catalog.
Proof.
  induction 1 as [|kv d (a & Ha & ->) _ (l & -> & Hl)].
  - exists []. split; [done|]. by intros a ?%elem_of_nil.
  - exists (a :: l). split; [done|].
    intros b [->|Hb]%elem_of_cons; [done | by apply Hl].
Qed.

End MergeOnce.

Section RepublishOnce.

Variable unquote : string → string.
Variable publish_scanned : string → scanned → option app.
Variable current_release_assets : gset string.

Local Abbreviation republish :=
  (republish unquote publish_scanned current_release_assets).

Lemma republish_carried_filter (l : list app) :
  republish [] (map carried l)
  = List.filter (λ a, nonempty (app_downloadURL a)
        && bool_decide (filename_from_url unquote (app_downloadURL a)
                          ∈ current_release_assets)) l.
Proof.
  induction l as [|a l IH]; simpl; [done|].
  rewrite republish_acc, IH.
  destruct (nonempty (app_downloadURL a)); simpl; [|done].
  by destruct (bool_decide _).
Qed.

End RepublishOnce.

Section FilterFacts.

Lemma NoDup_map_filter {A B : Type} (f : A → B) (p : A → bool) (l : list A) :
  NoDup (map f l) → NoDup (map f (List.filter p l)).
Proof.
  induction l as [|x l IH]; simpl; [done|].
  intros [Hx Hnd]%NoDup_cons. destruct (p x); simpl; [|by apply IH].
  apply NoDup_cons. split; [|by apply IH].
  intros (y & Hy & Hin)%list_elem_of_fmap. apply Hx. rewrite Hy.
  apply list_elem_of_fmap_2. apply list_elem_of_In in Hin.
  apply filter_In in Hin as [Hin _]. by apply list_elem_of_In.
Qed.

Lemma keys_map_carried (l : list app) : keys (map carried l) = map existing_key l.
Proof. unfold keys. rewrite map_map. done. Qed.

End FilterFacts.

(** X6. Pass 2 loses no identity key: from any scanned map with one
    entry per key and any published catalog it completes, and the merged
    map has one entry per key, exactly the keys of the scanned map and of
    the catalog apps, the scanned keys first and at their places. *)
Theorem pass2_keeps_every_key (apps : odict entry) (catalog : list app) :
  NoDup (keys apps) →
  ∃ apps', pass2 apps catalog = Returns apps'
    ∧ NoDup (keys apps')
    ∧ (∀ k, k ∈ keys apps' ↔ k ∈ keys apps ∨ k ∈ map existing_key catalog)
    ∧ (∃ more, keys apps' = keys apps ++ more).
Proof.
  intros Hnd.
  destruct (pass2_spec (λ _, True) catalog apps) as (apps' & ? & ? & _ & ? & ?);
    [done | by apply Forall_forall | done |].
  by exists apps'.
Qed.

Lemma pass2_keeps_every_key_witness :
  ∃ apps', pass2 [("com.x.app", Existing
                     {| app_name := "App"; app_bundleIdentifier := "com.x.app";
                        app_developerName := ""; app_iconURL := "";
                        app_localizedDescription := ""; app_version := "1.0";
                        app_versionDate := ""; app_size := 1;
                        app_downloadURL := "" |} "1.0" None)]
               [{| app_name := "App (Theta)"; app_bundleIdentifier := "com.x.app";
                   app_developerName := ""; app_iconURL := "";
                   app_localizedDescription := ""; app_version := "2.0";
                   app_versionDate := ""; app_size := 1;
                   app_downloadURL := "" |}] = Returns apps'
    ∧ NoDup (keys apps')
    ∧ (∀ k, k ∈ keys apps' ↔
         k ∈ ["com.x.app"] ∨ k ∈ ["com.x.app:Theta"])
    ∧ (∃ more, keys apps' = ["com.x.app"] ++ more).
Proof.
  apply (pass2_keeps_every_key
           [("com.x.app", Existing
               {| app_name := "App"; app_bundleIdentifier := "com.x.app";
                  app_developerName := ""; app_iconURL := "";
                  app_localizedDescription := ""; app_version := "1.0";
                  app_versionDate := ""; app_size := 1;
                  app_downloadURL := "" |} "1.0" None)]).
  apply (bool_decide_unpack _). by vm_compute.
Defined.

(** X7. One run with no new file reaches a fixed point, whatever the
    published catalog holds: the array it writes is made of catalog
    entries with pairwise distinct keys whose binaries are in the release,
    and running again over that array, with the same release assets,
    writes the same array. *)
Theorem rerun_reaches_fixed_point (unquote : string → string)
    (publish_scanned : string → scanned → option app)
    (fromtimestamp : Z → outcome string)
    (current_release_assets downloads : gset string) (catalog : list app) :
  ∃ catalog',
    update_repo_json unquote publish_scanned current_release_assets fromtimestamp []
      downloads
      (Some catalog) = Returns catalog'
    ∧ update_repo_json unquote publish_scanned current_release_assets fromtimestamp []
      downloads
        (Some catalog') = Returns catalog'
    ∧ NoDup (map existing_key catalog')
    ∧ ∀ a, a ∈ catalog' →
        a ∈ catalog ∧ app_downloadURL a ≠ ""
        ∧ filename_from_url unquote (app_downloadURL a) ∈ current_release_assets.
Proof.
  unfold update_repo_json. simpl.
  destruct (pass2_spec (λ kv, ∃ a, a ∈ catalog ∧ kv = carried a) catalog [])
    as (d & -> & Hnd & HP & _ & _);
    [apply NoDup_nil_2 | done | by eauto |].
  destruct (carried_list catalog d HP) as (l & -> & Hl). cbn [bind].
  rewrite republish_carried_filter. set (kept := List.filter _ l).
  rewrite keys_map_carried in Hnd.
  assert (NoDup (map existing_key kept)) as Hnd' by (by apply NoDup_map_filter).
  assert (∀ a, a ∈ kept →
            a ∈ catalog ∧ app_downloadURL a ≠ ""
            ∧ filename_from_url unquote (app_downloadURL a) ∈ current_release_assets)
    as Hkept.
  { intros a Ha. apply list_elem_of_In in Ha. apply filter_In in Ha as [Ha Hp].
    apply andb_true_iff in Hp as [Hurl Hasset].
    split_and!; [by apply Hl, list_elem_of_In | | by apply bool_decide_eq_true in Hasset].
    intros Heq. by rewrite Heq in Hurl. }
  exists kept. split_and!; [done | | done | done].
  rewrite pass2_fresh by done. cbn [bind List.app]. f_equal.
  apply republish_carried. intros a Ha. by destruct (Hkept a Ha) as (_ & ? & ?).
Qed.

(** ** The published entry, read back by the next run *)

Section PublishedFacts.

Lemma tweak_in_name_skip p s :
  forallb_str (λ c, negb (is_lparen c)) p = true →
  tweak_in_name (p +:+ s) = tweak_in_name s.
Proof.
  induction p as [|c p IH]; intros Hp; [by rewrite str_app_nil_l|].
  simpl in Hp. apply andb_true_iff in Hp as [Hc Hp]. apply negb_true_iff in Hc.
  rewrite str_app_cons. simpl. rewrite Hc. by apply IH.
Qed.

Lemma until_rparen_body t rest :
  forallb_str (λ c, negb (is_rparen c)) t = true →
  until_rparen (t +:+ String ")" rest) = Some (t, rest).
Proof.
  induction t as [|c t IH]; intros Ht; [by rewrite str_app_nil_l|].
  simpl in Ht. apply andb_true_iff in Ht as [Hc Ht]. apply negb_true_iff in Hc.
  rewrite str_app_cons. simpl. rewrite Hc. by rewrite IH.
Qed.

Lemma tweak_in_final_name base t :
  forallb_str (λ c, negb (is_lparen c)) base = true →
  forallb_str (λ c, negb (is_rparen c)) (default "" t) = true →
  tweak_in_name (final_name base t) = if truthy t then t else None.
Proof.
  intros Hbase Ht. unfold final_name. destruct (truthy t) eqn:Htruthy.
  - destruct t as [s|]; [|done]. simpl in *.
    rewrite (tweak_in_name_skip base) by done.
    change (" (" +:+ s +:+ ")") with (String " " (String "(" (s +:+ ")"))).
    cbn [tweak_in_name]. change (is_lparen " ") with false.
    change (is_lparen "(") with true. cbn iota.
    rewrite (until_rparen_body s "" Ht). by rewrite Htruthy.
  - rewrite <- (str_app_nil_r base). rewrite tweak_in_name_skip by done. done.
Qed.

Lemma split_on_none sep s :
  forallb_str (λ c, negb (sep c)) s = true → split_on sep s = [s].
Proof.
  induction s as [|c s IH]; intros Hs; [done|].
  simpl in Hs. apply andb_true_iff in Hs as [Hc Hs]. apply negb_true_iff in Hc.
  simpl. by rewrite Hc, IH.
Qed.

Lemma last_or_snoc {A : Type} (d x : A) l : last_or d (l ++ [x]) = x.
Proof. revert d. induction l as [|y l IH]; intros d; simpl; [done | apply IH]. Qed.

Lemma last_segment p q :
  forallb_str (λ c, negb (is_slash c)) q = true →
  last_or "" (split_on is_slash (p +:+ "/" +:+ q)) = q.
Proof.
  intros Hq. change ("/" +:+ q) with (String "/" q).
  rewrite (split_on_app is_slash p "/" q eq_refl), (split_on_none _ q Hq).
  apply last_or_snoc.
Qed.

Lemma quote_char_no_slash c :
  is_slash c = false → forallb_str (λ c, negb (is_slash c)) (quote_char c) = true.
Proof. destruct c as [[] [] [] [] [] [] [] []]; by vm_compute. Qed.

Lemma quote_no_slash f :
  forallb_str (λ c, negb (is_slash c)) f = true →
  forallb_str (λ c, negb (is_slash c)) (quote f) = true.
Proof.
  induction f as [|c f IH]; intros Hf; [done|].
  simpl in Hf. apply andb_true_iff in Hf as [Hc Hf]. apply negb_true_iff in Hc.
  simpl. rewrite forallb_str_app, (quote_char_no_slash c Hc). by apply IH.
Qed.

Lemma unquote_quote_char c s :
  (code c <? 128)%N = true →
  unquote_ascii (quote_char c +:+ s) = String c (unquote_ascii s).
Proof.
  destruct c as [[] [] [] [] [] [] [] []]; intros H;
    first [discriminate H | reflexivity].
Qed.

Lemma unquote_quote f :
  forallb_str (λ c, (code c <? 128)%N) f = true → unquote_ascii (quote f) = f.
Proof.
  induction f as [|c f IH]; intros Hf; [done|].
  simpl in Hf. apply andb_true_iff in Hf as [Hc Hf].
  simpl. by rewrite unquote_quote_char, IH.
Qed.

Lemma forallb_str_and p q s :
  forallb_str (λ c, p c && q c) s = forallb_str p s && forallb_str q s.
Proof.
  induction s as [|c s IH]; simpl; [done|]. rewrite IH.
  destruct (p c), (q c), (forallb_str p s); done.
Qed.

Lemma filename_of_download_url repo_url RELEASE_TAG f :
  forallb_str (λ c, (code c <? 128)%N && negb (is_slash c)) f = true →
  filename_from_url unquote_ascii (download_url repo_url RELEASE_TAG f) = f.
Proof.
  rewrite forallb_str_and. intros [Hascii Hslash]%andb_true_iff.
  unfold filename_from_url, download_url.
  rewrite <- (str_app_assoc "/releases/download/" RELEASE_TAG).
  rewrite <- (str_app_assoc repo_url).
  rewrite last_segment by (by apply quote_no_slash).
  by apply unquote_quote.
Qed.

Lemma nonempty_app_cons a c b : nonempty (a +:+ String c b) = true.
Proof. destruct a; [by rewrite str_app_nil_l | by rewrite str_app_cons]. Qed.

End PublishedFacts.

Section UrlFacts.




(** A segment without percent sign decodes to itself. *)
Lemma decoded_plain_text s :
  forallb_str (λ c, negb (is_percent c)) s = true → UrlSpec.decoded s s.
Proof.
  induction s as [|c s IH]; intros Hs; [constructor|].
  simpl in Hs. apply andb_true_iff in Hs as [Hc Hs].
  apply UrlSpec.decoded_plain; [|by apply IH].
  intros (h1 & h2 & rest & [= -> _] & _). discriminate Hc.
Qed.

End UrlFacts.



Lemma str_app_inj_r s s' t : s +:+ t = s' +:+ t → s = s'.
Proof.
  intros Heq. apply (str_app_same_length s s' t t Heq).
  apply (f_equal String.length) in Heq. rewrite !str_length_app in Heq. lia.
Qed.

Lemma unique_app_key_bundle_inj b1 b2 t :
  unique_app_key b1 t = unique_app_key b2 t → b1 = b2.
Proof.
  destruct t as [[|c t]|]; simpl; [done| |done].
  apply str_app_inj_r.
Qed.

(** X8. The entry published for a scanned file (lines 1911-1919 and
    1966-1968: its name is the base name, with the tweak in parentheses
    when there is one; its bundle identifier is the one the App Store
    lookup gave, when it gave one, else the one of the file) is read
    back at the next run as follows, for a base name without opening
    parenthesis and a tweak without closing parenthesis: the trailing
    parenthetical Pass 2 reads in the name is the tweak (none for a file
    without tweak); the key of the entry is the key of the published
    bundle identifier and the tweak; and that is the key Pass 1 gave the
    file exactly when the published bundle identifier is the one of the
    file, that is, when the lookup gave none, an empty one or the same. *)
Theorem published_key_round_trip (a : app) (info : ipa_info)
    (official_bundle_id : option string) (base_name : string)
    (tweak_name : option string) :
  app_name a = final_name base_name tweak_name →
  app_bundleIdentifier a = final_bundle_id official_bundle_id info →
  forallb_str (λ c, negb (is_lparen c)) base_name = true →
  forallb_str (λ c, negb (is_rparen c)) (default "" tweak_name) = true →
  tweak_in_name (app_name a) = (if truthy tweak_name then tweak_name else None)
  ∧ existing_key a
    = unique_app_key (final_bundle_id official_bundle_id info) tweak_name
  ∧ (existing_key a = unique_app_key (bundleIdentifier info) tweak_name
     ↔ final_bundle_id official_bundle_id info = bundleIdentifier info)
  ∧ (final_bundle_id official_bundle_id info = bundleIdentifier info
     ↔ official_bundle_id = None ∨ official_bundle_id = Some ""
       ∨ official_bundle_id = Some (bundleIdentifier info)).
Proof.
  intros Hname Hbundle Hbase Ht.
  assert (tweak_in_name (app_name a) = (if truthy tweak_name then tweak_name else None))
    as Htweak by (rewrite Hname; by apply tweak_in_final_name).
  assert (existing_key a
          = unique_app_key (final_bundle_id official_bundle_id info) tweak_name)
    as Hkey.
  { unfold existing_key. rewrite Htweak, Hbundle.
    by destruct tweak_name as [[|c s]|]. }
  split_and!; [done | done | |].
  - rewrite Hkey. split; [apply unique_app_key_bundle_inj | by intros ->].
  - unfold final_bundle_id. destruct official_bundle_id as [[|c s]|]; simpl.
    + split; [by right; left | done].
    + split; [intros ->; by right; right | by intros [|[|[= <-]]]].
    + split; [by left | done].
Qed.

Lemma published_key_round_trip_witness :
  let a := {| app_name := "Instagram (Theta)"; app_bundleIdentifier := "com.x.app";
              app_developerName := "@chan"; app_iconURL := "";
              app_localizedDescription := "Instagram"; app_version := "1.0";
              app_versionDate := "2025-01-01T00:00:00Z"; app_size := 1;
              app_downloadURL := "" |} in
  tweak_in_name (app_name a) = Some "Theta"
  ∧ existing_key a = unique_app_key "com.x.app" (Some "Theta").
Proof.
  intros a.
  destruct (published_key_round_trip a
              {| name := "Instagram"; version := "1.0";
                 bundleIdentifier := "com.x.app"; size := 1 |}
              None "Instagram" (Some "Theta") eq_refl eq_refl eq_refl eq_refl)
    as (Htweak & Hkey & _).
  split; [exact Htweak | exact Hkey].
Defined.

(** When the App Store lookup gives another bundle identifier, the entry
    is published under it, and the next run reads it under a key that is
    not the one Pass 1 gave the file. *)
Example published_key_official_id :
  let info := {| name := "Instagram"; version := "1.0";
                 bundleIdentifier := "com.unknown.instagram"; size := 1 |} in
  final_bundle_id (Some "com.burbn.instagram") info = "com.burbn.instagram"
  ∧ unique_app_key (final_bundle_id (Some "com.burbn.instagram") info)
      (tweak_in_name (final_name "Instagram" (Some "Theta")))
    = "com.burbn.instagram:Theta"
  ∧ unique_app_key (bundleIdentifier info) (Some "Theta")
    = "com.unknown.instagram:Theta".
Proof. by vm_compute. Qed.

(** Without the hypothesis on the base name the keys come apart: a file
    without tweak whose name ends in a parenthetical is published under
    its bundle identifier and read back under another key. *)
Example published_key_mismatch :
  unique_app_key "com.x.app" (tweak_in_name (final_name "Notes (Beta)" None))
    = "com.x.app:Beta"
  ∧ unique_app_key "com.x.app" None = "com.x.app".
Proof. by vm_compute. Qed.

(** X9. The download URL written for an uploaded file leads back to the
    file: for a file name of ASCII characters without slash, the decoded
    last segment of the URL is the file name, so that at the next run the
    published entry is carried forward exactly when that file is among
    the release assets. *)
Theorem published_file_found_again (repo_url RELEASE_TAG filename : string)
    (publish_scanned : string → scanned → option app)
    (current_release_assets : gset string) (key : string) (a : app)
    (v : string) (t : option string) :
  forallb_str (λ c, (code c <? 128)%N && negb (is_slash c)) filename = true →
  app_downloadURL a = download_url repo_url RELEASE_TAG filename →
  filename_from_url unquote_ascii (app_downloadURL a) = filename
  ∧ republish_entry unquote_ascii publish_scanned current_release_assets key
      (Existing a v t)
    = if bool_decide (filename ∈ current_release_assets) then [a] else [].
Proof.
  intros Hname Hurl.
  assert (filename_from_url unquote_ascii (app_downloadURL a) = filename) as Hback
    by (rewrite Hurl; by apply filename_of_download_url).
  split; [done|]. unfold republish_entry. rewrite Hback.
  assert (nonempty (app_downloadURL a) = true) as ->; [|done].
  rewrite Hurl. unfold download_url.
  change ("/releases/download/" +:+ ?x) with (String "/" ("releases/download/" +:+ x)).
  apply nonempty_app_cons.
Qed.

Lemma published_file_found_again_witness :
  let a := {| app_name := "Instagram (Theta)"; app_bundleIdentifier := "com.x.app";
              app_developerName := "@chan"; app_iconURL := "";
              app_localizedDescription := "Instagram"; app_version := "1.0";
              app_versionDate := "2025-01-01T00:00:00Z"; app_size := 1;
              app_downloadURL :=
                download_url "https://example.com/o/r" "latest"
                  "Instagram v1 (Theta).ipa" |} in
  filename_from_url unquote_ascii (app_downloadURL a) = "Instagram v1 (Theta).ipa"
  ∧ republish_entry unquote_ascii (λ _ _, None) {[ "Instagram v1 (Theta).ipa" ]}
      "com.x.app:Theta" (Existing a "1.0" (Some "Theta"))
    = if bool_decide ("Instagram v1 (Theta).ipa"
                      ∈ ({[ "Instagram v1 (Theta).ipa" ]} : gset string))
      then [a] else [].
Proof.
  intros a.
  apply (published_file_found_again "https://example.com/o/r" "latest"
           "Instagram v1 (Theta).ipa"); reflexivity.
Defined.

(** ** Reconciliation *)

(** X10. Reconciliation always yields a record with a bundle identifier:
    whatever the IPA, the message and the App Store gave (or failed to
    give), the bundle identifier of the reconciled record is not empty,
    falling back on [com.unknown.<name>] at the last. *)
Theorem reconcile_bundle_id_nonempty (clean_app_name : string → string)
    (search_app_store_bundle_id : string → option string)
    (info : option ipa_info) (e : extraction) (app_name_from_file : string)
    (version_from_file : option string) (source_channel : string) (file_size : Z) :
  nonempty (bundleIdentifier
              (reconcile clean_app_name search_app_store_bundle_id info e
                 app_name_from_file version_from_file source_channel file_size))
  = true.
Proof.
  unfold reconcile.
  set (cleaned_name := clean_app_name _).
  set (temp := if truthy (ai_bundle_id e) then _ else _).
  assert (nonempty (if truthy temp then default "" temp
                    else "com.unknown." +:+ remove_char is_space (lower cleaned_name))
          = true) as Hid.
  { destruct (truthy temp) eqn:Htemp; [by destruct temp|].
    change ("com.unknown." +:+ ?x) with (String "c" ("om.unknown." +:+ x)). done. }
  destruct info as [i|]; cbn [negb orb]; [|done].
  destruct (nonempty (name i)) eqn:Hname, (nonempty (bundleIdentifier i)) eqn:Hb;
    cbn [negb orb bundleIdentifier]; rewrite ?Hb; done.
Qed.

(** X11. When the IPA gave both a name and a bundle identifier, the
    channel has no say: the reconciled record does not depend on the
    source channel (the filename-first priority of one channel included),
    on the name parsed from the filename, on the App Store or on the file
    size; the version is the message's when it has one, else the
    filename's over a placeholder, else the IPA's. *)
Theorem reconcile_ignores_channel (clean_app_name : string → string)
    (search1 search2 : string → option string) (i : ipa_info) (e : extraction)
    (name1 name2 : string) (version_from_file : option string)
    (channel1 channel2 : string) (size1 size2 : Z) :
  name i ≠ "" → bundleIdentifier i ≠ "" →
  reconcile clean_app_name search1 (Some i) e name1 version_from_file channel1 size1
  = reconcile clean_app_name search2 (Some i) e name2 version_from_file channel2 size2
  ∧ version (reconcile clean_app_name search1 (Some i) e name1 version_from_file
               channel1 size1)
    = (if truthy (version_from_message e) then default "" (version_from_message e)
       else if truthy version_from_file && is_placeholder (version i)
       then default "" version_from_file
       else version i).
Proof.
  intros Hname Hb. unfold reconcile.
  destruct (name i) as [|c n] eqn:En; [done|].
  destruct (bundleIdentifier i) as [|c' b] eqn:Eb; [done|].
  by cbn [nonempty negb orb].
Qed.

Lemma reconcile_ignores_channel_witness :
  let i := {| bundleIdentifier := "com.x.app"; name := "App"; version := "1.0";
              size := 1 |} in
  let e := {| app_name_from_message := None; version_from_message := Some "2.0";
              tweak_from_message := None; ai_bundle_id := None;
              ai_description := None |} in
  reconcile (λ n, n) (λ _, None) (Some i) e "App" (Some "3.0") "binnichtaktivsipas" 1
  = reconcile (λ n, n) (λ _, None) (Some i) e "App" (Some "3.0") "other" 1
  ∧ version (reconcile (λ n, n) (λ _, None) (Some i) e "App" (Some "3.0")
               "binnichtaktivsipas" 1)
    = "2.0".
Proof.
  intros i e.
  apply (reconcile_ignores_channel (λ n, n) (λ _, None) (λ _, None) i e "App" "App"
           (Some "3.0") "binnichtaktivsipas" "other" 1 1); done.
Defined.

(** The channel decides only when the IPA gave no usable metadata. *)
Example reconcile_channel_priority :
  let e := {| app_name_from_message := None; version_from_message := Some "2.0";
              tweak_from_message := None; ai_bundle_id := None;
              ai_description := None |} in
  version (reconcile (λ n, n) (λ _, None) None e "App" (Some "3.0")
             "binnichtaktivsipas" 1) = "3.0"
  ∧ version (reconcile (λ n, n) (λ _, None) None e "App" (Some "3.0") "other" 1)
    = "2.0".
Proof. by vm_compute. Qed.

(** ** The AltStore source as a whole *)

Section AltStoreSource.

Import AltStore.

Lemma str_app_ne s c t : s +:+ String c t ≠ s.
Proof.
  intros Heq. apply (f_equal String.length) in Heq.
  rewrite str_length_app in Heq. simpl in Heq. lia.
Qed.

Lemma str_app_inj_l s t u : s +:+ t = s +:+ u → t = u.
Proof.
  induction s as [|c s IH]; [by rewrite !str_app_nil_l|].
  rewrite !str_app_cons. intros [= H]. by apply IH.
Qed.

Lemma converted_bundle_id a known_tweaks :
  sa_bundleIdentifier (convert_app_to_altstore_format a known_tweaks)
  = create_unique_bundle_id (sa_bundleIdentifier a)
      (extract_tweak_from_name (sa_name a) known_tweaks).2.
Proof.
  unfold convert_app_to_altstore_format.
  by destruct (extract_tweak_from_name (sa_name a) known_tweaks).
Qed.

Lemma converted_name a known_tweaks :
  sa_name (convert_app_to_altstore_format a known_tweaks) = sa_name a.
Proof.
  unfold convert_app_to_altstore_format.
  by destruct (extract_tweak_from_name (sa_name a) known_tweaks).
Qed.

Lemma create_unique_bundle_id_changed b t :
  String.eqb (create_unique_bundle_id b t) b = negb (truthy t).
Proof.
  unfold create_unique_bundle_id. destruct (truthy t); simpl.
  - apply String.eqb_neq. change ("." +:+ ?x) with (String "." x). apply str_app_ne.
  - apply String.eqb_refl.
Qed.

End AltStoreSource.

(** X12. The conversion keeps the apps of the source, in number, order
    and name, and the count [main] reports as apps with unique bundle
    IDs is the number of apps whose bundle identifier the conversion
    changed. *)
Theorem modified_count_counts_changes (apps : list AltStore.source_app)
    (known_tweaks : list string) :
  length (AltStore.altstore_apps apps known_tweaks) = length apps
  ∧ map AltStore.sa_name (AltStore.altstore_apps apps known_tweaks)
    = map AltStore.sa_name apps
  ∧ AltStore.modified_count (AltStore.altstore_apps apps known_tweaks) known_tweaks
    = length (List.filter
                (λ a, negb (String.eqb
                              (AltStore.sa_bundleIdentifier
                                 (AltStore.convert_app_to_altstore_format a known_tweaks))
                              (AltStore.sa_bundleIdentifier a)))
                apps).
Proof.
  unfold AltStore.altstore_apps, AltStore.modified_count. split_and!.
  - apply length_map.
  - rewrite map_map. apply map_ext. intros a. apply converted_name.
  - induction apps as [|a apps IH]; [done|]. simpl.
    rewrite converted_name, converted_bundle_id, create_unique_bundle_id_changed,
      negb_involutive.
    destruct (truthy _); simpl; by rewrite IH.
Qed.

(** X13. Two apps that share a bundle identifier get the same identifier
    from the conversion exactly when both name no registry tweak, or
    both name one and the two are equal once in lower case; a tweaked
    and an untweaked copy, or copies with two tweaks, are told apart. *)
Theorem altstore_ids_collide_iff (a1 a2 : AltStore.source_app)
    (known_tweaks : list string) :
  AltStore.sa_bundleIdentifier a1 = AltStore.sa_bundleIdentifier a2 →
  let t1 := (AltStore.extract_tweak_from_name (AltStore.sa_name a1) known_tweaks).2 in
  let t2 := (AltStore.extract_tweak_from_name (AltStore.sa_name a2) known_tweaks).2 in
  AltStore.sa_bundleIdentifier (AltStore.convert_app_to_altstore_format a1 known_tweaks)
  = AltStore.sa_bundleIdentifier (AltStore.convert_app_to_altstore_format a2 known_tweaks)
  ↔ truthy t1 = truthy t2
    ∧ (truthy t1 = true → lower (default "" t1) = lower (default "" t2)).
Proof.
  intros Hid t1 t2. rewrite !converted_bundle_id. fold t1 t2. rewrite <- Hid.
  unfold AltStore.create_unique_bundle_id.
  destruct (truthy t1) eqn:H1, (truthy t2) eqn:H2; simpl.
  - split.
    + intros Heq%str_app_inj_l%str_app_inj_l. done.
    + intros [_ Heq]. by rewrite (Heq eq_refl).
  - split; [|by intros [? _]]. intros Heq.
    exfalso. by apply (str_app_ne (AltStore.sa_bundleIdentifier a1) "."
                         (lower (default "" t1))).
  - split; [|by intros [? _]]. intros Heq.
    exfalso. by apply (str_app_ne (AltStore.sa_bundleIdentifier a1) "."
                         (lower (default "" t2))).
  - split; [done | by intros _].
Qed.

Lemma altstore_ids_collide_iff_witness :
  let app n := {| AltStore.sa_name := n; AltStore.sa_bundleIdentifier := "com.x.app";
                  AltStore.sa_developerName := ""; AltStore.sa_localizedDescription := "";
                  AltStore.sa_iconURL := ""; AltStore.sa_versions := [];
                  AltStore.sa_appPermissions := []; AltStore.sa_subtitle := None;
                  AltStore.sa_tintColor := None; AltStore.sa_category := None;
                  AltStore.sa_screenshots := None |} in
  AltStore.sa_bundleIdentifier
    (AltStore.convert_app_to_altstore_format (app "Instagram (Theta)") ["Theta"])
  = AltStore.sa_bundleIdentifier
      (AltStore.convert_app_to_altstore_format (app "Instagram (theta)") ["Theta"])
  ↔ truthy (AltStore.extract_tweak_from_name "Instagram (Theta)" ["Theta"]).2
    = truthy (AltStore.extract_tweak_from_name "Instagram (theta)" ["Theta"]).2
    ∧ (truthy (AltStore.extract_tweak_from_name "Instagram (Theta)" ["Theta"]).2 = true →
       lower (default "" (AltStore.extract_tweak_from_name "Instagram (Theta)" ["Theta"]).2)
       = lower (default "" (AltStore.extract_tweak_from_name "Instagram (theta)" ["Theta"]).2)).
Proof.
  intros app.
  apply (altstore_ids_collide_iff (app "Instagram (Theta)") (app "Instagram (theta)")
           ["Theta"]).
  reflexivity.
Defined.

(** Across bundle identifiers the conversion can make two apps collide:
    the tweaked copy of [com.x.app] and a plain app [com.x.app.theta]. *)
Example altstore_ids_can_collide :
  let app n b := {| AltStore.sa_name := n; AltStore.sa_bundleIdentifier := b;
                    AltStore.sa_developerName := ""; AltStore.sa_localizedDescription := "";
                    AltStore.sa_iconURL := ""; AltStore.sa_versions := [];
                    AltStore.sa_appPermissions := []; AltStore.sa_subtitle := None;
                    AltStore.sa_tintColor := None; AltStore.sa_category := None;
                    AltStore.sa_screenshots := None |} in
  map AltStore.sa_bundleIdentifier
    (AltStore.altstore_apps [app "Instagram (Theta)" "com.x.app";
                             app "Other" "com.x.app.theta"] ["Theta"])
  = ["com.x.app.theta"; "com.x.app.theta"].
Proof. by vm_compute. Qed.

(** ** The cleaner's own version comparison *)

Section CleanerVersions.

Lemma list_eq_not_gt p q : list_eq p q = true → list_gt p q = false.
Proof.
  intros Heq%list_eq_lexicographic.
  destruct (list_gt p q) eqn:Hgt; [|done].
  apply list_gt_lexicographic in Hgt. congruence.
Qed.

Lemma str_gt_irrefl v : str_gt v v = false.
Proof.
  unfold str_gt. pose proof (String.compare_antisym v v) as H.
  by destruct (String.compare v v).
Qed.

Lemma version_parts_word v :
  forallb_str (λ c, negb (isspace c)) v = true → v ≠ "" →
  Scraper.version_parts v = CleanDuplicates.version_parts v.
Proof.
  intros Hword Hne. unfold Scraper.version_parts, CleanDuplicates.version_parts.
  by rewrite (split_word v Hword Hne).
Qed.

End CleanerVersions.

(** X14. The cleaner and the scraper rank versions alike on single
    words: for two non-empty versions without whitespace, the cleaner's
    [compare_versions] returns what the scraper's returns without
    timestamps. (They part on a version with a second word, which the
    scraper drops and the cleaner parses.) *)
Theorem cleaner_compare_versions_agrees (v1 v2 : string) :
  forallb_str (λ c, negb (isspace c)) v1 = true → v1 ≠ "" →
  forallb_str (λ c, negb (isspace c)) v2 = true → v2 ≠ "" →
  CleanDuplicates.compare_versions v1 v2 = Scraper.compare_versions v1 v2 None None.
Proof.
  intros H1 N1 H2 N2.
  unfold CleanDuplicates.compare_versions, Scraper.compare_versions.
  rewrite !version_parts_word by done.
  destruct (CleanDuplicates.version_parts v1) as [p1|]; cbn [bind try_except].
  - destruct (CleanDuplicates.version_parts v2) as [p2|]; cbn [bind try_except].
    + f_equal. unfold compare_parts. cbn zeta.
      destruct (list_eq _ _) eqn:Heq; [|done]. by apply list_eq_not_gt.
    + f_equal. unfold compare_strings.
      destruct (String.eqb_spec v1 v2) as [->|]; [apply str_gt_irrefl | done].
  - f_equal. unfold compare_strings.
    destruct (String.eqb_spec v1 v2) as [->|]; [apply str_gt_irrefl | done].
Qed.

Lemma cleaner_compare_versions_agrees_witness :
  CleanDuplicates.compare_versions "405.1.0" "404.0.0-beta"
  = Scraper.compare_versions "405.1.0" "404.0.0-beta" None None.
Proof.
  apply cleaner_compare_versions_agrees; done.
Defined.

Example cleaner_compare_versions_differs :
  Scraper.compare_versions "1.2 beta" "1.1" None None = Returns true
  ∧ CleanDuplicates.compare_versions "1.2 beta" "1.1" = Returns false.
Proof. by vm_compute. Qed.

(** ** Step 1 of the cleaner *)

Section Step1Facts.

Import CleanDuplicates.

Lemma get_elem {V : Type} k (v : V) (d : odict V) : get k d = Some v → (k, v) ∈ d.
Proof.
  induction d as [|[k' v'] d IH]; simpl; [done|].
  destruct (String.eqb_spec k k') as [->|Hne].
  - intros [= ->]. by left.
  - intros Hget. right. by apply IH.
Qed.

Lemma elem_get {V : Type} k (v : V) (d : odict V) :
  NoDup (keys d) → (k, v) ∈ d → get k d = Some v.
Proof.
  induction d as [|[k' v'] d IH]; simpl; [by intros _ ?%elem_of_nil|].
  intros [Hk Hnd]%NoDup_cons [[= -> ->]|Hin]%elem_of_cons.
  - by rewrite String.eqb_refl.
  - destruct (String.eqb_spec k k') as [->|Hne]; [|by apply IH].
    exfalso. apply Hk. by apply (list_elem_of_fmap_2 fst _ (k', v)).
Qed.

Lemma get_append_to_eq {V : Type} k (v : V) (d : odict (list V)) :
  get k (append_to k v d) = Some (default [] (get k d) ++ [v]).
Proof. unfold append_to. destruct (get k d); simpl; apply get_set_eq. Qed.

Lemma get_append_to_ne {V : Type} k k' (v : V) (d : odict (list V)) :
  k' ≠ k → get k' (append_to k v d) = get k' d.
Proof. intros Hne. unfold append_to. destruct (get k d); by apply get_set_ne. Qed.

Lemma NoDup_append_to {V : Type} k (v : V) (d : odict (list V)) :
  NoDup (keys d) → NoDup (keys (append_to k v d)).
Proof. unfold append_to. destruct (get k d); apply NoDup_keys_set. Qed.

(** Grouping with [setdefault] and [append]: a key holds the items that
    map to it, in the order they came. *)
Lemma fold_group {A : Type} (keep : A → bool) (key : A → string)
    (step : odict (list A) → A → odict (list A)) (l : list A) :
  (∀ d a, step d a = if keep a then append_to (key a) a d else d) →
  ∀ d k,
    NoDup (keys d) →
    NoDup (keys (fold_left step l d))
    ∧ get k (fold_left step l d)
      = match get k d, List.filter (λ a, keep a && String.eqb (key a) k) l with
        | Some g, new => Some (g ++ new)
        | None, [] => None
        | None, new => Some new
        end.
Proof.
  intros Hstep. induction l as [|a l IH]; intros d k Hnd; simpl.
  - split; [done|]. destruct (get k d); [by rewrite app_nil_r | done].
  - destruct (IH (step d a) k) as [Hnd' Hget].
    { rewrite Hstep. destruct (keep a); [by apply NoDup_append_to | done]. }
    split; [done|]. rewrite Hget, Hstep.
    destruct (keep a); simpl; [|done].
    destruct (String.eqb_spec (key a) k) as [<-|Hne].
    + rewrite get_append_to_eq. destruct (get (key a) d); simpl.
      * by rewrite <- app_assoc.
      * done.
    + rewrite get_append_to_ne by done. done.
Qed.

Lemma apps_by_bundle_spec apps b :
  NoDup (keys (apps_by_bundle apps))
  ∧ get b (apps_by_bundle apps)
    = match List.filter (λ a, nonempty (app_bundleIdentifier a)
                              && String.eqb (app_bundleIdentifier a) b) apps with
      | [] => None
      | g => Some g
      end.
Proof.
  unfold apps_by_bundle.
  destruct (fold_group (λ a, nonempty (app_bundleIdentifier a)) app_bundleIdentifier
              (λ d a, let bundle_id := app_bundleIdentifier a in
                      if nonempty bundle_id then append_to bundle_id a d else d)
              apps (λ _ _, eq_refl) [] b) as [Hnd Hget]; [apply NoDup_nil_2|].
  split; [exact Hnd|]. etransitivity; [exact Hget|].
  simpl. by destruct (List.filter _ _).
Qed.

Lemma app_groups_spec bundle_apps gk :
  NoDup (keys (app_groups bundle_apps))
  ∧ get gk (app_groups bundle_apps)
    = match List.filter (λ a, String.eqb (group_key a) gk) bundle_apps with
      | [] => None
      | g => Some g
      end.
Proof.
  unfold app_groups.
  destruct (fold_group (λ _, true) group_key
              (λ d a, append_to (group_key a) a d)
              bundle_apps (λ _ _, eq_refl) [] gk) as [Hnd Hget]; [apply NoDup_nil_2|].
  split; [exact Hnd|]. etransitivity; [exact Hget|].
  simpl. by destruct (List.filter _ _).
Qed.

Lemma filter_length_le {A : Type} (p : A → bool) (l : list A) :
  (length (List.filter p l) ≤ length l)%nat.
Proof. induction l as [|x l IH]; simpl; [done|]. destruct (p x); simpl; lia. Qed.

Variable sorted_newest_first : list app → list app.
Hypothesis sorted_permutation : ∀ l, sorted_newest_first l ≡ₚ l.

Local Abbreviation bundle_of a apps :=
  (List.filter (λ x, nonempty (app_bundleIdentifier x)
                     && String.eqb (app_bundleIdentifier x) (app_bundleIdentifier a))
     apps).
Local Abbreviation group_of a apps :=
  (List.filter (λ x, String.eqb (group_key x) (group_key a)) (bundle_of a apps)).

Lemma in_group_of a x apps :
  x ∈ group_of a apps ↔
  x ∈ apps ∧ app_bundleIdentifier x ≠ ""
  ∧ app_bundleIdentifier x = app_bundleIdentifier a ∧ group_key x = group_key a.
Proof.
  rewrite !list_elem_of_In, !filter_In, andb_true_iff, !String.eqb_eq.
  rewrite <- list_elem_of_In.
  assert (nonempty (app_bundleIdentifier x) = true ↔ app_bundleIdentifier x ≠ "")
    as -> by (by destruct (app_bundleIdentifier x)).
  tauto.
Qed.

(** The apps marked for removal: the tail of their sorted group, when the
    safety check lets them through. *)
Lemma removed_spec apps a :
  a ∈ apps_to_remove sorted_newest_first apps →
  app_bundleIdentifier a ≠ ""
  ∧ (1 < length (group_of a apps))%nat
  ∧ ∃ newest older,
      sorted_newest_first (group_of a apps) = newest :: older
      ∧ a ∈ older ∧ tweak_match newest a = true.
Proof.
  unfold apps_to_remove. rewrite list_elem_of_In, in_flat_map.
  intros ([b ba] & Hb & Ha). cbn [snd] in Ha.
  apply list_elem_of_In in Hb.
  destruct (apps_by_bundle_spec apps b) as [Hnd Hget].
  rewrite (elem_get _ _ _ Hnd Hb) in Hget.
  unfold removals_of_bundle in Ha.
  destruct (length ba <=? 1)%nat; [done|].
  apply in_flat_map in Ha as ([gk g] & Hg & Ha). cbn [snd] in Ha.
  apply list_elem_of_In in Hg.
  destruct (app_groups_spec ba gk) as [Hnd' Hget'].
  rewrite (elem_get _ _ _ Hnd' Hg) in Hget'.
  unfold older_versions in Ha.
  destruct (length g <=? 1)%nat eqn:Hlen; [done|]. apply Nat.leb_gt in Hlen.
  destruct (sorted_newest_first g) as [|newest older] eqn:Hsorted; [done|].
  apply filter_In in Ha as [Ha Hmatch]. apply list_elem_of_In in Ha.
  assert (a ∈ g) as Hag.
  { rewrite <- (sorted_permutation g), Hsorted. by right. }
  assert (ba = List.filter (λ x, nonempty (app_bundleIdentifier x)
                                 && String.eqb (app_bundleIdentifier x) b) apps) as Hba.
  { destruct (List.filter _ apps); [done | by injection Hget]. }
  assert (g = List.filter (λ x, String.eqb (group_key x) gk) ba) as Hgeq.
  { destruct (List.filter _ ba); [done | by injection Hget']. }
  assert (group_key a = gk ∧ app_bundleIdentifier a = b
          ∧ nonempty (app_bundleIdentifier a) = true) as (<- & <- & Hne).
  { rewrite Hgeq, list_elem_of_In, filter_In, String.eqb_eq in Hag.
    destruct Hag as [Hin ?]. split; [done|].
    rewrite Hba, filter_In, andb_true_iff, String.eqb_eq in Hin. tauto. }
  rewrite <- Hba, <- Hgeq.
  split; [by destruct (app_bundleIdentifier a)|]. split; [done|].
  by exists newest, older.
Qed.

Lemma removed_intro apps a newest older :
  app_bundleIdentifier a ≠ "" →
  (1 < length (group_of a apps))%nat →
  sorted_newest_first (group_of a apps) = newest :: older →
  a ∈ older → tweak_match newest a = true →
  a ∈ apps_to_remove sorted_newest_first apps.
Proof.
  intros Hne Hlen Hsorted Ha Hmatch.
  unfold apps_to_remove. rewrite list_elem_of_In, in_flat_map.
  exists (app_bundleIdentifier a, bundle_of a apps).
  pose proof (filter_length_le (λ x, String.eqb (group_key x) (group_key a))
                (bundle_of a apps)) as Hle.
  split.
  - apply list_elem_of_In, get_elem.
    destruct (apps_by_bundle_spec apps (app_bundleIdentifier a)) as [_ ->].
    destruct (bundle_of a apps); [simpl in Hlen; lia | done].
  - cbn [snd]. unfold removals_of_bundle.
    destruct (Nat.leb_spec (length (bundle_of a apps)) 1); [lia|].
    apply in_flat_map. exists (group_key a, group_of a apps). split.
    + apply list_elem_of_In, get_elem.
      destruct (app_groups_spec (bundle_of a apps) (group_key a)) as [_ ->].
      destruct (group_of a apps); [simpl in Hlen; lia | done].
    + cbn [snd]. unfold older_versions.
      destruct (Nat.leb_spec (length (group_of a apps)) 1); [lia|].
      rewrite Hsorted. apply filter_In. split; [by apply list_elem_of_In | done].
Qed.

Lemma in_cleaned_apps apps a :
  a ∈ cleaned_apps sorted_newest_first apps ↔
  a ∈ apps ∧ a ∉ apps_to_remove sorted_newest_first apps.
Proof.
  unfold cleaned_apps. rewrite list_elem_of_In, filter_In, negb_true_iff,
    bool_decide_eq_false, <- list_elem_of_In. done.
Qed.

Lemma NoDup_filter' {A : Type} (p : A → bool) (l : list A) :
  NoDup l → NoDup (List.filter p l).
Proof.
  induction l as [|x l IH]; simpl; [done|].
  intros [Hx Hnd]%NoDup_cons. destruct (p x); [|by apply IH].
  apply NoDup_cons. split; [|by apply IH].
  rewrite list_elem_of_In, filter_In, <- list_elem_of_In. tauto.
Qed.

(** Under distinct entries, the head of a sorted group survives. *)
Lemma newest_survives apps a newest older :
  NoDup apps → a ∈ apps → app_bundleIdentifier a ≠ "" →
  sorted_newest_first (group_of a apps) = newest :: older →
  newest ∈ cleaned_apps sorted_newest_first apps
  ∧ app_bundleIdentifier newest = app_bundleIdentifier a
  ∧ group_key newest = group_key a.
Proof.
  intros Hnd Ha Hne Hsorted.
  assert (newest ∈ group_of a apps) as Hin.
  { rewrite <- (sorted_permutation (group_of a apps)), Hsorted. by left. }
  apply in_group_of in Hin as (Hin & Hne' & Hb & Hk).
  split; [|done]. apply in_cleaned_apps. split; [done|].
  intros (_ & _ & n' & o' & Hsorted' & Hmem & _)%removed_spec.
  rewrite Hb, Hk, Hsorted in Hsorted'. injection Hsorted' as <- <-.
  assert (NoDup (newest :: older)) as Hnd'.
  { rewrite <- Hsorted, (sorted_permutation (group_of a apps)).
    by do 2 apply NoDup_filter'. }
  by apply NoDup_cons in Hnd' as [? _].
Qed.

End Step1Facts.

(** X15. Step 1 of the cleaner never empties a group: over a catalog of
    pairwise distinct entries, and whatever order the sort gives the
    group, every entry of the catalog leaves in the cleaned catalog an
    entry of its bundle identifier and group key (itself when its bundle
    identifier is empty, or when it is alone in its group). *)
Theorem cleaner_keeps_one_per_group (sorted_newest_first : list app → list app)
    (apps : list app) (a : app) :
  (∀ l, sorted_newest_first l ≡ₚ l) →
  NoDup apps → a ∈ apps →
  ∃ n, n ∈ CleanDuplicates.cleaned_apps sorted_newest_first apps
       ∧ app_bundleIdentifier n = app_bundleIdentifier a
       ∧ CleanDuplicates.group_key n = CleanDuplicates.group_key a
       ∧ (app_bundleIdentifier a = "" → n = a).
Proof.
  intros Hperm Hnd Ha.
  destruct (decide (app_bundleIdentifier a = "")) as [Hempty|Hne].
  - exists a. split_and!; try done. apply in_cleaned_apps. split; [done|].
    by intros [? _]%(removed_spec _ Hperm).
  - assert (a ∈ List.filter
                  (λ x, String.eqb (CleanDuplicates.group_key x)
                          (CleanDuplicates.group_key a))
                  (List.filter
                     (λ x, nonempty (app_bundleIdentifier x)
                           && String.eqb (app_bundleIdentifier x)
                                (app_bundleIdentifier a)) apps)) as Hin
      by (by apply in_group_of).
    rewrite <- (Hperm _) in Hin.
    destruct (sorted_newest_first _) as [|newest older] eqn:Hsorted;
      [by apply elem_of_nil in Hin|].
    destruct (newest_survives _ Hperm apps a newest older) as (? & ? & ?);
      try done.
    exists newest. split_and!; done.
Qed.

Lemma cleaner_keeps_one_per_group_witness :
  let entry v :=
    {| app_name := "Instagram (Theta)"; app_bundleIdentifier := "com.x.app";
       app_developerName := "@chan"; app_iconURL := "";
       app_localizedDescription := "Instagram"; app_version := v;
       app_versionDate := "2025-01-01T00:00:00Z"; app_size := 1;
       app_downloadURL := "https://example.com/o/r/releases/download/latest/" +:+ v |} in
  ∃ n, n ∈ CleanDuplicates.cleaned_apps (λ l, l) [entry "2.0"; entry "1.0"]
       ∧ app_bundleIdentifier n = "com.x.app"
       ∧ CleanDuplicates.group_key n = CleanDuplicates.group_key (entry "1.0")
       ∧ (app_bundleIdentifier (entry "1.0") = "" → n = entry "1.0").
Proof.
  intros entry.
  apply (cleaner_keeps_one_per_group (λ l, l) [entry "2.0"; entry "1.0"]
           (entry "1.0")).
  - intros l. reflexivity.
  - apply (bool_decide_unpack _). by vm_compute.
  - apply (bool_decide_unpack _). by vm_compute.
Defined.

(** X16. Step 1 leaves one entry per group: over a catalog of pairwise
    distinct entries in which the safety check on tweaks holds between
    the entries of a group, two entries of the cleaned catalog with the
    same non-empty bundle identifier and the same group key are one and
    the same. *)
Theorem cleaner_leaves_one_per_group (sorted_newest_first : list app → list app)
    (apps : list app) (n1 n2 : app) :
  (∀ l, sorted_newest_first l ≡ₚ l) →
  (∀ x y, x ∈ apps → y ∈ apps →
     app_bundleIdentifier x = app_bundleIdentifier y →
     CleanDuplicates.group_key x = CleanDuplicates.group_key y →
     CleanDuplicates.tweak_match x y = true) →
  n1 ∈ CleanDuplicates.cleaned_apps sorted_newest_first apps →
  n2 ∈ CleanDuplicates.cleaned_apps sorted_newest_first apps →
  app_bundleIdentifier n1 ≠ "" →
  app_bundleIdentifier n1 = app_bundleIdentifier n2 →
  CleanDuplicates.group_key n1 = CleanDuplicates.group_key n2 →
  n1 = n2.
Proof.
  intros Hperm Hmatch [H1 R1]%in_cleaned_apps [H2 R2]%in_cleaned_apps Hne Hb Hk.
  assert (∀ n, n ∈ apps → app_bundleIdentifier n = app_bundleIdentifier n1 →
               CleanDuplicates.group_key n = CleanDuplicates.group_key n1 →
               n ∉ CleanDuplicates.apps_to_remove sorted_newest_first apps →
               ∃ older,
                 sorted_newest_first
                   (List.filter
                      (λ x, String.eqb (CleanDuplicates.group_key x)
                              (CleanDuplicates.group_key n1))
                      (List.filter
                         (λ x, nonempty (app_bundleIdentifier x)
                               && String.eqb (app_bundleIdentifier x)
                                    (app_bundleIdentifier n1)) apps))
                 = n :: older) as Hhead.
  { intros n Hn Hnb Hnk Hkept.
    assert (n ∈ List.filter
                  (λ x, String.eqb (CleanDuplicates.group_key x)
                          (CleanDuplicates.group_key n1))
                  (List.filter
                     (λ x, nonempty (app_bundleIdentifier x)
                           && String.eqb (app_bundleIdentifier x)
                                (app_bundleIdentifier n1)) apps)) as Hin.
    { apply in_group_of. split_and!; try done. by rewrite Hnb. }
    pose proof (Permutation_length (Hperm
      (List.filter
         (λ x, String.eqb (CleanDuplicates.group_key x)
                 (CleanDuplicates.group_key n1))
         (List.filter
            (λ x, nonempty (app_bundleIdentifier x)
                  && String.eqb (app_bundleIdentifier x)
                       (app_bundleIdentifier n1)) apps)))) as Hlen.
    rewrite <- (Hperm _) in Hin.
    destruct (sorted_newest_first _) as [|newest older] eqn:Hsorted;
      [by apply elem_of_nil in Hin|].
    apply elem_of_cons in Hin as [->|Hin]; [by exists older|].
    exfalso. apply Hkept.
    apply (removed_intro _ apps n newest older).
    - by rewrite Hnb.
    - rewrite Hnb, Hnk, <- Hlen. simpl. destruct older; [by apply elem_of_nil in Hin|].
      simpl. lia.
    - by rewrite Hnb, Hnk.
    - done.
    - apply Hmatch; [|done| |].
      + assert (newest ∈ newest :: older) as Hnew by (by left).
        rewrite <- Hsorted, (Hperm _) in Hnew.
        by apply in_group_of in Hnew as (? & _).
      + assert (newest ∈ newest :: older) as Hnew by (by left).
        rewrite <- Hsorted, (Hperm _) in Hnew.
        apply in_group_of in Hnew as (_ & _ & -> & _). done.
      + assert (newest ∈ newest :: older) as Hnew by (by left).
        rewrite <- Hsorted, (Hperm _) in Hnew.
        apply in_group_of in Hnew as (_ & _ & _ & ->). done. }
  destruct (Hhead n1 H1 eq_refl eq_refl R1) as [o1 E1].
  destruct (Hhead n2 H2 (eq_sym Hb) (eq_sym Hk) R2) as [o2 E2].
  congruence.
Qed.

Lemma cleaner_leaves_one_per_group_witness :
  let entry v :=
    {| app_name := "Instagram (Theta)"; app_bundleIdentifier := "com.x.app";
       app_developerName := "@chan"; app_iconURL := "";
       app_localizedDescription := "Instagram"; app_version := v;
       app_versionDate := "2025-01-01T00:00:00Z"; app_size := 1;
       app_downloadURL := "https://example.com/o/r/releases/download/latest/" +:+ v |} in
  entry "2.0" = entry "2.0".
Proof.
  intros entry.
  apply (cleaner_leaves_one_per_group (λ l, l) [entry "2.0"; entry "1.0"]
           (entry "2.0") (entry "2.0")).
  - intros l. reflexivity.
  - intros x y [->|[->|[]%elem_of_nil]%elem_of_cons]%elem_of_cons
      [->|[->|[]%elem_of_nil]%elem_of_cons]%elem_of_cons _ _; reflexivity.
  - apply (bool_decide_unpack _). by vm_compute.
  - apply (bool_decide_unpack _). by vm_compute.
  - done.
  - reflexivity.
  - reflexivity.
Defined.

(** X17. Step 1 removes every copy of a repeated entry: when the catalog
    holds the same entry twice (with a bundle identifier, and the safety
    check on tweaks holding against the entries of its group), no copy of
    it is left in the cleaned catalog, since the filter at the end drops
    every entry equal to a removed one. *)
Theorem cleaner_drops_repeated_entry (sorted_newest_first : list app → list app)
    (apps l1 l2 l3 : list app) (a : app) :
  (∀ l, sorted_newest_first l ≡ₚ l) →
  apps = l1 ++ a :: l2 ++ a :: l3 →
  app_bundleIdentifier a ≠ "" →
  (∀ x, x ∈ apps →
     app_bundleIdentifier x = app_bundleIdentifier a →
     CleanDuplicates.group_key x = CleanDuplicates.group_key a →
     CleanDuplicates.tweak_match x a = true) →
  a ∉ CleanDuplicates.cleaned_apps sorted_newest_first apps.
Proof.
  intros Hperm Happs Hne Hmatch [_ Hkept]%in_cleaned_apps. apply Hkept.
  set (p := λ x : app, String.eqb (CleanDuplicates.group_key x)
                          (CleanDuplicates.group_key a)).
  set (q := λ x : app, nonempty (app_bundleIdentifier x)
                       && String.eqb (app_bundleIdentifier x) (app_bundleIdentifier a)).
  assert (p a = true) as Hpa by (unfold p; apply String.eqb_refl).
  assert (q a = true) as Hqa.
  { unfold q. rewrite String.eqb_refl. by destruct (app_bundleIdentifier a). }
  assert (List.filter p (List.filter q apps)
          = List.filter p (List.filter q l1)
            ++ a :: List.filter p (List.filter q l2)
            ++ a :: List.filter p (List.filter q l3)) as Hg.
  { rewrite Happs. rewrite !List.filter_app. simpl. rewrite Hqa. simpl.
    rewrite !List.filter_app. simpl. rewrite Hqa. simpl. by rewrite Hpa. }
  pose proof (Hperm (List.filter p (List.filter q apps))) as Hsort.
  pose proof (Permutation_length Hsort) as Hlen.
  destruct (sorted_newest_first (List.filter p (List.filter q apps)))
    as [|newest older] eqn:Hsorted.
  { rewrite Hg in Hlen. rewrite length_app in Hlen. simpl in Hlen. lia. }
  assert (newest ∈ List.filter p (List.filter q apps)) as Hnew.
  { rewrite <- Hsort. by left. }
  apply in_group_of in Hnew as (Hnew & _ & Hnb & Hnk).
  apply (removed_intro _ apps a newest older); try done.
  - fold q p. rewrite Hg, length_app. simpl. rewrite length_app. simpl. lia.
  - destruct (decide (newest = a)) as [->|Hdiff].
    + rewrite Hg in Hsort.
      rewrite <- Permutation_middle in Hsort.
      apply Permutation_cons_inv in Hsort. rewrite Hsort.
      rewrite !elem_of_app, elem_of_cons. tauto.
    + assert (a ∈ newest :: older) as Hin.
      { rewrite Hsort, Hg, elem_of_app, elem_of_cons. tauto. }
      by apply elem_of_cons in Hin as [->|?].
  - by apply Hmatch.
Qed.

Lemma cleaner_drops_repeated_entry_witness :
  let a :=
    {| app_name := "Instagram (Theta)"; app_bundleIdentifier := "com.x.app";
       app_developerName := "@chan"; app_iconURL := "";
       app_localizedDescription := "Instagram"; app_version := "1.0";
       app_versionDate := "2025-01-01T00:00:00Z"; app_size := 1;
       app_downloadURL := "https://example.com/o/r/releases/download/latest/a.ipa" |} in
  a ∉ CleanDuplicates.cleaned_apps (λ l, l) [a; a].
Proof.
  intros a.
  apply (cleaner_drops_repeated_entry (λ l, l) [a; a] [] [] [] a).
  - intros l. reflexivity.
  - reflexivity.
  - done.
  - intros x [->|[->|[]%elem_of_nil]%elem_of_cons]%elem_of_cons _ _; reflexivity.
Defined.

Example cleaner_empties_repeated_catalog :
  let a :=
    {| app_name := "Instagram (Theta)"; app_bundleIdentifier := "com.x.app";
       app_developerName := "@chan"; app_iconURL := "";
       app_localizedDescription := "Instagram"; app_version := "1.0";
       app_versionDate := "2025-01-01T00:00:00Z"; app_size := 1;
       app_downloadURL := "https://example.com/o/r/releases/download/latest/a.ipa" |} in
  CleanDuplicates.cleaned_apps (λ l, l) [a; a] = [].
Proof. by vm_compute. Qed.

(** ** The extraction cache *)

(** X18. The metadata cache answers before the service does: once a call
    has returned metadata for a message and a filename, every later call
    on the resulting cache with the same filename and a message that
    agrees with the first on its first 100 characters returns that same
    metadata and leaves the cache as it is, whatever the service, the
    models or the registry would answer then; and a call that finds
    nothing adds nothing to the cache. *)
Theorem metadata_cache_round_trip
    (ask1 ask2 : string → string → string → option string → option ai_json)
    (OPENROUTER_API_KEY model1 fallback1 model2 fallback2 : string)
    (intro1 outro1 intro2 outro2 : string) (hash : string → string)
    (known1 known2 : list string) (text1 text2 : string) (filename : option string)
    (c0 c1 : gmap string metadata) (r : option metadata) :
  extract_metadata_with_ai ask1 OPENROUTER_API_KEY model1 fallback1 intro1 outro1
    hash known1 text1 filename c0 = Returns (r, c1) →
  String.substring 0 100 text2 = String.substring 0 100 text1 →
  match r with
  | Some md =>
      extract_metadata_with_ai ask2 OPENROUTER_API_KEY model2 fallback2 intro2 outro2
        hash known2 text2 filename c1 = Returns (Some md, c1)
  | None => c1 = c0
  end.
Proof.
  unfold extract_metadata_with_ai, cache_key. intros Hfirst Hprefix.
  rewrite Hprefix.
  destruct (negb (nonempty OPENROUTER_API_KEY)); [done|].
  set (key := "metadata:" +:+ _) in *.
  destruct (c0 !! key) as [cached|] eqn:Hc0.
  - injection Hfirst as <- <-. by rewrite Hc0.
  - match type of Hfirst with
    | match ?m with _ => _ end = _ => destruct m as [md|]
    end; injection Hfirst as <- <-; [|done].
    by rewrite lookup_insert_eq.
Qed.

Lemma metadata_cache_round_trip_witness :
  let answer := {| j_app_name := Str "Instagram"; j_version := Str "1.2";
                   j_tweak_name := Str "Theta";
                   j_bundle_id := Str "com.burbn.instagram";
                   j_description := Str "Instagram 1.2 with Theta" |} in
  let md := {| md_app_name := Some "Instagram"; md_version := Some "1.2";
               md_tweak_name := Some "Theta";
               md_bundle_id := Some "com.burbn.instagram";
               md_description := Some "Instagram 1.2 with Theta" |} in
  extract_metadata_with_ai (λ _ _ _ _, None) "key" "m" "f" "" "" (λ s, s) []
    "Instagram 1.2" (Some "a.ipa")
    (<[ "metadata:Instagram 1.2|a.ipa" := md ]> ∅)
  = Returns (Some md, <[ "metadata:Instagram 1.2|a.ipa" := md ]> ∅).
Proof.
  intros answer md.
  apply (metadata_cache_round_trip (λ _ _ _ _, Some answer) (λ _ _ _ _, None)
           "key" "m" "f" "m" "f" "" "" "" "" (λ s, s) [] []
           "Instagram 1.2" "Instagram 1.2" (Some "a.ipa") ∅ _ (Some md));
    reflexivity.
Defined.

(** ** The detector's chunks and deletions *)

Section ChunkFacts.

Import CleanDuplicates.

Lemma chunks_take {A : Type} (n m : nat) (l : list A) :
  concat (map (λ i, take n (drop i l)) (map (λ k, k * n)%nat (seq 0 m)))
  = take (m * n) l.
Proof.
  induction m as [|m IH]; [done|].
  rewrite seq_S, !map_app, concat_app, IH. simpl. rewrite app_nil_r.
  rewrite take_take_drop. f_equal. lia.
Qed.

Lemma get_ipa_assets f id release_assets :
  get f (ipa_assets release_assets) = Some id →
  endswith ".ipa" f = true ∧ (f, id) ∈ release_assets.
Proof.
  intros Hget%get_elem. unfold ipa_assets in Hget.
  apply list_elem_of_In, filter_In in Hget as [Hin Hipa].
  split; [done | by apply list_elem_of_In].
Qed.

Lemma files_of_group_assets ipa_assets keep_file delete_files fi :
  fi ∈ files_of_group ipa_assets keep_file delete_files →
  get (fi_filename fi) ipa_assets = Some (fi_asset_id fi).
Proof.
  induction delete_files as [|f rest IH]; simpl; [by intros ?%elem_of_nil|].
  destruct (get f ipa_assets) as [id|] eqn:Hget; [|done].
  intros [->|Hin]%elem_of_cons; [done | by apply IH].
Qed.

Lemma files_to_delete_assets ipa_assets groups fi :
  fi ∈ files_to_delete ipa_assets groups →
  get (fi_filename fi) ipa_assets = Some (fi_asset_id fi).
Proof.
  induction groups as [|g groups IH]; simpl; [by intros ?%elem_of_nil|].
  intros [Hin|Hin]%elem_of_app; [by eapply files_of_group_assets | by apply IH].
Qed.

End ChunkFacts.

(** X19. The chunks the detector is called on cover the file list: past
    [CHUNK_SIZE] names, the slices [filenames[i:i + CHUNK_SIZE]] taken at
    the steps of [range(0, len(filenames), CHUNK_SIZE)], put end to end,
    are the list itself; every name is sent once, in its place, and no
    chunk is empty or longer than [CHUNK_SIZE]. *)
Theorem chunks_cover_filenames (filenames : list string) :
  concat (map (λ i, take CleanDuplicates.CHUNK_SIZE (drop i filenames))
            (CleanDuplicates.chunk_starts (length filenames)))
  = filenames
  ∧ Forall (λ i, (1 ≤ length (take CleanDuplicates.CHUNK_SIZE (drop i filenames))
                  ≤ CleanDuplicates.CHUNK_SIZE)%nat)
      (CleanDuplicates.chunk_starts (length filenames)).
Proof.
  unfold CleanDuplicates.chunk_starts, CleanDuplicates.CHUNK_SIZE.
  set (m := ((length filenames + 50 - 1) / 50)%nat).
  assert (length filenames ≤ m * 50 ∧ m * 50 < length filenames + 50)%nat as [Hle Hlt].
  { unfold m.
    pose proof (Nat.div_mod_eq (length filenames + 50 - 1) 50) as Hdm.
    pose proof (Nat.mod_upper_bound (length filenames + 50 - 1) 50). lia. }
  split.
  - rewrite chunks_take. by apply take_ge.
  - apply Forall_forall. intros i (k & -> & Hk)%list_elem_of_fmap.
    apply elem_of_seq in Hk. rewrite length_take, length_drop. nia.
Qed.

(** X20. Step 2 of the cleaner deletes release assets that are IPA files
    and nothing else: every deletion it schedules names an asset of the
    release whose name ends in [.ipa], with the id the release gives that
    name; the catalog files and every other asset are out of its reach,
    whatever the inference service proposes. *)
Theorem scheduled_deletions_are_ipa_assets
    (ask_groups : list string → list string → option (list CleanDuplicates.group))
    (OPENROUTER_API_KEY : string) (batch_key : list string → string)
    (release_assets : odict Z) (known_tweaks : list string) :
  Forall (λ fi,
            endswith ".ipa" (CleanDuplicates.fi_filename fi) = true
            ∧ (CleanDuplicates.fi_filename fi, CleanDuplicates.fi_asset_id fi)
              ∈ release_assets)
    (CleanDuplicates.scheduled_deletions ask_groups OPENROUTER_API_KEY batch_key
       release_assets known_tweaks).
Proof.
  apply Forall_forall. intros fi Hfi%scheduled_deletions_spec.
  apply files_to_delete_assets in Hfi. by apply get_ipa_assets.
Qed.

(** ** What Pass 2 keeps *)

Section Pass2Order.

Lemma pass2_step_newest apps a apps' (seen : list (string * string)) :
  (∀ k e, get k apps = Some e → ∃ p, version_parts (entry_version e) = Returns p) →
  (∃ p, version_parts (app_version a) = Returns p) →
  (∀ k v, (k, v) ∈ seen → ∃ p, version_parts v = Returns p) →
  (∀ k v, (k, v) ∈ seen →
     ∃ e, get k apps = Some e
          ∧ compare_versions v (entry_version e) None None = Returns false) →
  pass2_step apps a = Returns apps' →
  (∀ k e, get k apps' = Some e → ∃ p, version_parts (entry_version e) = Returns p)
  ∧ (∀ k v, (k, v) ∈ seen ++ [(existing_key a, app_version a)] →
       ∃ e, get k apps' = Some e
            ∧ compare_versions v (entry_version e) None None = Returns false).
Proof.
  intros Hparse [pa Hpa] Hseenp Hseen. unfold pass2_step. fold (existing_key a).
  set (kept := Existing a (app_version a) (tweak_in_name (app_name a))).
  assert (∀ k e, get k (set (existing_key a) kept apps) = Some e →
                 ∃ p, version_parts (entry_version e) = Returns p) as Hparse'.
  { intros k e. destruct (decide (k = existing_key a)) as [->|Hne].
    - rewrite get_set_eq. intros [= <-]. simpl. eauto.
    - rewrite get_set_ne by done. apply Hparse. }
  destruct (get (existing_key a) apps) as [resident|] eqn:Hget.
  - destruct (Hparse _ _ Hget) as [pr Hpr].
    destruct (compare_versions (app_version a) (entry_version resident) None None)
      as [older|] eqn:Hcmp; [|done]. cbn [bind].
    destruct older; intros [= <-].
    + split; [done|].
      intros k v [Hin | [= -> ->]%list_elem_of_singleton]%elem_of_app.
      * destruct (Hseen k v Hin) as (e & Hge & Hle).
        destruct (decide (k = existing_key a)) as [->|Hne].
        -- rewrite get_set_eq. eexists. split; [done|]. simpl.
           rewrite Hget in Hge. injection Hge as <-.
           destruct (Hseenp _ _ Hin) as [q Hq].
           by apply (compare_versions_below _ (entry_version resident) _ q pr pa
                       _ None).
        -- rewrite get_set_ne by done. eauto.
      * rewrite get_set_eq. eexists. split; [done|]. apply compare_versions_same.
    + split; [done|].
      intros k v [Hin | [= -> ->]%list_elem_of_singleton]%elem_of_app;
        [by apply Hseen | eauto].
  - intros [= <-]. split; [done|].
    intros k v [Hin | [= -> ->]%list_elem_of_singleton]%elem_of_app.
    + destruct (Hseen k v Hin) as (e & Hge & Hle).
      rewrite get_set_ne; [eauto|]. intros ->. congruence.
    + rewrite get_set_eq. eexists. split; [done|]. apply compare_versions_same.
Qed.

Lemma pass2_newest catalog : ∀ apps apps' (seen : list (string * string)),
  (∀ k e, get k apps = Some e → ∃ p, version_parts (entry_version e) = Returns p) →
  (∀ a, a ∈ catalog → ∃ p, version_parts (app_version a) = Returns p) →
  (∀ k v, (k, v) ∈ seen → ∃ p, version_parts v = Returns p) →
  (∀ k v, (k, v) ∈ seen →
     ∃ e, get k apps = Some e
          ∧ compare_versions v (entry_version e) None None = Returns false) →
  pass2 apps catalog = Returns apps' →
  ∀ k v, (k, v) ∈ seen ++ map (λ a, (existing_key a, app_version a)) catalog →
    ∃ e, get k apps' = Some e
         ∧ compare_versions v (entry_version e) None None = Returns false.
Proof.
  induction catalog as [|a rest IH]; intros apps apps' seen Hparse Hcat Hseenp Hseen;
    simpl.
  - intros [= <-]. by rewrite app_nil_r.
  - destruct (pass2_step apps a) as [apps1|] eqn:Hstep; [|done]. cbn [bind].
    intros Hrest.
    destruct (pass2_step_newest apps a apps1 seen) as [Hparse1 Hseen1]; try done.
    { apply Hcat. by left. }
    replace (seen ++ (existing_key a, app_version a)
                       :: map (λ a0, (existing_key a0, app_version a0)) rest)
      with ((seen ++ [(existing_key a, app_version a)])
              ++ map (λ a0, (existing_key a0, app_version a0)) rest)
      by (by rewrite <- app_assoc).
    apply (IH apps1 apps' (seen ++ [(existing_key a, app_version a)])); try done.
    + intros b Hb. apply Hcat. by right.
    + intros k v [Hin | [= -> ->]%list_elem_of_singleton]%elem_of_app;
        [by eapply Hseenp | apply Hcat; by left].
Qed.

End Pass2Order.

(** X21. Pass 2 keeps, for every identity key, an entry that nothing of
    that key outranks: when every version parses, each published app and
    each scanned entry finds its key in the merged map, and
    [compare_versions] does not rank it above the entry kept there. *)
Theorem pass2_keeps_newest (apps apps' : odict entry) (catalog : list app) :
  NoDup (keys apps) →
  (∀ k e, (k, e) ∈ apps → ∃ p, version_parts (entry_version e) = Returns p) →
  (∀ a, a ∈ catalog → ∃ p, version_parts (app_version a) = Returns p) →
  pass2 apps catalog = Returns apps' →
  (∀ k e0, (k, e0) ∈ apps →
     ∃ e, get k apps' = Some e
          ∧ compare_versions (entry_version e0) (entry_version e) None None
            = Returns false)
  ∧ (∀ a, a ∈ catalog →
       ∃ e, get (existing_key a) apps' = Some e
            ∧ compare_versions (app_version a) (entry_version e) None None
              = Returns false).
Proof.
  intros Hnd Hparse Hcat Hrun.
  pose proof (pass2_newest catalog apps apps'
                (map (λ kv, (kv.1, entry_version kv.2)) apps)) as Hall.
  assert (∀ k v, (k, v) ∈ map (λ kv : string * entry, (kv.1, entry_version kv.2)) apps →
                 ∃ e, (k, e) ∈ apps ∧ v = entry_version e) as Hseen.
  { intros k v ([k' e] & [= -> ->] & Hin)%list_elem_of_fmap. by exists e. }
  specialize (Hall
    (λ k e Hget, Hparse k e (get_elem k e apps Hget)) Hcat).
  assert (∀ k v,
    (k, v) ∈ map (λ kv : string * entry, (kv.1, entry_version kv.2)) apps
             ++ map (λ a, (existing_key a, app_version a)) catalog →
    ∃ e, get k apps' = Some e
         ∧ compare_versions v (entry_version e) None None = Returns false) as Hall'.
  { apply Hall; [| | done].
    - intros k v (e & Hin & ->)%Hseen. by eapply Hparse.
    - intros k v (e & Hin & ->)%Hseen. exists e.
      split; [by apply elem_get | apply compare_versions_same]. }
  clear Hall. rename Hall' into Hall. split.
  - intros k e0 Hin. apply Hall. apply elem_of_app. left.
    by apply (list_elem_of_fmap_2 (λ kv : string * entry, (kv.1, entry_version kv.2))
                _ (k, e0)).
  - intros a Ha. apply Hall. apply elem_of_app. right.
    by apply (list_elem_of_fmap_2 (λ a, (existing_key a, app_version a))).
Qed.

Lemma pass2_keeps_newest_witness :
  let a v := {| app_name := "App"; app_bundleIdentifier := "com.x.app";
                app_developerName := ""; app_iconURL := "";
                app_localizedDescription := ""; app_version := v;
                app_versionDate := ""; app_size := 1; app_downloadURL := "" |} in
  (∀ k e0, (k, e0) ∈ ([] : odict entry) →
     ∃ e, get k [("com.x.app", Existing (a "2.0") "2.0" None)] = Some e
          ∧ compare_versions (entry_version e0) (entry_version e) None None
            = Returns false)
  ∧ (∀ b, b ∈ [a "1.0"; a "2.0"] →
       ∃ e, get (existing_key b) [("com.x.app", Existing (a "2.0") "2.0" None)] = Some e
            ∧ compare_versions (app_version b) (entry_version e) None None
              = Returns false).
Proof.
  intros a.
  apply (pass2_keeps_newest [] _ [a "1.0"; a "2.0"]).
  - apply NoDup_nil_2.
  - intros k e []%elem_of_nil.
  - intros b [->|[->|[]%elem_of_nil]%elem_of_cons]%elem_of_cons; eexists; reflexivity.
  - reflexivity.
Defined.

(** ** One published name, three readers *)

Section PublishedName.

Lemma lstrip_blank_prefix b s :
  forallb_str isspace b = true → lstrip (b +:+ s) = lstrip s.
Proof.
  induction b as [|c b IH]; intros Hb; [by rewrite str_app_nil_l|].
  simpl in Hb. apply andb_true_iff in Hb as [Hc Hb].
  rewrite str_app_cons. simpl. rewrite Hc. by apply IH.
Qed.

(** What follows the base in a published name: a blank, then the tweak
    in parentheses. *)
Lemma lstrip_suffix b t :
  forallb_str (λ c, negb (is_lparen c)) b = true →
  lstrip (b +:+ " (" +:+ t +:+ ")")
  = if forallb_str isspace b then "(" +:+ t +:+ ")"
    else lstrip b +:+ " (" +:+ t +:+ ")".
Proof.
  induction b as [|c b IH]; intros Hb; [done|].
  simpl in Hb. apply andb_true_iff in Hb as [Hc Hb].
  rewrite str_app_cons. simpl. destruct (isspace c); simpl; [by apply IH|].
  by rewrite str_app_cons.
Qed.

Lemma lstrip_not_lparen b :
  forallb_str (λ c, negb (is_lparen c)) b = true →
  forallb_str isspace b = false →
  ∃ c r, lstrip b = String c r ∧ is_lparen c = false.
Proof.
  induction b as [|c b IH]; [done|]. simpl.
  intros [Hc Hb]%andb_true_iff. destruct (isspace c) eqn:Hs; simpl.
  - by apply IH.
  - intros _. exists c, b. split; [done | by apply negb_true_iff].
Qed.

Lemma match_tail_end_suffix b t :
  forallb_str (λ c, negb (is_lparen c)) b = true →
  forallb_str (λ c, negb (is_rparen c)) t = true → t ≠ "" →
  CleanDuplicates.match_tail_end (b +:+ " (" +:+ t +:+ ")")
  = if forallb_str isspace b then Some t else None.
Proof.
  intros Hb Ht Hne. unfold CleanDuplicates.match_tail_end.
  rewrite lstrip_suffix by done.
  destruct (forallb_str isspace b) eqn:Hblank.
  - change ("(" +:+ t +:+ ")") with (String "(" (t +:+ ")")).
    change (is_lparen "(") with true. cbn iota.
    rewrite (until_rparen_body t "" Ht). by destruct t.
  - destruct (lstrip_not_lparen b Hb Hblank) as (c & r & -> & Hc).
    rewrite str_app_cons. by rewrite Hc.
Qed.

Lemma match_tail_suffix b t :
  forallb_str (λ c, negb (is_lparen c)) b = true →
  forallb_str (λ c, negb (is_rparen c)) t = true → t ≠ "" →
  AltStore.match_tail (b +:+ " (" +:+ t +:+ ")")
  = if forallb_str isspace b then Some t else None.
Proof.
  intros Hb Ht Hne. unfold AltStore.match_tail.
  rewrite lstrip_suffix by done.
  destruct (forallb_str isspace b) eqn:Hblank.
  - change ("(" +:+ t +:+ ")") with (String "(" (t +:+ ")")).
    change (is_lparen "(") with true. cbn iota.
    rewrite (until_rparen_body t "" Ht). by destruct t.
  - destruct (lstrip_not_lparen b Hb Hblank) as (c & r & -> & Hc).
    rewrite str_app_cons. by rewrite Hc.
Qed.

Lemma match_base_published base t :
  base ≠ "" →
  forallb_str (λ c, negb (is_lparen c) && negb (is_newline c)) base = true →
  forallb_str (λ c, negb (is_rparen c)) t = true → t ≠ "" →
  ∃ g1, CleanDuplicates.match_base (base +:+ " (" +:+ t +:+ ")") = Some (g1, t).
Proof.
  intros Hne Hbase Ht Htne. induction base as [|c b IH]; [done|].
  rewrite forallb_str_and in Hbase. simpl in Hbase.
  apply andb_true_iff in Hbase as [[Hc Hb]%andb_true_iff [Hn Hbn]%andb_true_iff].
  rewrite str_app_cons. simpl. apply negb_true_iff in Hn. rewrite Hn.
  rewrite match_tail_end_suffix by done.
  destruct (forallb_str isspace b) eqn:Hblank; [by eexists|].
  destruct IH as [g1 ->]; [by intros -> | | by eexists].
  rewrite forallb_str_and. by rewrite Hb, Hbn.
Qed.

Lemma match_name_published base t :
  base ≠ "" →
  forallb_str (λ c, negb (is_lparen c) && negb (is_newline c)) base = true →
  forallb_str (λ c, negb (is_rparen c)) t = true → t ≠ "" →
  ∃ g1, AltStore.match_name (base +:+ " (" +:+ t +:+ ")") = Some (g1, t).
Proof.
  intros Hne Hbase Ht Htne. induction base as [|c b IH]; [done|].
  rewrite forallb_str_and in Hbase. simpl in Hbase.
  apply andb_true_iff in Hbase as [[Hc Hb]%andb_true_iff [Hn Hbn]%andb_true_iff].
  rewrite str_app_cons. simpl. apply negb_true_iff in Hn. rewrite Hn.
  rewrite match_tail_suffix by done.
  destruct (forallb_str isspace b) eqn:Hblank; [by eexists|].
  destruct IH as [g1 ->]; [by intros -> | | by eexists].
  rewrite forallb_str_and. by rewrite Hb, Hbn.
Qed.

End PublishedName.

(** X22. The three programs read the same tweak out of a name the
    scraper published: for a non-empty base name on one line without
    opening parenthesis and a non-empty tweak without closing
    parenthesis, the scraper's Pass 2 reads the tweak itself, the cleaner
    reads it stripped of surrounding blanks, and the AltStore converter
    looks that stripped tweak up in the registry. *)
Theorem published_name_read_alike (base_name t : string) (known_tweaks : list string) :
  base_name ≠ "" →
  forallb_str (λ c, negb (is_lparen c) && negb (is_newline c)) base_name = true →
  forallb_str (λ c, negb (is_rparen c)) t = true → t ≠ "" →
  tweak_in_name (final_name base_name (Some t)) = Some t
  ∧ (CleanDuplicates.extract_base_name_and_tweak (final_name base_name (Some t))).2
    = Some (strip t)
  ∧ (AltStore.extract_tweak_from_name (final_name base_name (Some t)) known_tweaks).2
    = AltStore.find_tweak (strip t) known_tweaks.
Proof.
  intros Hne Hbase Ht Htne.
  assert (forallb_str (λ c, negb (is_lparen c)) base_name = true) as Hlp.
  { rewrite forallb_str_and in Hbase. by apply andb_true_iff in Hbase as [? _]. }
  assert (truthy (Some t) = true) as Htruthy by (by destruct t).
  split_and!.
  - rewrite tweak_in_final_name by done. by rewrite Htruthy.
  - unfold CleanDuplicates.extract_base_name_and_tweak, final_name.
    rewrite Htruthy. change (default "" (Some t)) with t.
    destruct (match_base_published base_name t Hne Hbase Ht Htne) as [g1 Hm].
    by rewrite Hm.
  - unfold AltStore.extract_tweak_from_name, final_name.
    rewrite Htruthy. change (default "" (Some t)) with t.
    destruct (match_name_published base_name t Hne Hbase Ht Htne) as [g1 Hm].
    rewrite Hm. by destruct (AltStore.find_tweak (strip t) known_tweaks).
Qed.

Lemma published_name_read_alike_witness :
  tweak_in_name (final_name "Instagram" (Some "Theta")) = Some "Theta"
  ∧ (CleanDuplicates.extract_base_name_and_tweak
       (final_name "Instagram" (Some "Theta"))).2 = Some (strip "Theta")
  ∧ (AltStore.extract_tweak_from_name (final_name "Instagram" (Some "Theta"))
       ["BHInsta"; "Theta"]).2
    = AltStore.find_tweak (strip "Theta") ["BHInsta"; "Theta"].
Proof.
  apply (published_name_read_alike "Instagram" "Theta" ["BHInsta"; "Theta"]); done.
Defined.
